(** * SnowflakeOS ext2 driver: a shallow embedding of [kernel/src/misc/ext2.c]

    The driver works on a memory-mapped volume through five file-scope
    variables ([device], [num_block_groups], [block_size], [superblock],
    [group_descriptors]).  The embedding threads them as an explicit [world]
    through a small state-and-fault monad.  32-bit unsigned arithmetic is
    written out as arithmetic on [Z] reduced modulo [2^32]; every memory
    object (the volume, the scratch blocks, the caller's buffers) is a list
    of bytes, and an access outside an object is a [Fault]. *)

From Stdlib Require Import String ZArith List Bool Lia.
Import ListNotations.
Local Open Scope Z_scope.

(** ** Machine integers *)

Module U.

Definition u8 (x : Z) : Z := x mod 2 ^ 8.
Definition u16 (x : Z) : Z := x mod 2 ^ 16.
Definition u32 (x : Z) : Z := x mod 2 ^ 32.

End U.
Import U.

(** ** Byte objects

    A memory object is the list of its bytes.  [sub] and [blit] are the two
    halves of [memcpy]: reading [n] bytes at [off], and overwriting the bytes
    at [off]; both refuse a range that leaves the object. *)

Module Bytes.

Definition in_range (l : list Z) (off n : Z) : bool :=
  (0 <=? off) && (0 <=? n) && (off + n <=? Z.of_nat (length l)).

Definition sub (l : list Z) (off n : Z) : option (list Z) :=
  if in_range l off n
  then Some (firstn (Z.to_nat n) (skipn (Z.to_nat off) l))
  else None.

Definition blit (dst : list Z) (off : Z) (src : list Z) : option (list Z) :=
  if in_range dst off (Z.of_nat (length src))
  then Some (firstn (Z.to_nat off) dst ++ src
             ++ skipn (Z.to_nat off + length src) dst)
  else None.

(** Little-endian value of a byte sequence (x86). *)
Fixpoint le (l : list Z) : Z :=
  match l with
  | [] => 0
  | b :: t => u8 b + 256 * le t
  end.

(** The [n]-byte little-endian field at byte offset [off] of an object
    already known to be large enough. *)
Definition field (l : list Z) (off n : nat) : Z :=
  le (firstn n (skipn off l)).

Definition words (l : list Z) (off count : nat) : list Z :=
  map (fun i => field l (off + 4 * i) 4) (seq 0 count).

(** A bounds-checked load of an [n]-byte little-endian integer. *)
Definition load (n : Z) (l : list Z) (off : Z) : option Z :=
  option_map le (sub l off n).

(** Overwrite one byte. *)
Definition store8 (l : list Z) (off v : Z) : option (list Z) :=
  blit l off [u8 v].

End Bytes.
Import Bytes.

(** ** On-disk structures *)

Record superblock_t := {
  sb_inodes_count : Z;
  sb_blocks_count : Z;
  sb_blocks_superuser : Z;
  sb_free_blocks : Z;
  sb_free_inodes : Z;
  sb_superblock_block : Z;
  sb_block_size : Z;
  sb_fragment_size : Z;
  sb_blocks_per_group : Z;
  sb_fragments_per_group : Z;
  sb_inodes_per_group : Z;
  sb_last_mount_time : Z;
  sb_last_write_time : Z;
  sb_mounts_since_fsck : Z;
  sb_mounts_before_fsck : Z;
  sb_magic : Z;
  sb_state : Z;
  sb_on_error : Z;
  sb_version_minor : Z;
  sb_last_fsck : Z;
  sb_time_between_fsck : Z;
  sb_creator_id : Z;
  sb_version_major : Z;
  sb_superuser : Z;
  sb_supergroup : Z;
  sb_first_available_block : Z;
  sb_inode_size : Z;
  sb_superblock_group : Z;
  sb_optional_features : Z;
  sb_required_features : Z;
  sb_ro_features : Z;
  sb_id : list Z;
  sb_name : list Z;
  sb_last_mount_path : list Z;
  sb_compression : Z;
  sb_preallocate_files : Z;
  sb_preallocate_directories : Z;
  sb_unused : Z;
  sb_journal_id : list Z;
  sb_journal_inode : Z;
  sb_journal_device : Z;
  sb_orphans_inode : Z
}.

Record group_descriptor_t := {
  gd_block_bitmap : Z;
  gd_inode_bitmap : Z;
  gd_inode_table : Z;
  gd_free_blocs : Z;
  gd_free_inodes : Z;
  gd_directories_count : Z;
  gd_pad : Z;
  gd_unused : list Z
}.

Record inode_t := {
  i_type_perms : Z;
  i_uid : Z;
  i_size_lower : Z;
  i_last_access : Z;
  i_creation_time : Z;
  i_last_modified : Z;
  i_deletion_time : Z;
  i_gid : Z;
  i_hardlinks_count : Z;
  i_sectors_used : Z;
  i_flags : Z;
  i_os_specific1 : Z;
  i_dbp : list Z;
  i_sibp : Z;
  i_dibp : Z;
  i_tibp : Z;
  i_generation_number : Z;
  i_extended_attributes : Z;
  i_size_upper : Z;
  i_fragment_block : Z;
  i_os_specific2 : list Z
}.

Definition sizeof_superblock_t : Z := 236.
Definition sizeof_group_descriptor_t : Z := 32.
Definition sizeof_inode_t : Z := 128.

(** The view of a byte object through a [superblock_t*]. *)
Definition as_superblock (b : list Z) : superblock_t := {|
  sb_inodes_count := field b 0 4;
  sb_blocks_count := field b 4 4;
  sb_blocks_superuser := field b 8 4;
  sb_free_blocks := field b 12 4;
  sb_free_inodes := field b 16 4;
  sb_superblock_block := field b 20 4;
  sb_block_size := field b 24 4;
  sb_fragment_size := field b 28 4;
  sb_blocks_per_group := field b 32 4;
  sb_fragments_per_group := field b 36 4;
  sb_inodes_per_group := field b 40 4;
  sb_last_mount_time := field b 44 4;
  sb_last_write_time := field b 48 4;
  sb_mounts_since_fsck := field b 52 2;
  sb_mounts_before_fsck := field b 54 2;
  sb_magic := field b 56 2;
  sb_state := field b 58 2;
  sb_on_error := field b 60 2;
  sb_version_minor := field b 62 2;
  sb_last_fsck := field b 64 4;
  sb_time_between_fsck := field b 68 4;
  sb_creator_id := field b 72 4;
  sb_version_major := field b 76 4;
  sb_superuser := field b 80 2;
  sb_supergroup := field b 82 2;
  sb_first_available_block := field b 84 4;
  sb_inode_size := field b 88 2;
  sb_superblock_group := field b 90 2;
  sb_optional_features := field b 92 4;
  sb_required_features := field b 96 4;
  sb_ro_features := field b 100 4;
  sb_id := words b 104 4;
  sb_name := words b 120 4;
  sb_last_mount_path := firstn 64 (skipn 136 b);
  sb_compression := field b 200 4;
  sb_preallocate_files := field b 204 1;
  sb_preallocate_directories := field b 205 1;
  sb_unused := field b 206 2;
  sb_journal_id := words b 208 4;
  sb_journal_inode := field b 224 4;
  sb_journal_device := field b 228 4;
  sb_orphans_inode := field b 232 4
|}.

Definition as_group_descriptor (b : list Z) : group_descriptor_t := {|
  gd_block_bitmap := field b 0 4;
  gd_inode_bitmap := field b 4 4;
  gd_inode_table := field b 8 4;
  gd_free_blocs := field b 12 2;
  gd_free_inodes := field b 14 2;
  gd_directories_count := field b 16 2;
  gd_pad := field b 18 2;
  gd_unused := words b 20 3
|}.

Definition as_inode (b : list Z) : inode_t := {|
  i_type_perms := field b 0 2;
  i_uid := field b 2 2;
  i_size_lower := field b 4 4;
  i_last_access := field b 8 4;
  i_creation_time := field b 12 4;
  i_last_modified := field b 16 4;
  i_deletion_time := field b 20 4;
  i_gid := field b 24 2;
  i_hardlinks_count := field b 26 2;
  i_sectors_used := field b 28 4;
  i_flags := field b 32 4;
  i_os_specific1 := field b 36 4;
  i_dbp := words b 40 12;
  i_sibp := field b 88 4;
  i_dibp := field b 92 4;
  i_tibp := field b 96 4;
  i_generation_number := field b 100 4;
  i_extended_attributes := field b 104 4;
  i_size_upper := field b 108 4;
  i_fragment_block := field b 112 4;
  i_os_specific2 := words b 116 3
|}.

(** The type and permission bits of [type_perms], and the macros on 16-bit
    values. *)
Definition INODE_FIFO : Z := 4096.
Definition INODE_CHAR : Z := 8192.
Definition INODE_DIR : Z := 16384.
Definition INODE_BLCK : Z := 24576.
Definition INODE_FILE : Z := 32768.
Definition INODE_SYM : Z := 40960.
Definition INODE_SOCKET : Z := 49152.

Definition INODE_TYPE (n : Z) : Z := Z.land n 61440.
Definition INODE_PERM (n : Z) : Z := Z.land n 4095.

(** [((n & 0xFF >> 8) | (n << 8))]: the shift binds tighter than [&]. *)
Definition U16_BIGENDIAN (n : Z) : Z :=
  Z.lor (Z.land n (Z.shiftr 255 8)) (Z.shiftl n 8).

(** Modelled from the spec: the header [kernel/ext2.h] is not part of the
    sources.  A directory entry is an inode number (4 bytes), a record length
    (2 bytes), a name length (1 byte), a type tag (1 byte), then the name;
    [sizeof(ext2_directory_entry_t)] is the 8-byte header, and the root
    directory is inode 2. *)
Definition sizeof_directory_entry : Z := 8.
Definition de_inode : Z := 0.
Definition de_entry_size : Z := 4.
Definition de_name_len_low : Z := 6.
Definition de_type : Z := 7.
Definition de_name : Z := 8.
Definition EXT2_ROOT_INODE : Z := 2.

(** ** The world and the monad *)

(** One call of [printf]: the format string and its arguments. *)
Inductive event := Printf (fmt : string) (args : list Z).

Record world := {
  device : option (list Z);
  num_block_groups : Z;
  block_size : Z;
  superblock : option superblock_t;
  group_descriptors : option (list group_descriptor_t);
  (** everything printed so far, oldest first *)
  console : list event;
  (** the byte found in cell [i] of storage that was handed out by
      [kmalloc], or reserved on the stack, and not written yet *)
  junk : nat -> Z
}.

Inductive outcome (A : Type) :=
| Ok (a : A) (w : world)
| Fault
| OutOfFuel.
Arguments Ok {A} a w.
Arguments Fault {A}.
Arguments OutOfFuel {A}.

Definition M (A : Type) : Type := world -> outcome A.

Definition ret {A} (a : A) : M A := fun w => Ok a w.

Definition bind {A B} (c : M A) (k : A -> M B) : M B :=
  fun w =>
    match c w with
    | Ok a w' => k a w'
    | Fault => Fault
    | OutOfFuel => OutOfFuel
    end.

Declare Scope monad_scope.
Delimit Scope monad_scope with monad.
Notation "x <- c ;; k" := (bind c (fun x => k))
  (at level 100, c at next level, right associativity) : monad_scope.
Notation "' pat <- c ;; k" := (bind c (fun x => match x with pat => k end))
  (at level 100, pat pattern, c at next level, right associativity) : monad_scope.
Notation "c ;; k" := (bind c (fun _ => k))
  (at level 100, right associativity) : monad_scope.
Local Open Scope monad_scope.

Definition fault {A} : M A := fun _ => Fault.
Definition out_of_fuel {A} : M A := fun _ => OutOfFuel.
Definition gets {A} (f : world -> A) : M A := fun w => Ok (f w) w.
Definition modify (f : world -> world) : M unit := fun w => Ok tt (f w).

(** The value of [o]; [None] stands for an access that leaves its object or
    for a null pointer, and is a fault. *)
Definition must {A} (o : option A) : M A :=
  match o with
  | Some a => ret a
  | None => fault
  end.

Definition set_device (d : option (list Z)) (w : world) : world :=
  {| device := d; num_block_groups := num_block_groups w;
     block_size := block_size w; superblock := superblock w;
     group_descriptors := group_descriptors w; console := console w;
     junk := junk w |}.

Definition set_num_block_groups (n : Z) (w : world) : world :=
  {| device := device w; num_block_groups := n;
     block_size := block_size w; superblock := superblock w;
     group_descriptors := group_descriptors w; console := console w;
     junk := junk w |}.

Definition set_block_size (n : Z) (w : world) : world :=
  {| device := device w; num_block_groups := num_block_groups w;
     block_size := n; superblock := superblock w;
     group_descriptors := group_descriptors w; console := console w;
     junk := junk w |}.

Definition set_superblock (sb : option superblock_t) (w : world) : world :=
  {| device := device w; num_block_groups := num_block_groups w;
     block_size := block_size w; superblock := sb;
     group_descriptors := group_descriptors w; console := console w;
     junk := junk w |}.

Definition set_group_descriptors (g : option (list group_descriptor_t))
    (w : world) : world :=
  {| device := device w; num_block_groups := num_block_groups w;
     block_size := block_size w; superblock := superblock w;
     group_descriptors := g; console := console w;
     junk := junk w |}.

Definition set_console (c : list event) (w : world) : world :=
  {| device := device w; num_block_groups := num_block_groups w;
     block_size := block_size w; superblock := superblock w;
     group_descriptors := group_descriptors w; console := c;
     junk := junk w |}.

Definition printf (fmt : string) (args : list Z) : M unit :=
  modify (fun w => set_console (console w ++ [Printf fmt args]) w).

(** [kmalloc(n)]: a fresh object of [n] bytes with indeterminate contents. *)
Definition kmalloc (n : Z) : M (list Z) :=
  gets (fun w => map (junk w) (seq 0 (Z.to_nat n))).

(** [kfree(p)]: what the pointer names afterwards.  The object is gone and
    no byte of it may be accessed any more, so it is left with no bytes:
    every later access through the pointer is outside the object, and a
    fault.  Objects are values, so a call of [kfree] is written out only
    where the object is mentioned again after it, which is the case in
    [ext2_open] alone. *)
Definition kfree (object : list Z) : M (list Z) := ret [].

(** Division and remainder; a zero divisor is a fault. *)
Definition div32 (a b : Z) : M Z :=
  if b =? 0 then fault else ret (a / b).

Definition mod32 (a b : Z) : M Z :=
  if b =? 0 then fault else ret (a mod b).

(** [memcpy(dst + doff, src + soff, n)]. *)
Definition memcpy (dst : list Z) (doff : Z) (src : list Z) (soff n : Z)
  : M (list Z) :=
  chunk <- must (sub src soff n) ;;
  must (blit dst doff chunk).

(** ** The driver *)

(** The objects behind the three pointers among the file-scope variables. *)
Definition the_device : M (list Z) := d <- gets device ;; must d.
Definition the_superblock : M superblock_t := s <- gets superblock ;; must s.
Definition the_group_descriptors : M (list group_descriptor_t) :=
  g <- gets group_descriptors ;; must g.

(** *** Block access *)

(** [ext2_read_block]: [memcpy(buf, device + block*block_size, block_size)];
    returns the contents of [buf] afterwards. *)
Definition ext2_read_block (block : Z) (buf : list Z) : M (list Z) :=
  dev <- the_device ;;
  bs <- gets block_size ;;
  memcpy buf 0 dev (u32 (block * bs)) bs.

(** [ext2_write_block]: [memcpy(device + block*block_size, buf, block_size)]. *)
Definition ext2_write_block (block : Z) (buf : list Z) : M unit :=
  dev <- the_device ;;
  bs <- gets block_size ;;
  dev' <- memcpy dev (u32 (block * bs)) buf 0 bs ;;
  modify (set_device (Some dev')).

(** *** Metadata *)

(** Modelled from the spec: [divide_up] lives in [kernel/sys.h], which is not
    part of the sources; the spec gives
    [num_block_groups = ceil(blocks_count / blocks_per_group)]. *)
Definition divide_up (n d : Z) : M Z :=
  if d =? 0 then fault else ret ((n + d - 1) / d).

Section Mount.

(** The signature constant of [kernel/ext2.h], which is not part of the
    sources. *)
Variable EXT2_MAGIC : Z.

(** [parse_superblock(data)]; [data] is the memory from the pointer on. *)
Definition parse_superblock (data : list Z) : M (option superblock_t) :=
  raw <- kmalloc 1024 ;;
  raw <- memcpy raw 0 data 0 1024 ;;
  let sb := as_superblock raw in
  if negb (sb_magic sb =? EXT2_MAGIC) then
    printf "[EXT2] Invalid signature: %x\n" [sb_magic sb] ;;
    ret None
  else
    n <- divide_up (sb_blocks_count sb) (sb_blocks_per_group sb) ;;
    modify (set_num_block_groups n) ;;
    (if sb_block_size sb <? 32
     then modify (set_block_size (u32 (Z.shiftl 1024 (sb_block_size sb))))
     else fault) ;;
    ret (Some sb).

End Mount.

(** [parse_group_descriptors(data)]: the array has as many elements as fit
    in the [size] bytes that were allocated. *)
Definition parse_group_descriptors (data : list Z)
  : M (list group_descriptor_t) :=
  nbg <- gets num_block_groups ;;
  let size := u32 (nbg * sizeof_group_descriptor_t) in
  bgd <- kmalloc size ;;
  bgd <- memcpy bgd 0 data 0 size ;;
  ret (map (fun i => as_group_descriptor (skipn (32 * i) bgd))
           (seq 0 (Z.to_nat (size / sizeof_group_descriptor_t)))).

(** *** Inodes *)

(** [ext2_get_inode].  The inode object has [inode_size] bytes; one shorter
    than [inode_t] would leave fields of the struct outside the object, and
    the lookup itself is counted as the fault. *)
Definition ext2_get_inode (inode : Z) : M (option inode_t) :=
  if inode =? 0 then ret None
  else
    sb <- the_superblock ;;
    gds <- the_group_descriptors ;;
    bs <- gets block_size ;;
    group <- div32 (u32 (inode - 1)) (sb_inodes_per_group sb) ;;
    gd <- must (nth_error gds (Z.to_nat group)) ;;
    let table_block := gd_inode_table gd in
    block_offset <- div32 (u32 ((inode - 1) * sb_inode_size sb)) bs ;;
    per_block <- div32 bs (sb_inode_size sb) ;;
    let index_in_block := u32 ((inode - 1) - block_offset * per_block) in
    tmp <- kmalloc bs ;;
    tmp <- ext2_read_block (u32 (table_block + block_offset)) tmp ;;
    raw <- kmalloc (sb_inode_size sb) ;;
    raw <- memcpy raw 0 tmp (u32 (index_in_block * sb_inode_size sb))
             (sb_inode_size sb) ;;
    if sb_inode_size sb <? sizeof_inode_t then fault
    else ret (Some (as_inode raw)).

(** *** Block-address translation *)

(** [tmp[i]] for [uint32_t* tmp]. *)
Definition word_at (tmp : list Z) (i : Z) : M Z := must (load 4 tmp (4 * i)).

(** [ext2_read_inode_block]: returns the contents of [buf] afterwards. *)
Definition ext2_read_inode_block (inode : inode_t) (n : Z) (buf : list Z)
  : M (list Z) :=
  bs <- gets block_size ;;
  let p := bs / 4 in
  if n <? 12 then
    b <- must (nth_error (i_dbp inode) (Z.to_nat n)) ;;
    ext2_read_block b buf
  else if n <? u32 (12 + p) then
    tmp <- kmalloc bs ;;
    let relblock := u32 (n - 12) in
    tmp <- ext2_read_block (i_sibp inode) tmp ;;
    b <- word_at tmp relblock ;;
    ext2_read_block b buf
  else if n <? u32 (12 + p + p * p) then
    tmp <- kmalloc bs ;;
    let relblock := u32 (n - 12 - p) in
    offset_a <- div32 relblock p ;;
    offset_b <- mod32 relblock p ;;
    tmp <- ext2_read_block (i_dibp inode) tmp ;;
    a <- word_at tmp offset_a ;;
    tmp <- ext2_read_block a tmp ;;
    b <- word_at tmp offset_b ;;
    ext2_read_block b buf
  else if n <? u32 (12 + p + p * p + p * p * p) then
    tmp <- kmalloc bs ;;
    let relblock := u32 (n - 12 - p - p * p) in
    offset_a <- div32 relblock (u32 (p * p)) ;;
    offset_b <- mod32 relblock (u32 (p * p)) ;;
    offset_c <- mod32 relblock p ;;
    tmp <- ext2_read_block (i_tibp inode) tmp ;;
    a <- word_at tmp offset_a ;;
    tmp <- ext2_read_block a tmp ;;
    b <- word_at tmp offset_b ;;
    tmp <- ext2_read_block b tmp ;;
    c <- word_at tmp offset_c ;;
    tmp <- ext2_read_block c tmp ;;
    ret buf
  else
    printf "[EXT2] Invalid inode block\n" [] ;;
    ret buf.

(** *** Reading *)

(** The [for] loop of [ext2_read]: [count] iterations are left, the next one
    is for [block_no]. *)
Fixpoint ext2_read_blocks (count : nat) (inode : inode_t)
    (start_block start_offset block_no : Z) (buf tmp : list Z)
  : M (list Z * list Z) :=
  match count with
  | O => ret (buf, tmp)
  | S count' =>
      bs <- gets block_size ;;
      '(buf, tmp) <-
        (if block_no =? start_block then
           tmp <- ext2_read_inode_block inode start_block tmp ;;
           buf <- memcpy buf 0 tmp start_offset (u32 (bs - start_offset)) ;;
           ret (buf, tmp)
         else
           tmp <- ext2_read_inode_block inode block_no tmp ;;
           buf <- memcpy buf
                    (start_offset + u32 ((block_no - start_block) * bs)
                     - start_offset)
                    tmp 0 bs ;;
           ret (buf, tmp)) ;;
      ext2_read_blocks count' inode start_block start_offset
        (u32 (block_no + 1)) buf tmp
  end.

(** [ext2_read] once the inode is at hand. *)
Definition ext2_read_inode (inode : inode_t) (offset : Z) (buf : list Z)
    (size : Z) : M (Z * list Z) :=
  let fsize := i_size_lower inode in
  if (size =? 0) || (fsize =? 0) || (fsize <=? offset) then ret (0, buf)
  else
    let end_ :=
      if fsize <? u32 (offset + size) then fsize else u32 (offset + size) in
    bs <- gets block_size ;;
    start_block <- div32 offset bs ;;
    end_block <- div32 end_ bs ;;
    start_offset <- mod32 offset bs ;;
    end_offset <- mod32 end_ bs ;;
    let bytes_read := u32 (end_ - offset) in
    tmp <- kmalloc bs ;;
    if start_block =? end_block then
      tmp <- ext2_read_inode_block inode start_block tmp ;;
      buf <- memcpy buf 0 tmp start_offset bytes_read ;;
      ret (bytes_read, buf)
    else
      '(buf, tmp) <-
        ext2_read_blocks (Z.to_nat (end_block - start_block)) inode
          start_block start_offset start_block buf tmp ;;
      buf <-
        (if negb (end_offset =? 0) then
           tmp <- ext2_read_inode_block inode end_block tmp ;;
           memcpy buf
             (u32 ((end_block - start_block) * bs) - start_offset)
             tmp 0 end_offset
         else ret buf) ;;
      ret (bytes_read, buf).

(** [ext2_read]: the number of bytes read and the contents of [buf]. *)
Definition ext2_read (inode offset : Z) (buf : list Z) (size : Z)
  : M (Z * list Z) :=
  i <- ext2_get_inode inode ;;
  match i with
  | None => ret (0, buf)
  | Some i => ext2_read_inode i offset buf size
  end.

(** *** Path resolution

    A path is the list of its characters; the terminating NUL is the end of
    the list (or the first zero in it). *)

Fixpoint strlen_nat (s : list Z) : nat :=
  match s with
  | [] => O
  | c :: t => if c =? 0 then O else S (strlen_nat t)
  end.

Definition strlen (s : list Z) : Z := Z.of_nat (strlen_nat s).

(** [p[i]]; the cell after the last character holds the NUL. *)
Definition char_at (s : list Z) (i : Z) : Z := nth (Z.to_nat i) s 0.

Definition slash : Z := 47.

(** [strchrnul(p, '/') - p] on the characters from [p] on. *)
Fixpoint strchrnul (s : list Z) : nat :=
  match s with
  | [] => O
  | c :: t => if (c =? 0) || (c =? slash) then O else S (strchrnul t)
  end.

(** [!memcmp(a, b, len)] on two ranges of [len] bytes. *)
Fixpoint bytes_eqb (a b : list Z) : bool :=
  match a, b with
  | [], [] => true
  | x :: a', y :: b' => (u8 x =? u8 y) && bytes_eqb a' b'
  | _, _ => false
  end.

(** The [while] loop of [ext2_open].  [p] is an index into [path], [entry]
    an offset into [block]; one unit of fuel pays for one iteration.  When
    the last component has matched, the block is freed before
    [entry->inode] is read from it. *)
Fixpoint ext2_open_loop (fuel : nat) (path : list Z) (n p : Z)
    (block : list Z) (entry : Z) : M Z :=
  if negb (p <? n) then ret 0
  else
    type <- must (load 1 block (entry + de_type)) ;;
    if type =? 0 then ret 0
    else
      match fuel with
      | O => out_of_fuel
      | S fuel' =>
          let len := Z.of_nat (strchrnul (skipn (Z.to_nat p) path)) in
          component <- must (sub path p len) ;;
          name <- must (sub block (entry + de_name) len) ;;
          if bytes_eqb component name then
            let p := p + len + 1 in
            if n <=? p then
              block <- kfree block ;;
              must (load 4 block (entry + de_inode))
            else
              ino <- must (load 4 block (entry + de_inode)) ;;
              i <- ext2_get_inode ino ;;
              i <- must i ;;
              b <- must (nth_error (i_dbp i) 0) ;;
              block <- ext2_read_block b block ;;
              let entry := 0 in
              entry_size <- must (load 2 block (entry + de_entry_size)) ;;
              ext2_open_loop fuel' path n p block (entry + entry_size)
          else
            entry_size <- must (load 2 block (entry + de_entry_size)) ;;
            ext2_open_loop fuel' path n p block (entry + entry_size)
      end.

Definition ext2_open (fuel : nat) (path : list Z) : M Z :=
  let n := strlen path in
  if negb (char_at path 0 =? slash) then ret 0
  else if (n =? 1) && (char_at path 0 =? slash) then ret 2
  else
    let p := 1 in
    i <- ext2_get_inode EXT2_ROOT_INODE ;;
    i <- must i ;;
    bs <- gets block_size ;;
    block <- kmalloc bs ;;
    b <- must (nth_error (i_dbp i) 0) ;;
    block <- ext2_read_block b block ;;
    ext2_open_loop fuel path n p block 0.

(** *** Block allocation *)

(** The [while] loop of [ext2_allocate_block]. *)
Fixpoint ext2_allocate_block_loop (fuel : nat) (j bitmap : Z)
    (tmp : list Z) : M Z :=
  sb <- the_superblock ;;
  nbg <- gets num_block_groups ;;
  if negb (j <? u32 (sb_blocks_per_group sb * nbg)) then ret 0
  else
    match fuel with
    | O => out_of_fuel
    | S fuel' =>
        bs <- gets block_size ;;
        gds <- the_group_descriptors ;;
        let first := sb_first_available_block sb in
        in_group <- mod32 j (sb_blocks_per_group sb) ;;
        bitmap <-
          (if (in_group =? 0) || (j =? first) then
             g <- div32 j (sb_blocks_per_group sb) ;;
             gd <- must (nth_error gds (Z.to_nat g)) ;;
             ret (gd_block_bitmap gd)
           else ret bitmap) ;;
        in_block <- mod32 j (u32 (8 * bs)) ;;
        '(bitmap, tmp) <-
          (if (in_block =? 0) || (j =? first) then
             (if negb (j =? first) then
                g <- div32 j (sb_blocks_per_group sb) ;;
                printf
                  "[ext2] block bitmap for group %d larger than a block\n"
                  [g]
              else ret tt) ;;
             tmp <- ext2_read_block bitmap tmp ;;
             ret (u32 (bitmap + 1), tmp)
           else ret (bitmap, tmp)) ;;
        byte <- must (load 1 tmp (j / 8)) ;;
        if Z.land byte (Z.shiftl 1 (j mod 8)) =? 0 then
          printf "[ext2] alloc %d, tmp was %b, at bitmap %d\n"
            [j; byte; u32 (bitmap - 1)] ;;
          tmp <- must (store8 tmp (j / 8)
                         (Z.lor byte (Z.shiftl 1 (j mod 8)))) ;;
          ext2_write_block (u32 (bitmap - 1)) tmp ;;
          ret j
        else
          ext2_allocate_block_loop fuel' (u32 (j + 1)) bitmap tmp
    end.

(** [ext2_allocate_block].  The loop counts [j] up to a fixed bound, so the
    fuel handed over is the number of indices left; [bitmap] is set in the
    first iteration before it is read. *)
Definition ext2_allocate_block : M Z :=
  bs <- gets block_size ;;
  tmp <- kmalloc bs ;;
  sb <- the_superblock ;;
  nbg <- gets num_block_groups ;;
  let j := sb_first_available_block sb in
  ext2_allocate_block_loop
    (Z.to_nat (u32 (sb_blocks_per_group sb * nbg) - j)) j 0 tmp.

(** *** Directory iteration *)

(** [ext2_readdir]: [None] is the null pointer, [Some entry] the bytes of
    the entry object. *)
Definition ext2_readdir (inode offset : Z) : M (option (list Z)) :=
  ent <- kmalloc sizeof_directory_entry ;;
  '(read, ent) <- ext2_read inode offset ent sizeof_directory_entry ;;
  if read =? 0 then ret None
  else
    entry_size <- must (load 2 ent de_entry_size) ;;
    entry <- kmalloc entry_size ;;
    '(read, entry) <- ext2_read inode offset entry entry_size ;;
    if read =? 0 then ret None
    else ret (Some entry).

(** *** Mounting *)

Section Init.

Variable EXT2_MAGIC : Z.

Definition init_ext2 (data : list Z) (len : Z) : M unit :=
  if len <? 1024 + sizeof_superblock_t then
    printf "[EXT2] Invalid volume: too small to be true\n" []
  else
    modify (set_device (Some data)) ;;
    sb <- parse_superblock EXT2_MAGIC (skipn 1024 data) ;;
    modify (set_superblock sb) ;;
    match sb with
    | None => printf "[EXT2] aborting\n" []
    | Some _ =>
        gds <- parse_group_descriptors (skipn 2048 data) ;;
        modify (set_group_descriptors (Some gds)) ;;
        bs <- gets block_size ;;
        printf "[EXT2] Initialized volume of size %d KiB, block size %d\n"
          [Z.shiftr len 10; bs] ;;
        gd <- must (nth_error gds 0) ;;
        printf "[ext2] blocks bitmap in block: %d\n" [gd_block_bitmap gd] ;;
        ext2_allocate_block ;;
        ext2_allocate_block ;;
        ext2_allocate_block ;;
        ext2_allocate_block ;;
        ext2_allocate_block ;;
        ext2_allocate_block ;;
        ret tt
    end.

End Init.

(** ** The words of the specification

    Definitions that follow the specification rather than the code; the
    theorems compare the driver with them. *)

(** Block-address translation: starting at pointer block [block], follow one
    pointer per index; the result is the physical block reached. *)
Fixpoint hops (indices : list Z) (block : Z) : M Z :=
  match indices with
  | [] => ret block
  | i :: rest =>
      bs <- gets block_size ;;
      tmp <- kmalloc bs ;;
      tmp <- ext2_read_block block tmp ;;
      b <- word_at tmp i ;;
      hops rest b
  end.

(** Translate through [indices] from [root], then read the block reached
    into the caller's buffer. *)
Definition read_via (root : Z) (indices : list Z) (buf : list Z)
  : M (list Z) :=
  b <- hops indices root ;;
  ext2_read_block b buf.

(** The triple-indirect decomposition of the specification. *)
Definition triple_indices (p n : Z) : list Z :=
  let rel := n - 12 - p - p * p in
  [rel / (p * p); (rel mod (p * p)) / p; rel mod p].

Definition read_triple_spec (inode : inode_t) (n : Z) (buf : list Z)
  : M (list Z) :=
  bs <- gets block_size ;;
  read_via (i_tibp inode) (triple_indices (bs / 4) n) buf.

(** What a read of [count] bytes at [start_offset] of the first block must
    deliver: the blocks concatenated, trimmed at both ends. *)
Definition trimmed (blocks : list (list Z)) (start_offset count : Z)
  : list Z :=
  firstn (Z.to_nat count) (skipn (Z.to_nat start_offset) (concat blocks)).

(** The name of the directory entry at offset [entry]: the [name_len] bytes
    at the start of its name field. *)
Definition entry_name (block : list Z) (entry : Z) : option (list Z) :=
  match load 1 block (entry + de_name_len_low) with
  | Some name_len => sub block (entry + de_name) name_len
  | None => None
  end.

(** The entries of a directory block from offset [entry] on are [k] or fewer
    entries whose names differ from [component], then an entry of type 0:
    the directory has no entry of that name. *)
Fixpoint unmatched_to_end (k : nat) (block component : list Z) (entry : Z)
  : bool :=
  match load 1 block (entry + de_type) with
  | None => false
  | Some type =>
      if type =? 0 then true
      else
        match k with
        | O => false
        | S k' =>
            match entry_name block entry,
                  load 2 block (entry + de_entry_size) with
            | Some name, Some entry_size =>
                negb (bytes_eqb component name)
                && unmatched_to_end k' block component (entry + entry_size)
            | _, _ => false
            end
        end
  end.

(** The component of [path] that starts at index [p]. *)
Definition component_at (path : list Z) (p : Z) : list Z :=
  let rest := skipn (Z.to_nat p) path in
  firstn (strchrnul rest) rest.

(** ** The vocabulary of the theorems *)

(** The console after one more [printf]. *)
Definition printed (fmt : string) (args : list Z) (w : world) : world :=
  set_console (console w ++ [Printf fmt args]) w.

(** What is left of an outcome without its world. *)
Definition result {A} (o : outcome A) : option A :=
  match o with
  | Ok a _ => Some a
  | _ => None
  end.

(** The contents of block [b] of the device, if the block lies inside it. *)
Definition block_of (w : world) (b : Z) : option (list Z) :=
  match device w with
  | Some dev => sub dev (u32 (b * block_size w)) (block_size w)
  | None => None
  end.

(** Bit [j mod 8] of byte [j / 8] of block [block] of the device is set. *)
Definition marked_on_device (w : world) (block j : Z) : Prop :=
  exists dev byte,
    device w = Some dev /\
    load 1 dev (u32 (block * block_size w) + j / 8) = Some byte /\
    Z.testbit byte (j mod 8) = true.

(** An inode that differs in the upper half of its size only. *)
Definition with_size_upper (v : Z) (i : inode_t) : inode_t := {|
  i_type_perms := i_type_perms i;
  i_uid := i_uid i;
  i_size_lower := i_size_lower i;
  i_last_access := i_last_access i;
  i_creation_time := i_creation_time i;
  i_last_modified := i_last_modified i;
  i_deletion_time := i_deletion_time i;
  i_gid := i_gid i;
  i_hardlinks_count := i_hardlinks_count i;
  i_sectors_used := i_sectors_used i;
  i_flags := i_flags i;
  i_os_specific1 := i_os_specific1 i;
  i_dbp := i_dbp i;
  i_sibp := i_sibp i;
  i_dibp := i_dibp i;
  i_tibp := i_tibp i;
  i_generation_number := i_generation_number i;
  i_extended_attributes := i_extended_attributes i;
  i_size_upper := v;
  i_fragment_block := i_fragment_block i;
  i_os_specific2 := i_os_specific2 i
|}.

(** The volume has one block group whose bitmap fits in one block: the
    block number of that bitmap. *)
Definition single_bitmap (w : world) : option Z :=
  match superblock w, group_descriptors w with
  | Some sb, Some (gd :: _) =>
      if (num_block_groups w =? 1)
         && (0 <? sb_blocks_per_group sb)
         && (sb_blocks_per_group sb <=? 8 * block_size w)
         && (8 * block_size w <? 2 ^ 32)
         && (0 <=? sb_first_available_block sb)
         && (0 <=? gd_block_bitmap gd) && (gd_block_bitmap gd <? 2 ^ 32)
      then Some (gd_block_bitmap gd)
      else None
  | _, _ => None
  end.

(** Every block from the first available one to the end of the group is
    marked in block [B] of the device. *)
Definition bitmap_full (w : world) (B : Z) : Prop :=
  forall sb,
    superblock w = Some sb ->
    forall j, sb_first_available_block sb <= j < sb_blocks_per_group sb ->
              marked_on_device w B j.

(** The results of the allocator that are block numbers. *)
Definition nonzero (j : Z) : bool := negb (j =? 0).

(** What one call of the allocator that returned [j] has done: nothing to
    the device, with [j = 0] for exhaustion, or the bit of [j] is set in a
    bitmap block of the device. *)
Definition allocation (w : world) (j : Z) (w' : world) : Prop :=
  ext2_allocate_block w = Ok j w' /\
  ((j = 0 /\ device w' = device w) \/ exists B, marked_on_device w' B j).

(** Calls of the allocator one after the other, with their results. *)
Inductive allocations : world -> list Z -> world -> Prop :=
| allocations_nil w : allocations w [] w
| allocations_cons w j w1 js w2 :
    allocation w j w1 -> allocations w1 js w2 ->
    allocations w (j :: js) w2.

(** Entry [idx] of the pointer block [block] of the device. *)
Definition pointer (w : world) (block idx : Z) : option Z :=
  match block_of w block with
  | Some c => load 4 c (4 * idx)
  | None => None
  end.

(** The contents of [count] file blocks from logical block [k] on. *)
Definition blocks_from (content : Z -> list Z) (k : Z) (count : nat)
  : list (list Z) :=
  map (fun j => content (k + Z.of_nat j)) (seq 0 count).

(** Bytes [offset] to [offset + n] of the file whose logical blocks are
    [content], for blocks of [bs] bytes. *)
Definition file_bytes (content : Z -> list Z) (bs offset n : Z) : list Z :=
  trimmed
    (blocks_from content (offset / bs)
       (Z.to_nat ((offset + n) / bs - offset / bs + 1)))
    (offset mod bs) n.

(** Logical block [k] of [inode] can be read, and holds [content k]. *)
Definition holds_block (inode : inode_t) (w : world) (content : Z -> list Z)
    (k : Z) : Prop :=
  length (content k) = Z.to_nat (block_size w) /\
  forall tmp,
    length tmp = Z.to_nat (block_size w) ->
    ext2_read_inode_block inode k tmp w = Ok (content k) w.

(** The logical blocks of [inode] that its direct pointers lead to. *)
Definition direct_content (w : world) (inode : inode_t) (k : Z) : list Z :=
  match nth_error (i_dbp inode) (Z.to_nat k) with
  | Some b =>
      match block_of w b with
      | Some c => c
      | None => []
      end
  | None => []
  end.

(** The scan of a directory block passes [k] entries from offset [entry]
    on, none of them of type 0 and none with a name that begins with
    [component]: the offset it reaches. *)
Fixpoint skips (k : nat) (block component : list Z) (entry : Z)
  : option Z :=
  match k with
  | O => Some entry
  | S k' =>
      match load 1 block (entry + de_type),
            sub block (entry + de_name) (Z.of_nat (length component)),
            load 2 block (entry + de_entry_size) with
      | Some type, Some name, Some entry_size =>
          if negb (type =? 0) && negb (bytes_eqb component name)
          then skips k' block component (entry + entry_size)
          else None
      | _, _, _ => None
      end
  end.

(** The entry at offset [entry] is not of type 0 and the bytes of its name
    field begin with [component]. *)
Definition matches (block component : list Z) (entry : Z) : bool :=
  match load 1 block (entry + de_type),
        sub block (entry + de_name) (Z.of_nat (length component)) with
  | Some type, Some name => negb (type =? 0) && bytes_eqb component name
  | _, _ => false
  end.

(** The entry at offset [entry] is not of type 0, its name does not begin
    with [component], and its record length is 0. *)
Definition stuck (block component : list Z) (entry : Z) : bool :=
  match load 1 block (entry + de_type),
        sub block (entry + de_name) (Z.of_nat (length component)),
        load 2 block (entry + de_entry_size) with
  | Some type, Some name, Some entry_size =>
      negb (type =? 0) && negb (bytes_eqb component name)
      && (entry_size =? 0)
  | _, _, _ => false
  end.

(** ** Specifications of computations *)

(** [c] returns or faults, whatever the world: it never lacks fuel. *)
Definition runs {A} (c : M A) : Prop := forall w, c w <> OutOfFuel.

(** Every result of [c] from [w] satisfies [Q]. *)
Definition ensures {A} (c : M A) (w : world) (Q : A -> world -> Prop)
  : Prop :=
  forall a w', c w = Ok a w' -> Q a w'.

(** [c] leaves the world as it found it. *)
Definition pure {A} (c : M A) : Prop :=
  forall w a w', c w = Ok a w' -> w' = w.

(** The variables that describe the mounted volume are the same in both
    worlds. *)
Definition same_volume (w w' : world) : Prop :=
  superblock w' = superblock w /\
  group_descriptors w' = group_descriptors w /\
  num_block_groups w' = num_block_groups w /\
  block_size w' = block_size w.

(** [c] leaves these variables alone. *)
Definition keeps_volume {A} (c : M A) : Prop :=
  forall w a w', c w = Ok a w' -> same_volume w w'.

(** The message of [ext2_read_inode_block] for an index out of range. *)
Definition invalid_block : event := Printf "[EXT2] Invalid inode block\n" [].

(** [c] changes nothing but the console, and prints nothing but that
    message. *)
Definition only_reports {A} (c : M A) : Prop :=
  forall w a w',
    c w = Ok a w' ->
    exists k, w' = set_console (console w ++ repeat invalid_block k) w.

(** ** Volumes to run the driver on *)

Module Image.

Fixpoint le_bytes (n : nat) (v : Z) : list Z :=
  match n with
  | O => []
  | S n' => v mod 256 :: le_bytes n' (v / 256)
  end.

Definition patch (img : list Z) (at_ : nat * list Z) : list Z :=
  let (off, bytes) := at_ in
  firstn off img ++ bytes ++ skipn (off + length bytes) img.

Definition bytes_at (off : nat) (bytes : list Z) : nat * list Z :=
  (off, bytes).
Definition u32_at (off : nat) (v : Z) : nat * list Z := (off, le_bytes 4 v).
Definition u16_at (off : nat) (v : Z) : nat * list Z := (off, le_bytes 2 v).

Definition build (size : nat) (patches : list (nat * list Z)) : list Z :=
  fold_left patch patches (repeat 0 size).

(** A superblock at byte 1024 and one or two group descriptors at 2048. *)
Definition superblock_at (blocks log_block_size per_group inodes first
    : Z) : list (nat * list Z) :=
  [ u32_at 1024 inodes; u32_at 1028 blocks; u32_at 1048 log_block_size;
    u32_at 1056 per_group; u32_at 1064 inodes; u16_at 1080 61267;
    u32_at 1108 first; u16_at 1112 128 ].

Definition descriptor_at (g : nat) (block_bitmap inode_bitmap inode_table
    : Z) : list (nat * list Z) :=
  [ u32_at (2048 + 32 * g) block_bitmap;
    u32_at (2048 + 32 * g + 4) inode_bitmap;
    u32_at (2048 + 32 * g + 8) inode_table ].

(** Inode [ino] in a table that starts at byte [table]. *)
Definition inode_at (table : nat) (ino : nat) (type_perms size : Z)
    (direct : list Z) (tibp : Z) : list (nat * list Z) :=
  let base := (table + 128 * (ino - 1))%nat in
  [ u16_at base type_perms; u32_at (base + 4) size;
    bytes_at (base + 40) (concat (map (le_bytes 4) direct));
    u32_at (base + 96) tibp ].

(** A directory entry: inode, record length, name length, type, name. *)
Definition dirent (ino rec_len type : Z) (name : list Z) : list Z :=
  le_bytes 4 ino ++ le_bytes 2 rec_len
  ++ [Z.of_nat (length name); type] ++ name.

Definition dot : list Z := [46].
Definition dotdot : list Z := [46; 46].

Definition pattern (m : Z) (n : nat) : list Z :=
  map (fun i => Z.of_nat i mod m) (seq 0 n).

End Image.
Import Image.

Definition magic_ef53 : Z := 61267.

(** The world at boot: the file-scope variables are zero. *)
Definition boot : world := {|
  device := None;
  num_block_groups := 0;
  block_size := 0;
  superblock := None;
  group_descriptors := None;
  console := [];
  junk := fun _ => 170
|}.

Definition mount (data : list Z) : world :=
  match init_ext2 magic_ef53 data (Z.of_nat (length data)) boot with
  | Ok _ w => w
  | _ => boot
  end.

(** A volume of 11 blocks of 1 KiB in one group.  Block 3 is the block
    bitmap (blocks 11 to 16 are free), block 5 the inode table.  Inode 2 is
    the root directory (block 6) with the entries [.], [..], [hello]
    (inode 3) and [etc] (inode 6, block 7, with the entry [passwd]);
    inode 3 is a file of three blocks (8, 9, 10). *)
Definition hello : list Z := [104; 101; 108; 108; 111].
Definition etc : list Z := [101; 116; 99].
Definition passwd : list Z := [112; 97; 115; 115; 119; 100].
Definition nope : list Z := [110; 111; 112; 101].

Definition volume_image : list Z := Eval vm_compute in
  build (11 * 1024)
    (superblock_at 17 0 8192 8 11
     ++ descriptor_at 0 3 4 5
     ++ [ bytes_at (3 * 1024) ([255; 7; 254] ++ repeat 255 1021) ]
     ++ inode_at (5 * 1024) 2 16877 1024 [6] 0
     ++ inode_at (5 * 1024) 3 33188 3072 [8; 9; 10] 0
     ++ inode_at (5 * 1024) 6 16877 1024 [7] 0
     ++ inode_at (5 * 1024) 7 33188 0 [] 0
     ++ [ bytes_at (6 * 1024) (dirent 2 12 2 dot);
          bytes_at (6 * 1024 + 12) (dirent 2 12 2 dotdot);
          bytes_at (6 * 1024 + 24) (dirent 3 16 1 hello);
          bytes_at (6 * 1024 + 40) (dirent 6 12 2 etc);
          u16_at (6 * 1024 + 1021) 12;
          bytes_at (7 * 1024) (dirent 6 12 2 dot);
          bytes_at (7 * 1024 + 12) (dirent 2 12 2 dotdot);
          bytes_at (7 * 1024 + 24) (dirent 7 16 1 passwd);
          bytes_at (8 * 1024) (pattern 251 1024);
          bytes_at (9 * 1024) (pattern 241 1024);
          bytes_at (10 * 1024) (pattern 239 1024) ]).

Definition volume : world := Eval vm_compute in mount volume_image.

(** The mounted [volume] taken apart. *)
Definition volume_superblock : superblock_t := Eval vm_compute in
  match superblock volume with
  | Some sb => sb
  | None => as_superblock []
  end.

Definition volume_descriptor : group_descriptor_t := Eval vm_compute in
  match group_descriptors volume with
  | Some (gd :: _) => gd
  | _ => as_group_descriptor []
  end.

Definition volume_device : list Z := Eval vm_compute in
  match device volume with
  | Some dev => dev
  | None => []
  end.

(** [volume] after block 9 has been overwritten with bytes of 7. *)
Definition volume_written : world := Eval vm_compute in
  match ext2_write_block 9 (repeat 7 1024) volume with
  | Ok _ w => w
  | _ => volume
  end.

(** A volume of 11 blocks of 1 KiB whose bitmap (block 3) is full.  Inode 2
    of the table in block 4 is a file of 4 GiB - 1 bytes with a
    triple-indirect chain: block 5, entry 0 of it (block 6), entries 0 and 1
    of that (blocks 7 and 8), entry 1 of these (blocks 9 and 10). *)
Definition chain_image : list Z := Eval vm_compute in
  build (11 * 1024)
    (superblock_at 11 0 8192 8 11
     ++ descriptor_at 0 3 3 4
     ++ [ bytes_at (3 * 1024) (repeat 255 1024) ]
     ++ inode_at (4 * 1024) 2 33188 4294967295 [] 5
     ++ [ u32_at (5 * 1024) 6;
          u32_at (6 * 1024) 7; u32_at (6 * 1024 + 4) 8;
          u32_at (7 * 1024 + 4) 9;
          u32_at (8 * 1024 + 4) 10;
          bytes_at (9 * 1024) (repeat 9 1024);
          bytes_at (10 * 1024) (repeat 10 1024) ]).

Definition chain_volume : world := Eval vm_compute in mount chain_image.

(** A volume of two groups of 256 blocks.  The block bitmap of group 0 is
    block 3 and marks all 256 blocks of the group as used; the bits after
    them in the bitmap block are clear.  The bitmap of group 1 is block 5. *)
Definition small_groups_image : list Z := Eval vm_compute in
  build (6 * 1024)
    (superblock_at 512 0 256 8 11
     ++ descriptor_at 0 3 3 4
     ++ descriptor_at 1 5 5 4
     ++ [ bytes_at (3 * 1024) (repeat 255 32) ]).

Definition small_groups : world := Eval vm_compute in mount small_groups_image.

(** A volume of two groups of 8192 blocks of 1 KiB, so that the bitmap of a
    group fills its block.  The bitmap of group 0 (block 3) has blocks 11 to
    16 free, which the mount takes; the bitmap of group 1 (block 5) is
    empty. *)
Definition full_groups_image : list Z := Eval vm_compute in
  build (6 * 1024)
    (superblock_at 16384 0 8192 8 11
     ++ descriptor_at 0 3 3 4
     ++ descriptor_at 1 5 5 4
     ++ [ bytes_at (3 * 1024) ([255; 7; 254] ++ repeat 255 1021) ]).

Definition full_groups : world := Eval vm_compute in mount full_groups_image.

(** A volume with blocks of 8 KiB; its bitmap (block 1) is full. *)
Definition big_blocks_image : list Z := Eval vm_compute in
  build (2 * (8 * 1024))
    (superblock_at 2 3 64 8 11
     ++ descriptor_at 0 1 1 1
     ++ [ bytes_at (8 * 1024) (repeat 255 (8 * 1024)) ]).

Definition big_blocks : world := Eval vm_compute in mount big_blocks_image.

(** A buffer whose signature field does not hold the magic number. *)
Definition blank_image : list Z := repeat 0 4096.

(** The inodes of the two volumes as their tables hold them. *)
Definition three_blocks : inode_t := Eval vm_compute in
  as_inode (firstn 128 (skipn (5 * 1024 + 128 * 2) volume_image)).

Definition huge_file : inode_t := Eval vm_compute in
  as_inode (firstn 128 (skipn (4 * 1024 + 128) chain_image)).

(** The directories of [volume]: the inodes of [/] and [/etc] and their
    blocks. *)
Definition root_dir : inode_t := Eval vm_compute in
  as_inode (firstn 128 (skipn (5 * 1024 + 128) volume_image)).

Definition etc_dir : inode_t := Eval vm_compute in
  as_inode (firstn 128 (skipn (5 * 1024 + 128 * 5) volume_image)).

Definition volume_root_block : list Z := Eval vm_compute in
  firstn 1024 (skipn (6 * 1024) volume_image).

Definition volume_etc_block : list Z := Eval vm_compute in
  firstn 1024 (skipn (7 * 1024) volume_image).

(** [volume] with the bitmap as the image has it, and the same after one
    call of the allocator. *)
Definition unallocated : world := Eval vm_compute in
  set_device (Some volume_image) volume.

Definition first_allocation : world := Eval vm_compute in
  match ext2_allocate_block unallocated with
  | Ok _ w => w
  | _ => unallocated
  end.

(** A directory block whose first entry has the name [a] and a record
    length of 0. *)
Definition zero_length_entry : list Z := Eval vm_compute in
  dirent 5 0 1 [97] ++ repeat 0 1015.

(** A volume of 11 blocks of 1 KiB with a full bitmap.  Inode 2 has block 8
    as its first block, block 5 as its single-indirect block and block 6 as
    its double-indirect block; entry 0 of block 5 is block 9, entry 0 of
    block 6 is block 5. *)
Definition indirect_image : list Z := Eval vm_compute in
  build (11 * 1024)
    (superblock_at 11 0 8192 8 11
     ++ descriptor_at 0 3 3 4
     ++ [ bytes_at (3 * 1024) (repeat 255 1024) ]
     ++ inode_at (4 * 1024) 2 33188 307200 [8] 0
     ++ [ u32_at (4 * 1024 + 128 + 88) 5;
          u32_at (4 * 1024 + 128 + 92) 6;
          u32_at (5 * 1024) 9;
          u32_at (6 * 1024) 5;
          bytes_at (8 * 1024) (repeat 8 1024);
          bytes_at (9 * 1024) (repeat 9 1024) ]).

Definition indirect_volume : world := Eval vm_compute in mount indirect_image.

Definition indirect_file : inode_t := Eval vm_compute in
  as_inode (firstn 128 (skipn (4 * 1024 + 128) indirect_image)).

(** [volume_image] with 1 in the upper half of the size of inode 3: by its
    inode the file has [2^32 + 3072] bytes. *)
Definition upper_image : list Z := Eval vm_compute in
  patch volume_image (u32_at (5 * 1024 + 128 * 2 + 108) 1).

Definition upper_volume : world := Eval vm_compute in mount upper_image.

Definition upper_file : inode_t := Eval vm_compute in
  as_inode (firstn 128 (skipn (5 * 1024 + 128 * 2) upper_image)).

(** A superblock whose block-size exponent is 22, and the world after
    [parse_superblock] has read it. *)
Definition wide_image : list Z := Eval vm_compute in
  build 2048 (superblock_at 11 22 8192 8 11).

Definition wide_superblock : superblock_t := Eval vm_compute in
  as_superblock (firstn 1024 (skipn 1024 wide_image)).

Definition wide_parsed : world := Eval vm_compute in
  match parse_superblock magic_ef53 (skipn 1024 wide_image) boot with
  | Ok _ w => w
  | _ => boot
  end.

(** * Theorems *)

(** Split a conjunction and nothing else. *)
Ltac conjuncts := repeat match goal with |- _ /\ _ => split end.

(** Settle a closed side condition by evaluation. *)
Ltac by_computation :=
  lazymatch goal with
  | |- forall _, _ => fail "not a closed condition"
  | |- _ \/ _ => fail "not a closed condition"
  | |- _ =>
      first
        [ solve [ vm_compute;
                  repeat match goal with |- _ /\ _ => split end;
                  first [reflexivity | discriminate | intro; discriminate] ]
        | lia ]
  end.

(** ** The monad *)

Section Laws.

Context {A B : Type}.
Variables (c : M A) (k : A -> M B).

Lemma bind_ok w a w' : c w = Ok a w' -> bind c k w = k a w'.
Proof. unfold bind. intros ->. reflexivity. Qed.

Lemma bind_inv w b w'' :
  bind c k w = Ok b w'' ->
  exists a w', c w = Ok a w' /\ k a w' = Ok b w''.
Proof.
  unfold bind. destruct (c w) as [a w'| |]; try discriminate.
  intros H. exists a, w'. auto.
Qed.

Lemma ensures_bind w (Q : B -> world -> Prop) :
  ensures c w (fun a w' => ensures (k a) w' Q) ->
  ensures (bind c k) w Q.
Proof.
  intros H b w'' E. apply bind_inv in E as (a & w' & E1 & E2).
  exact (H a w' E1 b w'' E2).
Qed.

Lemma runs_bind : runs c -> (forall a, runs (k a)) -> runs (bind c k).
Proof.
  intros Hc Hk w0. unfold bind. specialize (Hc w0).
  destruct (c w0) as [a w'| |]; [apply Hk | discriminate | congruence].
Qed.

Lemma pure_bind : pure c -> (forall a, pure (k a)) -> pure (bind c k).
Proof.
  intros Hc Hk w0 b w'' E. apply bind_inv in E as (a & w' & E1 & E2).
  apply Hc in E1. subst w'. exact (Hk a _ _ _ E2).
Qed.

End Laws.

Lemma bind_ext {A B} (c : M A) (k1 k2 : A -> M B) w :
  (forall a w', k1 a w' = k2 a w') -> bind c k1 w = bind c k2 w.
Proof. intros H. unfold bind. destruct (c w); auto. Qed.

Lemma bind_inv_pure {A B} (c : M A) (k : A -> M B) w b w'' :
  pure c -> bind c k w = Ok b w'' ->
  exists a, c w = Ok a w /\ k a w = Ok b w''.
Proof.
  intros Hp H. apply bind_inv in H as (a & w' & H1 & H2).
  pose proof (Hp _ _ _ H1). subst w'. eauto.
Qed.

Lemma must_inv {A} (o : option A) w a w' :
  must o w = Ok a w' -> o = Some a /\ w' = w.
Proof. destruct o; cbn; intros H; inversion H; auto. Qed.

Lemma ret_inv {A} (x : A) w a w' : ret x w = Ok a w' -> a = x /\ w' = w.
Proof. intros H. inversion H. auto. Qed.

Lemma modify_inv f w u w' : modify f w = Ok u w' -> w' = f w.
Proof. intros H. inversion H. reflexivity. Qed.

Lemma printf_inv fmt args w u w' :
  printf fmt args w = Ok u w' -> w' = printed fmt args w.
Proof. intros H. inversion H. reflexivity. Qed.

Lemma outcome_of_runs {A} (c : M A) (w : world) (Q : A -> Prop) :
  runs c ->
  ensures c w (fun a _ => Q a) ->
  match c w with
  | Ok a _ => Q a
  | Fault => True
  | OutOfFuel => False
  end.
Proof.
  intros Hr He. specialize (Hr w). unfold ensures in He.
  destruct (c w); [eapply He; reflexivity | exact I | congruence].
Qed.

Lemma runs_ret {A} (a : A) : runs (ret a).
Proof. intros w. discriminate. Qed.

Lemma runs_fault {A} : runs (@fault A).
Proof. intros w. discriminate. Qed.

Lemma runs_gets {A} (f : world -> A) : runs (gets f).
Proof. intros w. discriminate. Qed.

Lemma runs_modify f : runs (modify f).
Proof. intros w. discriminate. Qed.

Lemma runs_must {A} (o : option A) : runs (must o).
Proof. destruct o; [apply runs_ret | apply runs_fault]. Qed.

Lemma pure_ret {A} (a : A) : pure (ret a).
Proof. intros w b w' E. inversion E. reflexivity. Qed.

Lemma pure_fault {A} : pure (@fault A).
Proof. intros w b w' E. discriminate E. Qed.

Lemma pure_gets {A} (f : world -> A) : pure (gets f).
Proof. intros w b w' E. inversion E. reflexivity. Qed.

Lemma pure_must {A} (o : option A) : pure (must o).
Proof. destruct o; [apply pure_ret | apply pure_fault]. Qed.

(** Decompose a goal [runs c] or [pure c] along the structure of [c]. *)
Ltac structural :=
  repeat match goal with
    | |- runs (ret _) => apply runs_ret
    | |- runs fault => apply runs_fault
    | |- runs (gets _) => apply runs_gets
    | |- runs (modify _) => apply runs_modify
    | |- runs (must _) => apply runs_must
    | |- runs (bind _ _) => apply runs_bind; [| intros ?]
    | |- runs (match ?x with _ => _ end) => destruct x
    | |- pure (ret _) => apply pure_ret
    | |- pure fault => apply pure_fault
    | |- pure (gets _) => apply pure_gets
    | |- pure (must _) => apply pure_must
    | |- pure (bind _ _) => apply pure_bind; [| intros ?]
    | |- pure (match ?x with _ => _ end) => destruct x
    | |- _ => progress cbv zeta
    end.

Lemma runs_printf fmt args : runs (printf fmt args).
Proof. unfold printf. structural. Qed.

Lemma runs_kmalloc n : runs (kmalloc n).
Proof. unfold kmalloc. structural. Qed.

Lemma runs_div32 a b : runs (div32 a b).
Proof. unfold div32. structural. Qed.

Lemma runs_mod32 a b : runs (mod32 a b).
Proof. unfold mod32. structural. Qed.

Lemma runs_memcpy dst doff src soff n : runs (memcpy dst doff src soff n).
Proof. unfold memcpy. structural. Qed.

Lemma runs_read_block b buf : runs (ext2_read_block b buf).
Proof. unfold ext2_read_block, the_device. structural. apply runs_memcpy. Qed.

Lemma runs_word_at tmp i : runs (word_at tmp i).
Proof. unfold word_at. structural. Qed.

Lemma runs_kfree object : runs (kfree object).
Proof. unfold kfree. structural. Qed.

Lemma pure_kfree object : pure (kfree object).
Proof. unfold kfree. structural. Qed.

Lemma pure_kmalloc n : pure (kmalloc n).
Proof. unfold kmalloc. structural. Qed.

Lemma pure_div32 a b : pure (div32 a b).
Proof. unfold div32. structural. Qed.

Lemma pure_mod32 a b : pure (mod32 a b).
Proof. unfold mod32. structural. Qed.

Lemma pure_memcpy dst doff src soff n : pure (memcpy dst doff src soff n).
Proof. unfold memcpy. structural. Qed.

Lemma pure_read_block b buf : pure (ext2_read_block b buf).
Proof. unfold ext2_read_block, the_device. structural. apply pure_memcpy. Qed.

Lemma pure_word_at tmp i : pure (word_at tmp i).
Proof. unfold word_at. structural. Qed.

Create HintDb ext2 discriminated.
#[local] Hint Resolve runs_printf runs_kmalloc runs_div32 runs_mod32
  runs_memcpy runs_read_block runs_word_at pure_kmalloc pure_div32
  pure_mod32 pure_memcpy pure_read_block pure_word_at runs_kfree
  pure_kfree : ext2.

Ltac structured := structural; auto with ext2.

Lemma pure_divide_up n d : pure (divide_up n d).
Proof. unfold divide_up. structural. Qed.

#[local] Hint Resolve pure_divide_up : ext2.

Lemma pure_the_superblock : pure the_superblock.
Proof. unfold the_superblock. structural. Qed.

Lemma pure_the_group_descriptors : pure the_group_descriptors.
Proof. unfold the_group_descriptors. structural. Qed.

#[local] Hint Resolve pure_the_superblock pure_the_group_descriptors : ext2.

Lemma pure_parse_group_descriptors data :
  pure (parse_group_descriptors data).
Proof. unfold parse_group_descriptors. structured. Qed.

#[local] Hint Resolve pure_parse_group_descriptors : ext2.

Lemma runs_get_inode inode : runs (ext2_get_inode inode).
Proof.
  unfold ext2_get_inode, the_superblock, the_group_descriptors. structured.
Qed.

Lemma pure_get_inode inode : pure (ext2_get_inode inode).
Proof.
  unfold ext2_get_inode, the_superblock, the_group_descriptors. structured.
Qed.

Lemma runs_read_inode_block i n buf : runs (ext2_read_inode_block i n buf).
Proof. unfold ext2_read_inode_block. structured. Qed.

#[local] Hint Resolve runs_get_inode pure_get_inode runs_read_inode_block
  : ext2.

Lemma runs_read_blocks count i sb so bn buf tmp :
  runs (ext2_read_blocks count i sb so bn buf tmp).
Proof.
  revert bn buf tmp. induction count as [|count IH]; intros; simpl.
  - apply runs_ret.
  - structured; apply IH.
Qed.

#[local] Hint Resolve runs_read_blocks : ext2.

Lemma runs_read_inode i offset buf size :
  runs (ext2_read_inode i offset buf size).
Proof. unfold ext2_read_inode. structured. Qed.

#[local] Hint Resolve runs_read_inode : ext2.

Lemma runs_read inode offset buf size : runs (ext2_read inode offset buf size).
Proof. unfold ext2_read. structured. Qed.

(** Walk down an equation [c w = Ok a w'] to the last step of [c]. *)
Ltac to_last_step H :=
  repeat match type of H with
    | bind _ _ _ = Ok _ _ =>
        apply bind_inv in H; destruct H as (? & ? & _ & H); cbv beta in H
    | (match ?x with _ => _ end) _ = Ok _ _ => destruct x
    | _ => progress cbv zeta in H
    end.

(** One pure step of an equation [bind c k w = Ok r w']. *)
Ltac pure_step H :=
  apply bind_inv_pure in H;
  [ let a := fresh "a" in
    let E := fresh "E" in
    destruct H as (a & E & H); cbv beta in H
  | solve [structured] ].

(** ** Machine integers and bits *)

Lemma u32_small x : 0 <= x < 2 ^ 32 -> u32 x = x.
Proof. apply Z.mod_small. Qed.

Lemma u32_pred_succ b : 0 <= b < 2 ^ 32 -> u32 (u32 (b + 1) - 1) = b.
Proof.
  intros H. unfold u32. rewrite Zminus_mod_idemp_l.
  replace (b + 1 - 1) with b by lia. apply Z.mod_small. exact H.
Qed.

Lemma testbit_u8 x k : 0 <= k < 8 -> Z.testbit (u8 x) k = Z.testbit x k.
Proof. intros H. unfold u8. apply Z.mod_pow2_bits_low. lia. Qed.

Lemma land_bit x k :
  0 <= k -> Z.land x (Z.shiftl 1 k) = 0 -> Z.testbit x k = false.
Proof.
  intros Hk H. apply (f_equal (fun z => Z.testbit z k)) in H.
  rewrite Z.land_spec, Z.shiftl_spec, Z.sub_diag, Z.bits_0 in H by lia.
  simpl in H. rewrite andb_true_r in H. exact H.
Qed.

Lemma land_not_bit x k :
  0 <= k -> Z.testbit x k = false -> Z.land x (Z.shiftl 1 k) = 0.
Proof.
  intros Hk H. apply Z.bits_inj'. intros n Hn.
  rewrite Z.land_spec, Z.bits_0, Z.shiftl_spec by exact Hn.
  destruct (Z.eq_dec n k) as [->|Hne]; [rewrite H; reflexivity|].
  replace (Z.testbit 1 (n - k)) with false; [apply andb_false_r|].
  symmetry. destruct (Z.lt_ge_cases n k) as [Hlt|Hge].
  - apply Z.testbit_neg_r. lia.
  - apply (Z.pow2_bits_false 0). lia.
Qed.

Lemma bit_set_after_or byte k :
  0 <= k < 8 -> Z.testbit (u8 (u8 (Z.lor byte (Z.shiftl 1 k)))) k = true.
Proof.
  intros Hk. unfold u8.
  rewrite !Z.mod_pow2_bits_low by lia.
  rewrite Z.lor_spec, Z.shiftl_spec, Z.sub_diag by lia.
  apply orb_true_r.
Qed.

(** *** Type and permission bits *)



(** X2.  [U16_BIGENDIAN] does not swap the bytes of a 16-bit value: [0xFF >> 8]
    is 0, so the macro is a shift to the left by 8 bits, and what is left of
    it in 16 bits is the low byte of [n] in the high byte, the low byte
    zero. *)
Theorem u16_bigendian_shifts n :
  0 <= n < 2 ^ 16 ->
  U16_BIGENDIAN n = 256 * n /\
  u16 (U16_BIGENDIAN n) = 256 * (n mod 256).
Proof.
  intros Hn. unfold U16_BIGENDIAN.
  change (Z.shiftr 255 8) with 0.
  rewrite Z.land_0_r, Z.lor_0_l, Z.shiftl_mul_pow2 by lia.
  change (2 ^ 8) with 256. split; [lia|].
  unfold u16. change (2 ^ 16) with (256 * 256).
  rewrite (Z.mul_comm n 256), Z.mul_mod_distr_l by lia. reflexivity.
Qed.

Lemma u16_bigendian_shifts_witness :
  U16_BIGENDIAN 4660 = 256 * 4660 /\
  u16 (U16_BIGENDIAN 4660) = 256 * (4660 mod 256).
Proof. refine (u16_bigendian_shifts 4660 _). by_computation. Defined.

(** ** Byte objects *)

Lemma in_range_spec l off n :
  in_range l off n = true <->
  0 <= off /\ 0 <= n /\ off + n <= Z.of_nat (length l).
Proof.
  unfold in_range. rewrite !andb_true_iff, !Z.leb_le. tauto.
Qed.

Lemma sub_length l off n c : sub l off n = Some c -> length c = Z.to_nat n.
Proof.
  unfold sub. destruct (in_range l off n) eqn:E; [|discriminate].
  apply in_range_spec in E. intros H. inversion H.
  rewrite length_firstn, length_skipn. lia.
Qed.

Lemma sub_all l : sub l 0 (Z.of_nat (length l)) = Some l.
Proof.
  unfold sub.
  replace (in_range l 0 _) with true by (symmetry; apply in_range_spec; lia).
  rewrite Nat2Z.id. simpl. rewrite firstn_all. reflexivity.
Qed.

Lemma blit_all dst src :
  length dst = length src -> blit dst 0 src = Some src.
Proof.
  intros H. unfold blit.
  replace (in_range dst 0 (Z.of_nat (length src))) with true
    by (symmetry; apply in_range_spec; lia).
  simpl. rewrite <- H, skipn_all, app_nil_r. reflexivity.
Qed.

Lemma blit_length dst off src r :
  blit dst off src = Some r -> length r = length dst.
Proof.
  unfold blit. destruct (in_range dst off _) eqn:E; [|discriminate].
  apply in_range_spec in E. intros H. inversion H.
  rewrite !length_app, length_firstn, length_skipn. lia.
Qed.

Lemma blit_in_range dst off src r :
  blit dst off src = Some r ->
  0 <= off /\ off + Z.of_nat (length src) <= Z.of_nat (length dst).
Proof.
  unfold blit. destruct (in_range dst off _) eqn:E; [|discriminate].
  apply in_range_spec in E. intros _. lia.
Qed.

Lemma load1_nth l off :
  0 <= off < Z.of_nat (length l) ->
  load 1 l off = Some (u8 (nth (Z.to_nat off) l 0)).
Proof.
  intros H. unfold load, sub.
  replace (in_range l off 1) with true
    by (symmetry; apply in_range_spec; lia).
  cbn [option_map]. f_equal.
  assert (Hn : (Z.to_nat off < length l)%nat) by lia.
  revert Hn. generalize (Z.to_nat off). clear H.
  induction l as [|x l IH]; intros n Hn; simpl in Hn; [lia|].
  destruct n as [|n].
  - simpl. destruct l; simpl; lia.
  - simpl. apply IH. lia.
Qed.

Lemma load1_inv l off v :
  load 1 l off = Some v -> 0 <= off < Z.of_nat (length l).
Proof.
  unfold load, sub. destruct (in_range l off 1) eqn:E; [|discriminate].
  apply in_range_spec in E. lia.
Qed.

Lemma nth_blit dst off src r k :
  blit dst off src = Some r ->
  0 <= k < Z.of_nat (length src) ->
  nth (Z.to_nat (off + k)) r 0 = nth (Z.to_nat k) src 0.
Proof.
  unfold blit. destruct (in_range dst off _) eqn:E; [|discriminate].
  apply in_range_spec in E. intros H Hk. inversion H. clear H.
  assert (Hf : length (firstn (Z.to_nat off) dst) = Z.to_nat off)
    by (rewrite length_firstn; lia).
  rewrite app_nth2 by lia. rewrite Hf.
  replace (Z.to_nat (off + k) - Z.to_nat off)%nat with (Z.to_nat k) by lia.
  apply app_nth1. lia.
Qed.

Lemma nth_blit_outside dst off src r k :
  blit dst off src = Some r ->
  (k < Z.to_nat off \/ Z.to_nat off + length src <= k)%nat ->
  nth k r 0 = nth k dst 0.
Proof.
  unfold blit. destruct (in_range dst off _) eqn:E; [|discriminate].
  apply in_range_spec in E. intros H Hk. inversion H. clear H.
  assert (Hf : length (firstn (Z.to_nat off) dst) = Z.to_nat off)
    by (rewrite length_firstn; lia).
  destruct Hk as [Hk|Hk].
  - rewrite app_nth1 by lia. rewrite nth_firstn.
    destruct (Nat.ltb_spec k (Z.to_nat off)); [reflexivity | lia].
  - rewrite app_nth2 by lia. rewrite app_nth2 by lia.
    rewrite nth_skipn. f_equal. lia.
Qed.

Lemma nth_sub l off n c k :
  sub l off n = Some c -> 0 <= k < n ->
  nth (Z.to_nat k) c 0 = nth (Z.to_nat (off + k)) l 0.
Proof.
  unfold sub. destruct (in_range l off n) eqn:E; [|discriminate].
  apply in_range_spec in E. intros H Hk. inversion H. clear H.
  rewrite nth_firstn.
  destruct (Nat.ltb_spec (Z.to_nat k) (Z.to_nat n)); [|lia].
  rewrite nth_skipn. f_equal. lia.
Qed.

Lemma kmalloc_length n w a w' :
  kmalloc n w = Ok a w' -> length a = Z.to_nat n /\ w' = w.
Proof.
  unfold kmalloc, gets. intros H. inversion H.
  rewrite length_map, length_seq. auto.
Qed.

Lemma fresh_length (w : world) n :
  length (map (junk w) (seq 0 (Z.to_nat n))) = Z.to_nat n.
Proof. rewrite length_map, length_seq. reflexivity. Qed.

(** [memcpy] of a whole object into a fresh object of the same size. *)
Lemma memcpy_fresh n src w chunk :
  sub src 0 n = Some chunk ->
  (raw <- kmalloc n ;; memcpy raw 0 src 0 n) w = Ok chunk w.
Proof.
  intros H. unfold bind, kmalloc, gets, memcpy, bind, must. rewrite H.
  unfold ret. rewrite blit_all; [reflexivity|].
  rewrite length_map, length_seq. symmetry. eapply sub_length; eauto.
Qed.

Lemma sub_blit dst off src r :
  blit dst off src = Some r -> sub r off (Z.of_nat (length src)) = Some src.
Proof.
  intros H. pose proof (blit_length _ _ _ _ H) as Hl.
  pose proof (blit_in_range _ _ _ _ H) as Hr.
  unfold blit in H. destruct (in_range dst off _) eqn:E; [|discriminate].
  inversion H. clear H. unfold sub.
  replace (in_range _ off _) with true
    by (symmetry; apply in_range_spec; rewrite H1, Hl; lia).
  f_equal.
  assert (Hf : length (firstn (Z.to_nat off) dst) = Z.to_nat off)
    by (rewrite length_firstn; lia).
  rewrite skipn_app, Hf, Nat.sub_diag. cbn [skipn].
  rewrite (skipn_all2 (firstn _ dst)) by lia. cbn [app].
  rewrite Nat2Z.id, firstn_app, Nat.sub_diag, firstn_all. cbn [firstn].
  apply app_nil_r.
Qed.

(** Two ranges that hold the same bytes. *)
Lemma sub_nth_ext l l' off off' n :
  length l' = length l ->
  0 <= off -> 0 <= off' ->
  (forall k, 0 <= k < n ->
     nth (Z.to_nat (off + k)) l' 0 = nth (Z.to_nat (off' + k)) l 0) ->
  in_range l' off n = in_range l off' n ->
  sub l' off n = sub l off' n.
Proof.
  intros Hlen Ho Ho' Hnth Hin. unfold sub. rewrite Hin.
  destruct (in_range l off' n) eqn:E; [|reflexivity].
  pose proof Hin as E'.
  apply in_range_spec in E, E'. f_equal.
  apply (nth_ext _ _ 0 0).
  - rewrite !length_firstn, !length_skipn. lia.
  - intros k Hk. rewrite length_firstn, length_skipn in Hk.
    rewrite !nth_firstn.
    destruct (Nat.ltb_spec k (Z.to_nat n)); [|reflexivity].
    rewrite !nth_skipn.
    specialize (Hnth (Z.of_nat k)).
    rewrite !Z2Nat.inj_add, !Nat2Z.id in Hnth by lia.
    apply Hnth. lia.
Qed.

Lemma sub_skipn a l n c :
  0 < n -> sub (skipn a l) 0 n = Some c -> sub l (Z.of_nat a) n = Some c.
Proof.
  intros Hn H. unfold sub in *.
  destruct (in_range (skipn a l) 0 n) eqn:E; [|discriminate].
  apply in_range_spec in E. rewrite length_skipn in E.
  replace (in_range l (Z.of_nat a) n) with true
    by (symmetry; apply in_range_spec; lia).
  rewrite Nat2Z.id. exact H.
Qed.

Lemma firstn_skipn_firstn (n a m : nat) (l : list Z) :
  (a + n <= m)%nat -> firstn n (skipn a (firstn m l)) = firstn n (skipn a l).
Proof.
  intros H. rewrite skipn_firstn_comm, firstn_firstn.
  f_equal. lia.
Qed.

Lemma field_prefix (a m : nat) (l : list Z) (off n : nat) :
  (a + off + n <= m)%nat ->
  field (skipn a (firstn m l)) off n = field (skipn a l) off n.
Proof.
  intros H. unfold field. rewrite !skipn_skipn.
  rewrite firstn_skipn_firstn by lia. reflexivity.
Qed.

(** A range of a range. *)
Lemma sub_sub l a n c b m d :
  sub l a n = Some c -> sub c b m = Some d -> sub l (a + b) m = Some d.
Proof.
  intros H1 H2. pose proof (sub_length _ _ _ _ H1) as Hl.
  unfold sub in *.
  destruct (in_range l a n) eqn:E1; [|discriminate].
  destruct (in_range c b m) eqn:E2; [|discriminate].
  apply in_range_spec in E1, E2.
  replace (in_range l (a + b) m) with true
    by (symmetry; apply in_range_spec; lia).
  inversion H1. subst c. inversion H2. f_equal.
  rewrite firstn_skipn_firstn by lia.
  rewrite skipn_skipn. do 2 f_equal. lia.
Qed.

Lemma sub_prefix (c : list Z) (n : Z) :
  0 <= n <= Z.of_nat (length c) ->
  sub c 0 n = Some (firstn (Z.to_nat n) c).
Proof.
  intros H. unfold sub.
  replace (in_range c 0 n) with true by (symmetry; apply in_range_spec; lia).
  reflexivity.
Qed.

Lemma sub_suffix (c : list Z) (off : Z) :
  0 <= off <= Z.of_nat (length c) ->
  sub c off (Z.of_nat (length c) - off) = Some (skipn (Z.to_nat off) c).
Proof.
  intros H. unfold sub.
  replace (in_range c off _) with true
    by (symmetry; apply in_range_spec; lia).
  f_equal. apply firstn_all2. rewrite length_skipn. lia.
Qed.

(** The buffer holds [A] in front of what is left of [buf0]; [c] is
    written behind [A]. *)
Lemma blit_extend (buf0 A c : list Z) :
  (length A + length c <= length buf0)%nat ->
  blit (A ++ skipn (length A) buf0) (Z.of_nat (length A)) c
  = Some ((A ++ c) ++ skipn (length (A ++ c)) buf0).
Proof.
  intros H. unfold blit.
  replace (in_range _ _ _) with true
    by (symmetry; apply in_range_spec;
        rewrite length_app, length_skipn; lia).
  f_equal. rewrite Nat2Z.id.
  rewrite firstn_app, Nat.sub_diag, firstn_all. cbn [firstn].
  rewrite app_nil_r, <- app_assoc. do 2 f_equal.
  rewrite skipn_app, length_app.
  rewrite (skipn_all2 A) by lia. cbn [app].
  rewrite skipn_skipn. f_equal. lia.
Qed.

Lemma le_nonneg l : 0 <= le l.
Proof.
  induction l as [|b t IH]; cbn [le]; [lia|].
  unfold u8. pose proof (Z.mod_pos_bound b (2 ^ 8)). lia.
Qed.

(** ** Blocks of the device *)

Lemma read_block_eq b buf w :
  length buf = Z.to_nat (block_size w) ->
  ext2_read_block b buf w
  = match block_of w b with
    | Some c => Ok c w
    | None => Fault
    end.
Proof.
  intros Hl. unfold ext2_read_block, the_device, block_of, bind, gets, must.
  destruct (device w) as [dev|]; [|reflexivity]. cbn [ret].
  unfold memcpy, bind, must.
  destruct (sub dev _ _) as [c|] eqn:E; [|reflexivity]. cbn [ret].
  rewrite blit_all; [reflexivity|].
  apply sub_length in E. lia.
Qed.

Lemma block_of_length w b c :
  block_of w b = Some c -> length c = Z.to_nat (block_size w).
Proof.
  unfold block_of. destruct (device w); [|discriminate]. apply sub_length.
Qed.

Lemma read_block_length b buf w t w' :
  ext2_read_block b buf w = Ok t w' -> w' = w /\ length t = length buf.
Proof.
  intros H. split; [eapply pure_read_block; eauto|].
  unfold ext2_read_block in H.
  apply bind_inv in H as (dev & w1 & _ & H).
  apply bind_inv in H as (bs & w2 & _ & H).
  unfold memcpy in H. apply bind_inv in H as (c & w3 & _ & H).
  apply must_inv in H as [H _]. eapply blit_length; eauto.
Qed.

Lemma marked_by_nth w b j dev :
  device w = Some dev ->
  0 <= u32 (b * block_size w) + j / 8 < Z.of_nat (length dev) ->
  (marked_on_device w b j <->
   Z.testbit (nth (Z.to_nat (u32 (b * block_size w) + j / 8)) dev 0)
     (j mod 8) = true).
Proof.
  intros Hdev Hr. unfold marked_on_device.
  assert (Hb : 0 <= j mod 8 < 8) by (apply Z.mod_pos_bound; lia).
  split.
  - intros (dev0 & byte & Hd & Hl & Ht). rewrite Hdev in Hd.
    inversion Hd. subst dev0. rewrite load1_nth in Hl by lia.
    inversion Hl. subst byte. rewrite testbit_u8 in Ht by lia. exact Ht.
  - intros Ht. exists dev. eexists. conjuncts; [exact Hdev | |].
    + apply load1_nth. lia.
    + rewrite testbit_u8 by lia. exact Ht.
Qed.

Lemma marked_in_range w b j :
  marked_on_device w b j ->
  exists dev,
    device w = Some dev /\
    0 <= u32 (b * block_size w) + j / 8 < Z.of_nat (length dev).
Proof.
  intros (dev & byte & Hd & Hl & _). exists dev. split; [exact Hd|].
  eapply load1_inv; eauto.
Qed.

Lemma marked_load w B j loaded :
  block_of w B = Some loaded ->
  0 <= j / 8 < block_size w ->
  marked_on_device w B j ->
  exists byte, load 1 loaded (j / 8) = Some byte /\
               Z.testbit byte (j mod 8) = true.
Proof.
  intros Hblk Hj (dev & byte & Hdev & Hl & Ht).
  pose proof (block_of_length _ _ _ Hblk) as Hlen.
  unfold block_of in Hblk. rewrite Hdev in Hblk.
  exists byte. split; [|exact Ht].
  rewrite load1_nth in Hl by (apply load1_inv in Hl; exact Hl).
  rewrite load1_nth by lia.
  rewrite (nth_sub _ _ _ _ _ Hblk) by lia. exact Hl.
Qed.

Lemma load_marked w B j loaded byte :
  block_of w B = Some loaded ->
  load 1 loaded (j / 8) = Some byte ->
  Z.testbit byte (j mod 8) = true ->
  marked_on_device w B j.
Proof.
  intros Hblk Hl Ht.
  pose proof (block_of_length _ _ _ Hblk) as Hlen.
  pose proof (load1_inv _ _ _ Hl) as Hj.
  unfold block_of in Hblk.
  destruct (device w) as [dev|] eqn:Hdev; [|discriminate].
  assert (Hin : in_range dev (u32 (B * block_size w)) (block_size w) = true).
  { unfold sub in Hblk. destruct (in_range dev _ _); [reflexivity|].
    discriminate. }
  apply in_range_spec in Hin.
  exists dev, byte. conjuncts; [exact Hdev | | exact Ht].
  rewrite load1_nth in Hl by exact Hj.
  rewrite load1_nth by lia.
  rewrite <- (nth_sub _ _ _ _ _ Hblk) by lia. exact Hl.
Qed.

(** The write-back of the found branch marks [j] on the device. *)
Lemma write_back_marks tmp j byte B w tmp' w' :
  length tmp = Z.to_nat (block_size w) ->
  load 1 tmp (j / 8) = Some byte ->
  store8 tmp (j / 8) (Z.lor byte (Z.shiftl 1 (j mod 8))) = Some tmp' ->
  ext2_write_block B tmp' w = Ok tt w' ->
  marked_on_device w' B j.
Proof.
  intros Hlen Hload Hstore Hwrite.
  apply load1_inv in Hload.
  unfold ext2_write_block, the_device in Hwrite.
  unfold bind, gets, must in Hwrite.
  destruct (device w) as [dev|]; [|discriminate]. cbn [ret] in Hwrite.
  unfold memcpy, bind, must in Hwrite.
  pose proof (blit_length _ _ _ _ Hstore) as Hlen'.
  assert (Hbs : block_size w = Z.of_nat (length tmp')) by lia.
  replace (sub tmp' 0 (block_size w)) with (Some tmp') in Hwrite
    by (rewrite Hbs; symmetry; apply sub_all).
  cbn [ret] in Hwrite.
  destruct (blit dev _ tmp') as [dev'|] eqn:Eb; [|discriminate].
  cbn [ret] in Hwrite. unfold modify in Hwrite. inversion Hwrite.
  unfold marked_on_device. cbn [device block_size set_device].
  exists dev', (u8 (u8 (Z.lor byte (Z.shiftl 1 (j mod 8))))).
  conjuncts.
  - reflexivity.
  - pose proof (blit_length _ _ _ _ Eb) as Hd.
    assert (Hin : in_range dev (u32 (B * block_size w))
                    (Z.of_nat (length tmp')) = true).
    { unfold blit in Eb. destruct (in_range dev _ _); [reflexivity|].
      discriminate. }
    apply in_range_spec in Hin.
    rewrite load1_nth by lia.
    rewrite (nth_blit _ _ _ _ _ Eb) by lia.
    unfold store8 in Hstore.
    replace (Z.to_nat (j / 8)) with (Z.to_nat (j / 8 + 0)) by (f_equal; lia).
    rewrite (nth_blit _ _ _ _ _ Hstore) by (simpl; lia).
    reflexivity.
  - apply bit_set_after_or. apply Z.mod_pos_bound. lia.
Qed.

(** The write-back changes one byte of the device: the byte at offset [k]
    of block [b], which becomes [v]. *)
Lemma write_back_bytes w b dev loaded k v tmp' w' :
  device w = Some dev ->
  block_of w b = Some loaded ->
  store8 loaded k v = Some tmp' ->
  ext2_write_block b tmp' w = Ok tt w' ->
  exists dev',
    w' = set_device (Some dev') w /\ length dev' = length dev /\
    0 <= k < block_size w /\
    0 <= u32 (b * block_size w) /\
    u32 (b * block_size w) + block_size w <= Z.of_nat (length dev) /\
    forall a : nat,
      nth a dev' 0
      = if (a =? Z.to_nat (u32 (b * block_size w) + k))%nat
        then u8 v else nth a dev 0.
Proof.
  intros Hdev Hblk Hst Hwr.
  pose proof (block_of_length _ _ _ Hblk) as Hll.
  pose proof (blit_length _ _ _ _ Hst) as Hlt.
  pose proof (blit_in_range _ _ _ _ Hst) as Hk. cbn [length] in Hk.
  unfold block_of in Hblk. rewrite Hdev in Hblk.
  unfold ext2_write_block, the_device, bind, gets, must in Hwr.
  rewrite Hdev in Hwr. cbn [ret] in Hwr.
  unfold memcpy, bind, must in Hwr.
  assert (Hbs : block_size w = Z.of_nat (length tmp')).
  { pose proof (sub_length _ _ _ _ Hblk).
    unfold sub in Hblk. destruct (in_range dev _ _) eqn:E; [|discriminate].
    apply in_range_spec in E. lia. }
  replace (sub tmp' 0 (block_size w)) with (Some tmp') in Hwr
    by (rewrite Hbs; symmetry; apply sub_all).
  cbn [ret] in Hwr.
  destruct (blit dev _ tmp') as [dev'|] eqn:Eb; [|discriminate].
  cbn [ret] in Hwr. unfold modify in Hwr. inversion Hwr. clear Hwr.
  pose proof (blit_in_range _ _ _ _ Eb) as Hoff.
  exists dev'. conjuncts; try reflexivity; try lia.
  - eapply blit_length; eauto.
  - intros a. set (off := u32 (b * block_size w)) in *.
    destruct (Nat.eqb_spec a (Z.to_nat (off + k))) as [->|Hne].
    + rewrite (nth_blit _ _ _ _ k Eb) by lia.
      replace (Z.to_nat k) with (Z.to_nat (k + 0)) by (f_equal; lia).
      rewrite (nth_blit _ _ _ _ 0 Hst) by (simpl; lia). reflexivity.
    + destruct (Nat.ltb_spec a (Z.to_nat off)) as [Hlo|Hlo].
      { apply (nth_blit_outside _ _ _ _ _ Eb). lia. }
      destruct (Nat.leb_spec (Z.to_nat off + length tmp') a) as [Hhi|Hhi].
      { apply (nth_blit_outside _ _ _ _ _ Eb). lia. }
      replace a with (Z.to_nat (off + (Z.of_nat a - off))) by lia.
      rewrite (nth_blit _ _ _ _ _ Eb) by lia.
      rewrite (nth_blit_outside _ _ _ _ _ Hst) by (simpl; lia).
      apply (nth_sub _ _ _ _ _ Hblk). lia.
Qed.

(** *** Writing a block and reading it back *)

(** X3.  A block that was written is the block that is read: after
    [ext2_write_block b buf] has returned, block [b] of the device holds
    the first [block_size] bytes of [buf], and [ext2_read_block b] delivers
    them into a buffer of one block. *)
Theorem write_then_read_block b buf out w w' :
  ext2_write_block b buf w = Ok tt w' ->
  length out = Z.to_nat (block_size w) ->
  exists data,
    sub buf 0 (block_size w) = Some data /\
    block_of w' b = Some data /\
    ext2_read_block b out w' = Ok data w'.
Proof.
  intros H Hout. unfold ext2_write_block, the_device in H.
  unfold bind, gets, must in H.
  destruct (device w) as [dev|] eqn:Hdev; [|discriminate]. cbn [ret] in H.
  unfold memcpy, bind, must in H.
  destruct (sub buf 0 (block_size w)) as [data|] eqn:Hs; [|discriminate].
  cbn [ret] in H.
  destruct (blit dev _ data) as [dev'|] eqn:Hb; [|discriminate].
  cbn [ret] in H. unfold modify in H. inversion H. clear H.
  pose proof (sub_length _ _ _ _ Hs) as Hl.
  assert (Hbs : 0 <= block_size w).
  { unfold sub in Hs. destruct (in_range buf 0 _) eqn:E; [|discriminate].
    apply in_range_spec in E. lia. }
  assert (Hblk : block_of (set_device (Some dev') w) b = Some data).
  { unfold block_of. cbn [device block_size set_device].
    apply sub_blit in Hb. rewrite Hl, Z2Nat.id in Hb by exact Hbs. exact Hb. }
  exists data. conjuncts; [reflexivity | exact Hblk |].
  rewrite read_block_eq by exact Hout. rewrite Hblk. reflexivity.
Qed.

Lemma write_then_read_block_witness :
  exists data,
    sub (repeat 7 1024) 0 (block_size volume) = Some data /\
    block_of volume_written 9 = Some data /\
    ext2_read_block 9 (repeat 0 1024) volume_written = Ok data volume_written.
Proof.
  refine (write_then_read_block 9 (repeat 7 1024) (repeat 0 1024) volume
            volume_written _ _); by_computation.
Defined.

(** X4.  A write touches one block: when neither block offset wraps around, a
    write to block [b] leaves every other block [b'] of the device, the
    file-scope variables that describe the volume, and the console as they
    were. *)
Theorem write_block_frame b b' buf w w' :
  ext2_write_block b buf w = Ok tt w' ->
  0 <= b -> 0 <= b' -> b <> b' ->
  b * block_size w < 2 ^ 32 -> b' * block_size w < 2 ^ 32 ->
  block_of w' b' = block_of w b' /\
  same_volume w w' /\ console w' = console w.
Proof.
  intros H Hb0 Hb0' Hne Hw Hw'. unfold ext2_write_block, the_device in H.
  unfold bind, gets, must in H.
  destruct (device w) as [dev|] eqn:Hdev; [|discriminate]. cbn [ret] in H.
  unfold memcpy, bind, must in H.
  destruct (sub buf 0 (block_size w)) as [data|] eqn:Hs; [|discriminate].
  cbn [ret] in H.
  destruct (blit dev _ data) as [dev'|] eqn:Hb; [|discriminate].
  cbn [ret] in H. unfold modify in H. inversion H. clear H.
  pose proof (sub_length _ _ _ _ Hs) as Hl.
  assert (Hbs : 0 <= block_size w).
  { unfold sub in Hs. destruct (in_range buf 0 _) eqn:E; [|discriminate].
    apply in_range_spec in E. lia. }
  conjuncts; try reflexivity; [|unfold same_volume; conjuncts; reflexivity].
  unfold block_of. cbn [device block_size set_device]. rewrite Hdev.
  set (bs := block_size w) in *.
  rewrite !u32_small in * by nia.
  pose proof (blit_length _ _ _ _ Hb) as Hlen.
  apply sub_nth_ext; try nia; try exact Hlen.
  - intros k Hk. apply (nth_blit_outside _ _ _ _ _ Hb).
    rewrite Hl. nia.
  - unfold in_range. rewrite Hlen. reflexivity.
Qed.

Lemma write_block_frame_witness :
  block_of volume_written 8 = block_of volume 8 /\
  same_volume volume volume_written /\
  console volume_written = console volume.
Proof.
  refine (write_block_frame 9 8 (repeat 7 1024) volume volume_written
            _ _ _ _ _ _); by_computation.
Defined.

(** ** Inodes *)

(** X5.  The address of an inode.  On a volume whose inode size divides the
    block size, [ext2_get_inode] returns the inode decoded from the
    [inode_size] bytes at byte [table * block_size + (inode - 1) *
    inode_size] of the device, where [table] is the inode table of group
    [(inode - 1) / inodes_per_group]: the offset inside the table is taken
    from the number of the inode on the volume, not from its index in the
    group. *)
Theorem get_inode_locates inode w sb gds gd dev :
  superblock w = Some sb ->
  group_descriptors w = Some gds ->
  device w = Some dev ->
  let bs := block_size w in
  let isz := sb_inode_size sb in
  let table := gd_inode_table gd in
  1 <= inode < 2 ^ 32 ->
  0 < sb_inodes_per_group sb ->
  sizeof_inode_t <= isz -> 0 < bs -> bs mod isz = 0 ->
  nth_error gds (Z.to_nat ((inode - 1) / sb_inodes_per_group sb)) = Some gd ->
  0 <= table ->
  (table + (inode - 1) * isz / bs + 1) * bs <= Z.of_nat (length dev) ->
  Z.of_nat (length dev) <= 2 ^ 32 ->
  exists raw,
    sub dev (table * bs + (inode - 1) * isz) isz = Some raw /\
    ext2_get_inode inode w = Ok (Some (as_inode raw)) w.
Proof.
  intros Hsb Hgds Hdev bs isz table Hi Hipg Hisz Hbs Hdiv Hgd Ht Hfit Hmem.
  unfold sizeof_inode_t in Hisz.
  set (k := bs / isz).
  assert (Hk : bs = k * isz).
  { unfold k. rewrite Z.mul_comm. apply Z.div_exact; lia. }
  assert (Hk1 : 1 <= k) by nia.
  assert (Hboff : (inode - 1) * isz / bs = (inode - 1) / k).
  { rewrite Hk. apply Z.div_mul_cancel_r; lia. }
  rewrite Hboff in Hfit.
  set (boff := (inode - 1) / k) in *.
  assert (Hb0 : 0 <= boff) by (apply Z.div_pos; lia).
  assert (Hidx : inode - 1 - boff * k = (inode - 1) mod k).
  { unfold boff. rewrite (Z.mod_eq (inode - 1) k) by lia. lia. }
  pose proof (Z.mod_pos_bound (inode - 1) k ltac:(lia)) as Hm.
  set (idx := (inode - 1) mod k) in *.
  assert (Hprod : (inode - 1) * isz = boff * bs + idx * isz) by nia.
  assert (Hblk : exists blk, block_of w (table + boff) = Some blk).
  { unfold block_of. rewrite Hdev. fold bs. rewrite u32_small by nia.
    unfold sub.
    replace (in_range dev _ bs) with true
      by (symmetry; apply in_range_spec; nia).
    eauto. }
  destruct Hblk as (blk & Hblk).
  pose proof (block_of_length _ _ _ Hblk) as Hbl. fold bs in Hbl.
  assert (Hraw : exists raw, sub blk (idx * isz) isz = Some raw).
  { unfold sub.
    replace (in_range blk _ isz) with true
      by (symmetry; apply in_range_spec; nia).
    eauto. }
  destruct Hraw as (raw & Hraw).
  exists raw. split.
  - unfold block_of in Hblk. rewrite Hdev in Hblk. fold bs in Hblk.
    rewrite u32_small in Hblk by nia.
    replace (table * bs + (inode - 1) * isz)
      with ((table + boff) * bs + idx * isz) by nia.
    exact (sub_sub _ _ _ _ _ _ _ Hblk Hraw).
  - unfold ext2_get_inode.
    replace (inode =? 0) with false by (symmetry; apply Z.eqb_neq; lia).
    unfold the_superblock, the_group_descriptors.
    unfold bind at 1. unfold bind at 1. unfold gets at 1. rewrite Hsb.
    cbn [must ret].
    unfold bind at 1. unfold bind at 1. unfold gets at 1. rewrite Hgds.
    cbn [must ret].
    unfold bind at 1. unfold gets at 1. fold bs isz.
    rewrite (u32_small (inode - 1)) by lia.
    unfold div32.
    replace (sb_inodes_per_group sb =? 0) with false
      by (symmetry; apply Z.eqb_neq; lia).
    unfold bind at 1. unfold ret at 1.
    unfold bind at 1. rewrite Hgd. cbn [must ret]. fold table.
    rewrite (u32_small ((inode - 1) * isz)) by nia.
    replace (bs =? 0) with false by (symmetry; apply Z.eqb_neq; lia).
    unfold bind at 1. unfold ret at 1. rewrite Hboff.
    replace (isz =? 0) with false by (symmetry; apply Z.eqb_neq; lia).
    unfold bind at 1. unfold ret at 1. fold k boff. rewrite Hidx.
    rewrite (u32_small idx) by lia.
    unfold bind at 1. unfold kmalloc at 1. unfold gets at 1.
    rewrite (u32_small (table + boff)) by nia.
    unfold bind at 1.
    rewrite read_block_eq by apply fresh_length.
    rewrite Hblk.
    unfold bind at 1. unfold kmalloc at 1. unfold gets at 1.
    rewrite (u32_small (idx * isz)) by nia.
    unfold bind at 1. unfold memcpy, bind. rewrite Hraw. cbn [must ret].
    rewrite blit_all
      by (rewrite fresh_length; symmetry; eapply sub_length; eauto).
    cbn [must ret].
    replace (isz <? sizeof_inode_t) with false
      by (symmetry; apply Z.ltb_ge; unfold sizeof_inode_t; lia).
    reflexivity.
Qed.

Lemma get_inode_locates_witness :
  exists raw,
    sub volume_device
      (gd_inode_table volume_descriptor * block_size volume
       + (6 - 1) * sb_inode_size volume_superblock)
      (sb_inode_size volume_superblock) = Some raw /\
    ext2_get_inode 6 volume = Ok (Some (as_inode raw)) volume.
Proof.
  refine (get_inode_locates 6 volume volume_superblock [volume_descriptor]
            volume_descriptor volume_device _ _ _ _ _ _ _ _ _ _ _ _);
    by_computation.
Defined.

(** ** Block-address translation *)

Section Routing.

Variables (i : inode_t) (buf : list Z) (w : world).
Let p := block_size w / 4.
Hypothesis p_pos : 0 < p.
Hypothesis no_wrap : 12 + p + p * p + p * p * p < 2 ^ 32.

Lemma route_direct n b :
  0 <= n < 12 -> nth_error (i_dbp i) (Z.to_nat n) = Some b ->
  ext2_read_inode_block i n buf w = read_via b [] buf w.
Proof.
  intros Hn Hb. unfold ext2_read_inode_block, read_via, hops.
  unfold bind at 1. unfold gets at 1. cbv zeta.
  replace (n <? 12) with true by (symmetry; apply Z.ltb_lt; lia).
  rewrite Hb. reflexivity.
Qed.

Lemma route_single n :
  12 <= n < 12 + p ->
  ext2_read_inode_block i n buf w = read_via (i_sibp i) [n - 12] buf w.
Proof.
  intros Hn. unfold ext2_read_inode_block, read_via, hops.
  unfold bind at 1. unfold gets at 1. cbv zeta. fold p.
  replace (n <? 12) with false by (symmetry; apply Z.ltb_ge; lia).
  rewrite (u32_small (12 + p)) by nia.
  replace (n <? 12 + p) with true by (symmetry; apply Z.ltb_lt; lia).
  rewrite (u32_small (n - 12)) by nia.
  unfold kmalloc. unfold bind, gets, ret.
  match goal with
  | |- context [ext2_read_block ?b ?t ?w] =>
      destruct (ext2_read_block b t w) as [t1 w1| |]; try reflexivity
  end.
  destruct (word_at t1 (n - 12) w1); reflexivity.
Qed.

Lemma route_double n :
  12 + p <= n < 12 + p + p * p ->
  ext2_read_inode_block i n buf w
  = read_via (i_dibp i) [(n - 12 - p) / p; (n - 12 - p) mod p] buf w.
Proof.
  intros Hn. unfold ext2_read_inode_block, read_via, hops.
  unfold bind at 1. unfold gets at 1. cbv zeta. fold p.
  replace (n <? 12) with false by (symmetry; apply Z.ltb_ge; lia).
  rewrite (u32_small (12 + p)) by nia.
  replace (n <? 12 + p) with false by (symmetry; apply Z.ltb_ge; lia).
  rewrite (u32_small (12 + p + p * p)) by nia.
  replace (n <? 12 + p + p * p) with true by (symmetry; apply Z.ltb_lt; lia).
  rewrite (u32_small (n - 12 - p)) by nia.
  unfold div32, mod32.
  replace (p =? 0) with false by (symmetry; apply Z.eqb_neq; lia).
  unfold kmalloc. unfold bind, gets, ret.
  rewrite (read_block_eq (i_dibp i)) by apply fresh_length.
  destruct (block_of w (i_dibp i)) as [t|] eqn:Et; [|reflexivity].
  unfold word_at at 1 3, must.
  match goal with
  | |- context [load 4 t ?o] => destruct (load 4 t o) as [a|]; [|reflexivity]
  end.
  unfold ret.
  rewrite (read_block_eq a t) by (eapply block_of_length; eauto).
  rewrite (read_block_eq a) by apply fresh_length.
  destruct (block_of w a) as [t'|]; [|reflexivity].
  match goal with
  | |- context [word_at t' ?o w] => destruct (word_at t' o w); reflexivity
  end.
Qed.

(** What the triple-indirect branch does: the second index is
    [rel mod p^2], and the block reached ends in the scratch buffer. *)
Lemma route_triple n :
  12 + p + p * p <= n < 12 + p + p * p + p * p * p ->
  let rel := n - 12 - p - p * p in
  ext2_read_inode_block i n buf w
  = (tmp <- kmalloc (block_size w) ;;
     _ <- read_via (i_tibp i)
            [rel / (p * p); rel mod (p * p); rel mod p] tmp ;;
     ret buf) w.
Proof.
  intros Hn rel. unfold ext2_read_inode_block, read_via, hops.
  unfold bind at 1. unfold gets at 1. cbv zeta. fold p.
  replace (n <? 12) with false by (symmetry; apply Z.ltb_ge; lia).
  rewrite (u32_small (12 + p)) by nia.
  replace (n <? 12 + p) with false by (symmetry; apply Z.ltb_ge; lia).
  rewrite (u32_small (12 + p + p * p)) by nia.
  replace (n <? 12 + p + p * p) with false by (symmetry; apply Z.ltb_ge; lia).
  rewrite (u32_small (12 + p + p * p + p * p * p)) by nia.
  replace (n <? 12 + p + p * p + p * p * p) with true
    by (symmetry; apply Z.ltb_lt; lia).
  rewrite (u32_small (n - 12 - p - p * p)) by nia. fold rel.
  rewrite (u32_small (p * p)) by nia.
  unfold div32, mod32.
  replace (p * p =? 0) with false by (symmetry; apply Z.eqb_neq; nia).
  replace (p =? 0) with false by (symmetry; apply Z.eqb_neq; lia).
  unfold kmalloc. unfold bind, gets, ret.
  rewrite (read_block_eq (i_tibp i)) by apply fresh_length.
  destruct (block_of w (i_tibp i)) as [t1|] eqn:E1; [|reflexivity].
  unfold word_at at 1 4, must.
  match goal with
  | |- context [load 4 t1 ?o] => destruct (load 4 t1 o) as [a|]; [|reflexivity]
  end.
  unfold ret.
  rewrite (read_block_eq a t1) by (eapply block_of_length; eauto).
  rewrite (read_block_eq a) by apply fresh_length.
  destruct (block_of w a) as [t2|] eqn:E2; [|reflexivity].
  unfold word_at at 1 3, must.
  match goal with
  | |- context [load 4 t2 ?o] => destruct (load 4 t2 o) as [b|]; [|reflexivity]
  end.
  unfold ret.
  rewrite (read_block_eq b t2) by (eapply block_of_length; eauto).
  rewrite (read_block_eq b) by apply fresh_length.
  destruct (block_of w b) as [t3|] eqn:E3; [|reflexivity].
  unfold word_at, must.
  match goal with
  | |- context [load 4 t3 ?o] => destruct (load 4 t3 o) as [c|]; [|reflexivity]
  end.
  unfold ret.
  rewrite (read_block_eq c t3) by (eapply block_of_length; eauto).
  rewrite (read_block_eq c) by apply fresh_length.
  destruct (block_of w c); reflexivity.
Qed.

Lemma route_invalid n :
  12 + p + p * p + p * p * p <= n ->
  ext2_read_inode_block i n buf w
  = Ok buf (printed "[EXT2] Invalid inode block\n" [] w).
Proof.
  intros Hn. unfold ext2_read_inode_block.
  unfold bind at 1. unfold gets at 1. cbv zeta. fold p.
  replace (n <? 12) with false by (symmetry; apply Z.ltb_ge; nia).
  rewrite (u32_small (12 + p)) by nia.
  replace (n <? 12 + p) with false by (symmetry; apply Z.ltb_ge; nia).
  rewrite (u32_small (12 + p + p * p)) by nia.
  replace (n <? 12 + p + p * p) with false by (symmetry; apply Z.ltb_ge; nia).
  rewrite (u32_small (12 + p + p * p + p * p * p)) by nia.
  replace (n <? 12 + p + p * p + p * p * p) with false
    by (symmetry; apply Z.ltb_ge; lia).
  reflexivity.
Qed.

End Routing.

(** C4, as amended.  When [p = block_size / 4] is positive and
    [12 + p + p^2 + p^3] fits in 32 bits, the logical blocks [11], [12],
    [12 + p - 1], [12 + p], [12 + p + p^2 - 1] and [12 + p + p^2] are read
    through 0, 1, 1, 2, 2 and 3 pointer blocks, and every index from
    [12 + p + p^2 + p^3] on is reported with a message and not read. *)
Theorem block_routing i buf w :
  let p := block_size w / 4 in
  0 < p -> 12 + p + p * p + p * p * p < 2 ^ 32 ->
  (forall b, nth_error (i_dbp i) 11 = Some b ->
             ext2_read_inode_block i 11 buf w = read_via b [] buf w) /\
  ext2_read_inode_block i 12 buf w = read_via (i_sibp i) [0] buf w /\
  ext2_read_inode_block i (12 + p - 1) buf w
  = read_via (i_sibp i) [p - 1] buf w /\
  ext2_read_inode_block i (12 + p) buf w
  = read_via (i_dibp i) [0; 0] buf w /\
  ext2_read_inode_block i (12 + p + p * p - 1) buf w
  = read_via (i_dibp i) [p - 1; p - 1] buf w /\
  ext2_read_inode_block i (12 + p + p * p) buf w
  = (tmp <- kmalloc (block_size w) ;;
     _ <- read_via (i_tibp i) [0; 0; 0] tmp ;;
     ret buf) w /\
  (forall n, 12 + p + p * p + p * p * p <= n ->
             ext2_read_inode_block i n buf w
             = Ok buf (printed "[EXT2] Invalid inode block\n" [] w)).
Proof.
  intros p Hp Hw. conjuncts.
  - intros b Hb. apply route_direct; [lia | exact Hb].
  - rewrite (route_single i buf w Hp Hw 12) by (fold p; lia).
    reflexivity.
  - rewrite (route_single i buf w Hp Hw (12 + p - 1)) by (fold p; lia).
    replace (12 + p - 1 - 12) with (p - 1) by lia. reflexivity.
  - rewrite (route_double i buf w Hp Hw (12 + p)) by (fold p; nia).
    fold p. replace (12 + p - 12 - p) with 0 by lia.
    rewrite Z.div_0_l, Z.mod_0_l by lia. reflexivity.
  - rewrite (route_double i buf w Hp Hw (12 + p + p * p - 1))
      by (fold p; nia).
    fold p. replace (12 + p + p * p - 1 - 12 - p) with ((p - 1) * p + (p - 1))
      by lia.
    rewrite Z.div_add_l, Z.div_small, Z.add_0_r by lia.
    rewrite Z.add_comm, Z.mod_add, Z.mod_small by lia. reflexivity.
  - rewrite (route_triple i buf w Hp Hw (12 + p + p * p)) by (fold p; nia).
    fold p. replace (12 + p + p * p - 12 - p - p * p) with 0 by lia.
    rewrite Z.div_0_l, !Z.mod_0_l by nia. reflexivity.
  - intros n Hn. apply route_invalid; assumption.
Qed.

(** C4 as stated fails for blocks of 8 KiB: [p] is 2048, [p^3] is [2^33],
    the bound of the triple-indirect range wraps to that of the
    double-indirect range, and logical block [12 + p + p^2] is reported as
    invalid instead of being read through three pointer blocks. *)
Lemma routing_wraps_for_big_blocks :
  block_size big_blocks = 8192 /\
  12 + 2048 + 2048 * 2048 = 4196364 /\
  forall i buf,
    ext2_read_inode_block i 4196364 buf big_blocks
    = Ok buf (printed "[EXT2] Invalid inode block\n" [] big_blocks).
Proof.
  conjuncts; try reflexivity.
Qed.

Lemma block_routing_witness :
  ext2_read_inode_block three_blocks 12 (repeat 0 1024) volume
  = read_via (i_sibp three_blocks) [0] (repeat 0 1024) volume /\
  ext2_read_inode_block huge_file 65804 (repeat 0 1024) chain_volume
  = Ok (repeat 0 1024) chain_volume /\
  ext2_read_inode_block three_blocks 16843020 [] volume
  = Ok [] (printed "[EXT2] Invalid inode block\n" [] volume).
Proof.
  conjuncts.
  - refine (proj1 (proj2 (block_routing three_blocks (repeat 0 1024) volume
                            _ _))); vm_compute; reflexivity.
  - refine (eq_trans (proj1 (proj2 (proj2 (proj2 (proj2 (proj2 (block_routing
              huge_file (repeat 0 1024) chain_volume eq_refl eq_refl)))))))
              _).
    vm_compute. reflexivity.
  - refine (proj2 (proj2 (proj2 (proj2 (proj2 (proj2 (block_routing
              three_blocks [] volume _ _)))))) 16843020 _);
      vm_compute; try reflexivity; discriminate.
Defined.

(** C1.  The triple-indirect branch does not do what the decomposition
    [a = rel / p^2], [b = (rel mod p^2) / p], [c = rel mod p] asks for.  On
    [chain_volume] ([p = 256]) with logical block [12 + p + p^2 + 1]
    ([rel = 1]) the decomposition leads through entries 0, 0, 1 to block 9,
    whose contents the caller must receive; the driver leaves the caller's
    buffer as it was.  With [rel = p] the decomposition leads through
    entries 0, 1, 0; the driver indexes the second-level table with
    [rel mod p^2 = 256], outside the 256 pointers of a block. *)
Theorem triple_indirect_misrouted :
  let buf := repeat 0 1024 in
  triple_indices 256 65805 = [0; 0; 1] /\
  hops [0; 0; 1] (i_tibp huge_file) chain_volume = Ok 9 chain_volume /\
  read_triple_spec huge_file 65805 buf chain_volume
    = Ok (repeat 9 1024) chain_volume /\
  ext2_read_inode_block huge_file 65805 buf chain_volume
    = Ok buf chain_volume /\
  triple_indices 256 66060 = [0; 1; 0] /\
  result (read_triple_spec huge_file 66060 buf chain_volume)
    = result (ext2_read_block 0 buf chain_volume) /\
  ext2_read_inode_block huge_file 66060 buf chain_volume = Fault.
Proof.
  cbv zeta. conjuncts; vm_compute; reflexivity.
Qed.

(** *** The block that is read *)

Lemma hops_pointer w root idx b rest :
  pointer w root idx = Some b ->
  hops (idx :: rest) root w = hops rest b w.
Proof.
  unfold pointer. intros H. cbn [hops].
  unfold bind at 1. unfold gets at 1.
  unfold bind at 1. unfold kmalloc at 1. unfold gets at 1.
  unfold bind at 1. rewrite read_block_eq by apply fresh_length.
  destruct (block_of w root) as [c|]; [|discriminate].
  unfold bind at 1. unfold word_at. rewrite H. reflexivity.
Qed.

Lemma read_via_block w b buf c :
  block_of w b = Some c -> length buf = Z.to_nat (block_size w) ->
  read_via b [] buf w = Ok c w.
Proof.
  intros Hc Hl. unfold read_via. cbn [hops]. unfold bind, ret.
  rewrite read_block_eq by exact Hl. rewrite Hc. reflexivity.
Qed.

(** X6.  Direct, single-indirect and double-indirect translation, for every
    index of the three ranges: the caller's buffer of one block receives
    the contents of the block that the direct pointer [n] names; of the
    block that entry [n - 12] of the single-indirect block names; of the
    block reached through entry [(n - 12 - p) / p] of the double-indirect
    block and entry [(n - 12 - p) mod p] of the block found there. *)
Theorem block_translation i n buf w c :
  let p := block_size w / 4 in
  0 < p -> 12 + p + p * p + p * p * p < 2 ^ 32 ->
  length buf = Z.to_nat (block_size w) ->
  (0 <= n < 12 ->
   forall b,
     nth_error (i_dbp i) (Z.to_nat n) = Some b ->
     block_of w b = Some c ->
     ext2_read_inode_block i n buf w = Ok c w) /\
  (12 <= n < 12 + p ->
   forall b,
     pointer w (i_sibp i) (n - 12) = Some b ->
     block_of w b = Some c ->
     ext2_read_inode_block i n buf w = Ok c w) /\
  (12 + p <= n < 12 + p + p * p ->
   forall a b,
     pointer w (i_dibp i) ((n - 12 - p) / p) = Some a ->
     pointer w a ((n - 12 - p) mod p) = Some b ->
     block_of w b = Some c ->
     ext2_read_inode_block i n buf w = Ok c w).
Proof.
  intros p Hp Hw Hl. conjuncts.
  - intros Hn b Hb Hc.
    rewrite (route_direct i buf w n b Hn Hb).
    apply read_via_block; assumption.
  - intros Hn b Hb Hc.
    rewrite (route_single i buf w Hp Hw n Hn).
    unfold read_via. unfold bind at 1.
    rewrite (hops_pointer _ _ _ _ _ Hb). cbn [hops]. unfold ret.
    rewrite read_block_eq by exact Hl. rewrite Hc. reflexivity.
  - intros Hn a b Ha Hb Hc.
    rewrite (route_double i buf w Hp Hw n Hn).
    unfold read_via. unfold bind at 1. fold p.
    rewrite (hops_pointer _ _ _ _ _ Ha), (hops_pointer _ _ _ _ _ Hb).
    cbn [hops]. unfold ret.
    rewrite read_block_eq by exact Hl. rewrite Hc. reflexivity.
Qed.

Lemma block_translation_witness :
  let buf := repeat 0 1024 in
  ext2_read_inode_block indirect_file 0 buf indirect_volume
  = Ok (repeat 8 1024) indirect_volume /\
  ext2_read_inode_block indirect_file 12 buf indirect_volume
  = Ok (repeat 9 1024) indirect_volume /\
  ext2_read_inode_block indirect_file 268 buf indirect_volume
  = Ok (repeat 9 1024) indirect_volume.
Proof.
  cbv zeta. conjuncts.
  - refine (proj1 (block_translation indirect_file 0 (repeat 0 1024)
                     indirect_volume (repeat 8 1024) _ _ _) _ 8 _ _);
      by_computation.
  - refine (proj1 (proj2 (block_translation indirect_file 12 (repeat 0 1024)
                     indirect_volume (repeat 9 1024) _ _ _)) _ 9 _ _);
      by_computation.
  - refine (proj2 (proj2 (block_translation indirect_file 268 (repeat 0 1024)
                     indirect_volume (repeat 9 1024) _ _ _)) _ 5 9 _ _ _);
      by_computation.
Defined.

(** The direct blocks of an inode that lie inside the device can be read. *)
Lemma direct_blocks_hold i w k b c :
  0 < block_size w / 4 ->
  0 <= k < 12 ->
  nth_error (i_dbp i) (Z.to_nat k) = Some b ->
  block_of w b = Some c ->
  holds_block i w (direct_content w i) k.
Proof.
  intros Hp Hk Hb Hc. unfold holds_block, direct_content. rewrite Hb, Hc.
  split; [eapply block_of_length; eauto|].
  intros tmp Ht. rewrite (route_direct i tmp w k b Hk Hb).
  apply read_via_block; assumption.
Qed.

(** ** Reading a file *)

Lemma volume_inode_3 : ext2_get_inode 3 volume = Ok (Some three_blocks) volume.
Proof. vm_compute. reflexivity. Qed.

Lemma chain_volume_inode_2 :
  ext2_get_inode 2 chain_volume = Ok (Some huge_file) chain_volume.
Proof. vm_compute. reflexivity. Qed.

Lemma chain_volume_size : i_size_lower huge_file = 4294967295.
Proof. reflexivity. Qed.

(** *** The number of bytes *)

Lemma read_inode_count i offset buf size w :
  size <> 0 -> i_size_lower i <> 0 -> offset < i_size_lower i ->
  ensures (ext2_read_inode i offset buf size) w
    (fun r _ =>
       fst r = u32 (Z.min (u32 (offset + size)) (i_size_lower i) - offset)).
Proof.
  intros Hs Hf Ho [n b] w' E. unfold ext2_read_inode in E.
  replace ((size =? 0) || (i_size_lower i =? 0) || (i_size_lower i <=? offset))
    with false in E
    by (symmetry; rewrite !orb_false_iff, !Z.eqb_neq, Z.leb_gt; auto).
  assert (Hend :
    (if i_size_lower i <? u32 (offset + size)
     then i_size_lower i else u32 (offset + size))
    = Z.min (u32 (offset + size)) (i_size_lower i)).
  { destruct (Z.ltb_spec (i_size_lower i) (u32 (offset + size))); lia. }
  rewrite Hend in E. clear Hend.
  to_last_step E; inversion E; reflexivity.
Qed.

(** X21.  The number that [ext2_read] returns.  It is 0, with the buffer and
    the world as they were, when the inode does not resolve, when [size] is
    0, when the recorded size is 0 and when [offset] is at or after the
    recorded size.  Otherwise, if [offset + size] does not leave the 32-bit
    range, a call that returns at all returns
    [min (offset + size) file_size - offset]; and a call does return unless
    it faults on an access outside an object. *)
Theorem ext2_read_count inode offset buf size w :
  (ext2_get_inode inode w = Ok None w ->
   ext2_read inode offset buf size w = Ok (0, buf) w) /\
  (forall i,
     ext2_get_inode inode w = Ok (Some i) w ->
     (size = 0 \/ i_size_lower i = 0 \/ i_size_lower i <= offset ->
      ext2_read inode offset buf size w = Ok (0, buf) w) /\
     (size <> 0 -> i_size_lower i <> 0 -> offset < i_size_lower i ->
      0 <= offset -> 0 <= size -> offset + size < 2 ^ 32 ->
      match ext2_read inode offset buf size w with
      | Ok (n, _) _ => n = Z.min (offset + size) (i_size_lower i) - offset
      | Fault => True
      | OutOfFuel => False
      end)).
Proof.
  split; [|intros i Hi; split].
  - intros Hi. unfold ext2_read. rewrite (bind_ok _ _ _ _ _ Hi). reflexivity.
  - intros Hz. unfold ext2_read. rewrite (bind_ok _ _ _ _ _ Hi).
    unfold ext2_read_inode.
    replace ((size =? 0) || (i_size_lower i =? 0)
             || (i_size_lower i <=? offset)) with true; [reflexivity|].
    symmetry. rewrite !orb_true_iff, !Z.eqb_eq, Z.leb_le. tauto.
  - intros Hs Hf Ho H0 Hs0 Hov.
    apply (outcome_of_runs (ext2_read inode offset buf size) w
             (fun r => let (n, _) := r in
                       n = Z.min (offset + size) (i_size_lower i) - offset)).
    + apply runs_read.
    + intros [n b] w' E. unfold ext2_read in E.
      rewrite (bind_ok _ _ _ _ _ Hi) in E.
      apply read_inode_count in E; auto. simpl in E. subst n.
      unfold u32. rewrite (Z.mod_small (offset + size)) by lia.
      apply Z.mod_small. lia.
Qed.

(** C3.  The last 1024 bytes of a file of [2^32 - 1] bytes are asked for:
    1023 bytes are left from [offset] on, and
    [min (offset + size) file_size - offset] is 1023.  In the driver
    [offset + size] is [2^32] and wraps around to 0, the end of the read is
    0, no block is read and nothing is copied, and the number returned is
    [0 - offset] in 32 bits: the call returns 1024 and leaves the buffer as
    it was, whatever it held. *)
Theorem read_count_wraps :
  ext2_get_inode 2 chain_volume = Ok (Some huge_file) chain_volume /\
  i_size_lower huge_file = 4294967295 /\
  Z.min (4294966272 + 1024) 4294967295 - 4294966272 = 1023 /\
  (forall buf,
     ext2_read 2 4294966272 buf 1024 chain_volume
     = Ok (1024, buf) chain_volume) /\
  (forall buf,
     result (ext2_read 2 4294966272 buf 1024 chain_volume)
     <> Some (1023, buf)).
Proof.
  assert (E : forall buf,
            ext2_read 2 4294966272 buf 1024 chain_volume
            = Ok (1024, buf) chain_volume).
  { intros buf. unfold ext2_read.
    rewrite (bind_ok _ _ _ _ _ chain_volume_inode_2).
    vm_compute. reflexivity. }
  conjuncts;
    [vm_compute; reflexivity | reflexivity | reflexivity | exact E |].
  intros buf. rewrite E. cbn [result]. intros H. inversion H.
Qed.

Lemma ext2_read_count_witness :
  ext2_read 0 8 [] 8 volume = Ok (0, []) volume /\
  ext2_read 3 3072 [] 8 volume = Ok (0, []) volume /\
  match ext2_read 3 3000 (repeat 0 500) 500 volume with
  | Ok (n, _) _ => n = Z.min (3000 + 500) (i_size_lower three_blocks) - 3000
  | Fault => True
  | OutOfFuel => False
  end.
Proof.
  split; [|split].
  - exact (proj1 (ext2_read_count 0 8 [] 8 volume) eq_refl).
  - refine (proj1 (proj2 (ext2_read_count 3 3072 [] 8 volume) three_blocks
                     volume_inode_3) _).
    right; right. vm_compute. discriminate.
  - refine (proj2 (proj2 (ext2_read_count 3 3000 (repeat 0 500) 500 volume)
                     three_blocks volume_inode_3) _ _ _ _ _ _);
      vm_compute; congruence.
Defined.

(** *** The size of the file *)

Lemma read_inode_block_size_upper v i n buf :
  ext2_read_inode_block (with_size_upper v i) n buf
  = ext2_read_inode_block i n buf.
Proof. reflexivity. Qed.

Lemma read_blocks_size_upper v i count sb so bn buf tmp w :
  ext2_read_blocks count (with_size_upper v i) sb so bn buf tmp w
  = ext2_read_blocks count i sb so bn buf tmp w.
Proof.
  revert bn buf tmp w. induction count as [|count IH]; intros.
  - reflexivity.
  - cbn [ext2_read_blocks].
    change (ext2_read_inode_block (with_size_upper v i))
      with (ext2_read_inode_block i).
    apply bind_ext. intros bs w1. apply bind_ext. intros [b t] w2. apply IH.
Qed.

(** *** The bytes *)

(** C2.  A read of 2049 bytes at offset 1 of the three-block file of
    [volume] spans its three blocks with start offset 1 and end offset 2.
    The bytes to deliver are the three blocks concatenated and trimmed; the
    driver puts the middle block at position [1024] instead of [1023], so
    byte 1023 of the caller's buffer keeps its old value (255 here) and the
    bytes after it are those of the middle block moved by one. *)
Theorem multi_block_read_misplaced :
  let buf := repeat 255 2049 in
  let b0 := pattern 251 1024 in
  let b1 := pattern 241 1024 in
  let b2 := pattern 239 1024 in
  ext2_read_inode_block three_blocks 0 (repeat 0 1024) volume = Ok b0 volume /\
  ext2_read_inode_block three_blocks 1 (repeat 0 1024) volume = Ok b1 volume /\
  ext2_read_inode_block three_blocks 2 (repeat 0 1024) volume = Ok b2 volume /\
  ext2_read 3 1 buf 2049 volume
    = Ok (2049, firstn 1023 (skipn 1 b0) ++ [255] ++ firstn 1023 b1
                ++ firstn 2 b2) volume /\
  trimmed [b0; b1; b2] 1 2049 = skipn 1 b0 ++ b1 ++ firstn 2 b2 /\
  result (ext2_read 3 1 buf 2049 volume)
    <> Some (2049, trimmed [b0; b1; b2] 1 2049).
Proof.
  cbv zeta. conjuncts; try (vm_compute; reflexivity).
  intro H.
  apply (f_equal (fun r => match r with
                           | Some (_, l) => nth 1023 l 0
                           | None => 0
                           end)) in H.
  vm_compute in H. discriminate H.
Qed.

(** *** The bytes of a read that spans up to two blocks or starts on a
    block boundary *)

Lemma volume_inode_2 : ext2_get_inode 2 volume = Ok (Some root_dir) volume.
Proof. vm_compute. reflexivity. Qed.

Lemma volume_inode_6 : ext2_get_inode 6 volume = Ok (Some etc_dir) volume.
Proof. vm_compute. reflexivity. Qed.

Lemma blocks_from_snoc content k count :
  blocks_from content k (S count)
  = blocks_from content k count ++ [content (k + Z.of_nat count)].
Proof.
  unfold blocks_from. rewrite seq_S, map_app. reflexivity.
Qed.

Lemma blocks_from_cons content k count :
  blocks_from content k (S count)
  = content k :: blocks_from content (k + 1) count.
Proof.
  unfold blocks_from. cbn [seq map]. rewrite Z.add_0_r. f_equal.
  rewrite <- seq_shift, map_map. apply map_ext. intros j.
  f_equal. lia.
Qed.

Lemma concat_blocks_length content k count bs :
  (forall j, (j < count)%nat -> length (content (k + Z.of_nat j)) = bs) ->
  length (concat (blocks_from content k count)) = (count * bs)%nat.
Proof.
  induction count as [|count IH]; intros H; [reflexivity|].
  rewrite blocks_from_snoc, concat_app, length_app, IH by (intros; apply H; lia).
  cbn [concat]. rewrite app_nil_r, H by lia. lia.
Qed.

Section ReadBytes.

Variables (i : inode_t) (w : world) (content : Z -> list Z).
Variables (buf0 : list Z) (first : Z).
Let bs := block_size w.
Hypothesis bs_pos : 0 < bs.
Hypothesis first_pos : 0 <= first.

(** The iterations of the loop after the first one, for a read that starts
    on a block boundary: [A] is what the buffer holds so far. *)
Lemma read_blocks_aligned count :
  forall k A tmp,
    first < k -> k + Z.of_nat count < 2 ^ 32 ->
    Z.of_nat (length A) = (k - first) * bs ->
    Z.of_nat (length A) + Z.of_nat count * bs <= Z.of_nat (length buf0) ->
    Z.of_nat (length buf0) < 2 ^ 32 ->
    length tmp = Z.to_nat bs ->
    (forall j, (j < count)%nat -> holds_block i w content (k + Z.of_nat j)) ->
    exists tmp',
      length tmp' = Z.to_nat bs /\
      ext2_read_blocks count i first 0 k (A ++ skipn (length A) buf0) tmp w
      = Ok ((A ++ concat (blocks_from content k count))
            ++ skipn (length (A ++ concat (blocks_from content k count))) buf0,
            tmp') w.
Proof.
  induction count as [|count IH]; intros k A tmp Hk Hw HA Hfit Hmem Htmp Hc.
  - exists tmp. split; [exact Htmp|]. cbn [ext2_read_blocks blocks_from seq map concat].
    rewrite app_nil_r. reflexivity.
  - destruct (Hc O ltac:(lia)) as [Hlen Hread]. rewrite Z.add_0_r in Hlen, Hread.
    cbn [ext2_read_blocks].
    unfold bind at 1. unfold gets at 1. fold bs.
    replace (k =? first) with false by (symmetry; apply Z.eqb_neq; lia).
    unfold bind at 1. unfold bind at 1.
    rewrite (Hread tmp Htmp).
    unfold bind at 1. unfold memcpy, bind.
    replace (sub (content k) 0 bs) with (Some (content k)).
    2:{ symmetry. replace bs with (Z.of_nat (length (content k))).
        - apply sub_all.
        - rewrite Hlen. fold bs. lia. }
    cbn [must ret].
    replace (0 + u32 ((k - first) * bs) - 0) with (Z.of_nat (length A))
      by (rewrite u32_small by nia; lia).
    rewrite blit_extend by (fold bs in Hlen; nia).
    cbn [must ret].
    rewrite (u32_small (k + 1)) by lia.
    destruct (IH (k + 1) (A ++ content k) (content k)) as (tmp' & Ht' & E).
    + lia.
    + lia.
    + rewrite length_app. fold bs in Hlen. nia.
    + rewrite length_app. fold bs in Hlen. nia.
    + exact Hmem.
    + exact Hlen.
    + intros j Hj. replace (k + 1 + Z.of_nat j) with (k + Z.of_nat (S j)) by lia.
      apply Hc. lia.
    + exists tmp'. split; [exact Ht'|]. rewrite E.
      rewrite blocks_from_cons. cbn [concat].
      rewrite <- !app_assoc. reflexivity.
Qed.

End ReadBytes.

Lemma trimmed_one_more (blocks : list (list Z)) (c : list Z) (so n : Z) :
  0 <= so -> 0 <= n ->
  so <= Z.of_nat (length (concat blocks)) ->
  so + n <= Z.of_nat (length (concat blocks)) + Z.of_nat (length c) ->
  Z.of_nat (length (concat blocks)) <= so + n ->
  trimmed (blocks ++ [c]) so n
  = skipn (Z.to_nat so) (concat blocks)
    ++ firstn (Z.to_nat (so + n) - length (concat blocks)) c.
Proof.
  intros Hso Hn H1 H2 H3. unfold trimmed.
  rewrite concat_app. cbn [concat]. rewrite app_nil_r.
  rewrite skipn_app.
  replace (Z.to_nat so - length (concat blocks))%nat with O by lia.
  cbn [skipn]. rewrite firstn_app, length_skipn.
  rewrite firstn_all2 by (rewrite length_skipn; lia).
  do 2 f_equal. lia.
Qed.

Lemma trimmed_within (blocks : list (list Z)) (c : list Z) (so n : Z) :
  0 <= so -> 0 <= n ->
  so + n = Z.of_nat (length (concat blocks)) ->
  trimmed (blocks ++ [c]) so n = skipn (Z.to_nat so) (concat blocks).
Proof.
  intros Hso Hn H. rewrite trimmed_one_more by lia.
  replace (Z.to_nat (so + n) - length (concat blocks))%nat with O by lia.
  cbn [firstn]. apply app_nil_r.
Qed.

Lemma blocks_from_cons_concat content k count :
  content k ++ concat (blocks_from content (k + 1) count)
  = concat (blocks_from content k (S count)).
Proof. rewrite blocks_from_cons. reflexivity. Qed.

Lemma read_inode_trimmed i w content offset buf size :
  let bs := block_size w in
  let end_ := Z.min (offset + size) (i_size_lower i) in
  let n := end_ - offset in
  let first := offset / bs in
  let last := end_ / bs in
  0 < bs -> 0 <= offset < i_size_lower i -> 0 < size ->
  offset + size < 2 ^ 32 ->
  n <= Z.of_nat (length buf) < 2 ^ 32 ->
  offset mod bs = 0 \/ last <= first + 1 ->
  (forall k, first <= k <= last -> k < last \/ end_ mod bs <> 0 ->
             holds_block i w content k) ->
  ext2_read_inode i offset buf size w
  = Ok (n, trimmed (blocks_from content first (Z.to_nat (last - first + 1)))
             (offset mod bs) n
           ++ skipn (Z.to_nat n) buf) w.
Proof.
  intros bs end_ n first last Hbs Hoff Hsize Hov Hbuf Hshape Hblocks.
  pose proof (Z.div_mod offset bs ltac:(lia)) as Ho.
  pose proof (Z.mod_pos_bound offset bs Hbs) as Hso.
  assert (Hlt : offset < end_) by (unfold end_; lia).
  assert (Hend : end_ < 2 ^ 32) by (unfold end_; lia).
  pose proof (Z.div_mod end_ bs ltac:(lia)) as He.
  pose proof (Z.mod_pos_bound end_ bs Hbs) as Heo.
  assert (Hfl : first <= last) by (apply Z.div_le_mono; lia).
  assert (Hf0 : 0 <= first) by (apply Z.div_pos; lia).
  assert (Hlast : last <= end_).
  { unfold last. rewrite <- (Z.div_1_r end_) at 2.
    apply Z.div_le_compat_l; lia. }
  assert (Hn0 : n = end_ - offset) by reflexivity.
  fold first in Ho. fold last in He.
  set (so := offset mod bs) in *. set (eo := end_ mod bs) in *.
  unfold ext2_read_inode.
  replace ((size =? 0) || (i_size_lower i =? 0) || (i_size_lower i <=? offset))
    with false
    by (symmetry; rewrite !orb_false_iff, !Z.eqb_neq, Z.leb_gt; lia).
  rewrite (u32_small (offset + size)) by lia.
  replace (if i_size_lower i <? offset + size then i_size_lower i
           else offset + size) with end_
    by (unfold end_; destruct (Z.ltb_spec (i_size_lower i) (offset + size)); lia).
  unfold bind at 1. unfold gets at 1. fold bs.
  unfold div32, mod32.
  replace (bs =? 0) with false by (symmetry; apply Z.eqb_neq; lia).
  unfold bind at 1. unfold ret at 1.
  unfold bind at 1. unfold ret at 1.
  unfold bind at 1. unfold ret at 1.
  unfold bind at 1. unfold ret at 1.
  fold first last so eo.
  rewrite (u32_small (end_ - offset)) by lia. fold n.
  unfold bind at 1. unfold kmalloc at 1. unfold gets at 1.
  destruct (Z.eqb_spec first last) as [Heq|Hne].
  - (* one block *)
    rewrite <- Heq in He.
    assert (Hn : so + n = eo) by lia.
    destruct (Hblocks first ltac:(lia) ltac:(right; lia)) as [Hlen Hread].
    fold bs in Hlen.
    unfold bind at 1. rewrite Hread by apply fresh_length.
    unfold bind at 1. unfold memcpy, bind.
    replace (sub (content first) so n)
      with (Some (firstn (Z.to_nat n) (skipn (Z.to_nat so) (content first)))).
    2:{ symmetry. unfold sub.
        replace (in_range _ so n) with true
          by (symmetry; apply in_range_spec; lia).
        reflexivity. }
    cbn [must ret].
    set (chunk := firstn _ (skipn _ (content first))).
    assert (Hchunk : length chunk = Z.to_nat n).
    { unfold chunk. rewrite length_firstn, length_skipn. lia. }
    pose proof (blit_extend buf [] chunk ltac:(cbn [length]; lia)) as Hb.
    cbn [length app skipn Z.of_nat] in Hb. rewrite Hb. cbn [must ret].
    rewrite Hchunk. unfold ret. do 3 f_equal.
    replace (last - first + 1) with 1 by lia.
    change (Z.to_nat 1) with 1%nat.
    unfold trimmed, blocks_from. cbn [seq map concat Z.of_nat].
    rewrite Z.add_0_r, app_nil_r. reflexivity.
  - (* several blocks *)
    assert (Hcount : exists c, Z.to_nat (last - first) = S c)
      by (exists (Z.to_nat (last - first - 1)); lia).
    destruct Hcount as (c & Hc). rewrite Hc.
    set (D := (last - first) * bs).
    assert (HD : D = bs * last - bs * first) by (unfold D; ring).
    assert (Hcb : Z.of_nat c * bs = D - bs).
    { unfold D. replace (Z.of_nat c) with (last - first - 1) by lia. ring. }
    assert (Hcb0 : 0 <= Z.of_nat c * bs) by (apply Z.mul_nonneg_nonneg; lia).
    assert (Hn : n = D + eo - so) by lia.
    assert (Hnat : (S c * Z.to_nat bs)%nat = Z.to_nat D).
    { apply Nat2Z.inj. rewrite Nat2Z.inj_mul, !Z2Nat.id by lia.
      rewrite Nat2Z.inj_succ. unfold Z.succ.
      rewrite Z.mul_add_distr_r. lia. }
    destruct (Hblocks first ltac:(lia) ltac:(left; lia)) as [Hlen0 Hread0].
    fold bs in Hlen0.
    unfold bind at 1. cbn [ext2_read_blocks].
    unfold bind at 1. unfold gets at 1. fold bs.
    rewrite Z.eqb_refl.
    unfold bind at 1. unfold bind at 1.
    rewrite Hread0 by apply fresh_length.
    unfold bind at 1. unfold memcpy, bind.
    rewrite (u32_small (bs - so)) by lia.
    replace (sub (content first) so (bs - so))
      with (Some (skipn (Z.to_nat so) (content first))).
    2:{ symmetry. replace bs with (Z.of_nat (length (content first))) at 1 by lia.
        apply sub_suffix. lia. }
    cbn [must ret].
    set (A1 := skipn (Z.to_nat so) (content first)).
    assert (HA1 : Z.of_nat (length A1) = bs - so)
      by (unfold A1; rewrite length_skipn; lia).
    pose proof (blit_extend buf [] A1 ltac:(cbn [length]; lia)) as Hb.
    cbn [length app skipn Z.of_nat] in Hb. rewrite Hb. cbn [must ret].
    rewrite (u32_small (first + 1)) by lia.
    assert (Hcl : length (concat (blocks_from content first (S c)))
                  = Z.to_nat D).
    { rewrite <- Hnat. apply concat_blocks_length. intros j Hj.
      apply Hblocks; [lia | left; lia]. }
    assert (Hloop : exists tmp',
      length tmp' = Z.to_nat bs /\
      ext2_read_blocks c i first so (first + 1)
        (A1 ++ skipn (length A1) buf) (content first) w
      = Ok (skipn (Z.to_nat so)
              (concat (blocks_from content first (S c)))
            ++ skipn (Z.to_nat (D - so)) buf, tmp') w).
    { destruct Hshape as [Hz|Htwo].
      - fold so in Hz.
        assert (HA : A1 = content first) by (unfold A1; rewrite Hz; reflexivity).
        rewrite Hz in *. cbn [Z.to_nat skipn].
        destruct (read_blocks_aligned i w content buf first Hbs Hf0 c
                    (first + 1) A1 (content first)) as (tmp' & Ht & E).
        + lia.
        + lia.
        + fold bs. rewrite HA1. ring.
        + fold bs. lia.
        + lia.
        + exact Hlen0.
        + intros j Hj. apply Hblocks; [lia | left; lia].
        + exists tmp'. split; [exact Ht|]. rewrite E.
          rewrite HA, blocks_from_cons_concat, Hcl.
          do 5 f_equal. lia.
      - assert (c = O) by lia. subst c.
        exists (content first). split; [exact Hlen0|].
        cbn [ext2_read_blocks]. unfold ret. do 3 f_equal.
        + unfold blocks_from. cbn [seq map concat Z.of_nat].
          rewrite Z.add_0_r, app_nil_r. reflexivity.
        + f_equal. lia. }
    destruct Hloop as (tmp' & Ht' & ->).
    set (A := skipn (Z.to_nat so) (concat (blocks_from content first (S c)))).
    assert (HA : Z.of_nat (length A) = D - so).
    { unfold A. rewrite length_skipn, Hcl. lia. }
    replace (Z.to_nat (D - so)) with (length A) by lia.
    replace (Z.to_nat (last - first + 1)) with (S (S c)) by lia.
    rewrite blocks_from_snoc.
    replace (first + Z.of_nat (S c)) with last by lia.
    destruct (Z.eqb_spec eo 0) as [He0|He0]; cbn [negb].
    + unfold ret. do 3 f_equal.
      * rewrite trimmed_within; [reflexivity | lia | lia |]. rewrite Hcl. lia.
      * f_equal. lia.
    + destruct (Hblocks last ltac:(lia) ltac:(right; exact He0))
        as [Hlenl Hreadl]. fold bs in Hlenl.
      rewrite Hreadl by exact Ht'.
      rewrite sub_prefix by lia. cbn [must ret].
      fold D. rewrite (u32_small D) by lia.
      replace (D - so) with (Z.of_nat (length A)) by lia.
      assert (Hfe : length (firstn (Z.to_nat eo) (content last)) = Z.to_nat eo)
        by (rewrite length_firstn; lia).
      rewrite blit_extend by (rewrite Hfe; lia).
      cbn [must ret]. unfold ret. do 3 f_equal.
      * rewrite trimmed_one_more; try lia; try (rewrite Hcl; lia).
        fold A. do 2 f_equal. rewrite Hcl. lia.
      * f_equal. rewrite length_app, Hfe. lia.
Qed.

Lemma file_bytes_length content bs offset n :
  0 < bs -> 0 <= offset -> 0 <= n ->
  (forall k, offset / bs <= k <= (offset + n) / bs ->
             length (content k) = Z.to_nat bs) ->
  length (file_bytes content bs offset n) = Z.to_nat n.
Proof.
  intros Hbs Ho Hn Hlen. unfold file_bytes, trimmed.
  pose proof (Z.div_mod offset bs ltac:(lia)) as Hd.
  pose proof (Z.mod_pos_bound offset bs Hbs) as Hso.
  pose proof (Z.div_mod (offset + n) bs ltac:(lia)) as He.
  pose proof (Z.mod_pos_bound (offset + n) bs Hbs) as Heo.
  assert (Hfl : offset / bs <= (offset + n) / bs)
    by (apply Z.div_le_mono; lia).
  assert (Hf0 : 0 <= offset / bs) by (apply Z.div_pos; lia).
  rewrite length_firstn, length_skipn.
  rewrite (concat_blocks_length content _ _ (Z.to_nat bs)).
  - nia.
  - intros j Hj. apply Hlen. lia.
Qed.

(** X7.  What a read delivers.  A read that spans one or two blocks, or that
    starts on a block boundary, returns [n = min (offset + size) file_size -
    offset] and leaves in the first [n] bytes of the caller's buffer the
    bytes [offset] to [offset + n] of the file; the rest of the buffer is as
    it was, and so is the world. *)
Theorem read_delivers inode i w content offset buf size :
  let bs := block_size w in
  let n := Z.min (offset + size) (i_size_lower i) - offset in
  ext2_get_inode inode w = Ok (Some i) w ->
  0 < bs -> 0 <= offset < i_size_lower i -> 0 < size ->
  offset + size < 2 ^ 32 ->
  n <= Z.of_nat (length buf) < 2 ^ 32 ->
  offset mod bs = 0 \/ (offset + n) / bs <= offset / bs + 1 ->
  (forall k, offset / bs <= k <= (offset + n) / bs ->
             k < (offset + n) / bs \/ (offset + n) mod bs <> 0 ->
             holds_block i w content k) ->
  ext2_read inode offset buf size w
  = Ok (n, file_bytes content bs offset n ++ skipn (Z.to_nat n) buf) w.
Proof.
  intros bs n Hi Hbs Hoff Hsize Hov Hbuf Hshape Hblocks.
  unfold ext2_read. rewrite (bind_ok _ _ _ _ _ Hi).
  unfold file_bytes.
  assert (E : offset + n = Z.min (offset + size) (i_size_lower i))
    by (unfold n; lia).
  rewrite E in *.
  apply read_inode_trimmed; assumption.
Qed.

Lemma read_delivers_witness :
  let content := direct_content volume three_blocks in
  let n := Z.min (0 + 3000) (i_size_lower three_blocks) - 0 in
  let m := Z.min (1000 + 100) (i_size_lower three_blocks) - 1000 in
  (n = 3000 /\ m = 100) /\
  ext2_read 3 0 (repeat 0 3000) 3000 volume
  = Ok (n, file_bytes content (block_size volume) 0 n
           ++ skipn (Z.to_nat n) (repeat 0 3000)) volume /\
  ext2_read 3 1000 (repeat 0 100) 100 volume
  = Ok (m, file_bytes content (block_size volume) 1000 m
           ++ skipn (Z.to_nat m) (repeat 0 100)) volume.
Proof.
  cbv zeta.
  assert (H0 : holds_block three_blocks volume
                 (direct_content volume three_blocks) 0).
  { apply (direct_blocks_hold three_blocks volume 0 8 (pattern 251 1024));
      by_computation. }
  assert (H1 : holds_block three_blocks volume
                 (direct_content volume three_blocks) 1).
  { apply (direct_blocks_hold three_blocks volume 1 9 (pattern 241 1024));
      by_computation. }
  assert (H2 : holds_block three_blocks volume
                 (direct_content volume three_blocks) 2).
  { apply (direct_blocks_hold three_blocks volume 2 10 (pattern 239 1024));
      by_computation. }
  split; [split; by_computation|]. split.
  - refine (read_delivers 3 three_blocks volume
              (direct_content volume three_blocks) 0 (repeat 0 3000) 3000
              volume_inode_3 _ _ _ _ _ _ _); try by_computation.
    + left. reflexivity.
    + intros k Hk _.
      change (0 <= k <= 2) in Hk.
      assert (Hc : k = 0 \/ k = 1 \/ k = 2) by lia.
      destruct Hc as [->|[->| ->]]; assumption.
  - refine (read_delivers 3 three_blocks volume
              (direct_content volume three_blocks) 1000 (repeat 0 100) 100
              volume_inode_3 _ _ _ _ _ _ _); try by_computation.
    + right. by_computation.
    + intros k Hk _.
      change (0 <= k <= 1) in Hk.
      assert (Hc : k = 0 \/ k = 1) by lia.
      destruct Hc as [->| ->]; assumption.
Defined.

(** *** The size of the file in a read *)

Lemma upper_volume_inode_3 :
  ext2_get_inode 3 upper_volume = Ok (Some upper_file) upper_volume.
Proof. vm_compute. reflexivity. Qed.

Lemma read_inode_size_upper v i offset buf size w :
  ext2_read_inode (with_size_upper v i) offset buf size w
  = ext2_read_inode i offset buf size w.
Proof.
  unfold ext2_read_inode. cbn [i_size_lower with_size_upper].
  change (ext2_read_inode_block (with_size_upper v i))
    with (ext2_read_inode_block i).
  destruct ((size =? 0) || (i_size_lower i =? 0)
            || (i_size_lower i <=? offset)); [reflexivity|].
  do 6 (apply bind_ext; intros ? ?).
  destruct (_ =? _); [reflexivity|].
  unfold bind at 1 4.
  rewrite read_blocks_size_upper. reflexivity.
Qed.

(** C10.  Only the lower half of the recorded size has a part in a read.
    For the inode [i] of the file, whatever its [size_upper] holds: the read
    is the read of the same inode with any other upper half; a read at or
    after [size_lower] returns 0 bytes and leaves the buffer alone, also
    when the size recorded in 64 bits lies beyond [offset]; and a read that
    starts before [size_lower] is clamped there.  With
    [n = min (offset + size) size_lower - offset] and [offset + size] inside
    the 32-bit range, no call returns another number than [n]; and a read
    that spans one or two blocks, or starts on a block boundary, does return
    [n] and delivers the bytes [offset] to [offset + n] of the file. *)
Theorem size_upper_ignored inode i w content offset buf size :
  let bs := block_size w in
  let n := Z.min (offset + size) (i_size_lower i) - offset in
  ext2_get_inode inode w = Ok (Some i) w ->
  (forall v,
     ext2_read inode offset buf size w
     = ext2_read_inode (with_size_upper v i) offset buf size w) /\
  (i_size_lower i <= offset ->
   ext2_read inode offset buf size w = Ok (0, buf) w) /\
  (0 <= offset < i_size_lower i -> 0 < size -> offset + size < 2 ^ 32 ->
   forall r out w',
     ext2_read inode offset buf size w = Ok (r, out) w' -> r = n) /\
  (0 < bs -> 0 <= offset < i_size_lower i -> 0 < size ->
   offset + size < 2 ^ 32 ->
   n <= Z.of_nat (length buf) < 2 ^ 32 ->
   offset mod bs = 0 \/ (offset + n) / bs <= offset / bs + 1 ->
   (forall k, offset / bs <= k <= (offset + n) / bs ->
              k < (offset + n) / bs \/ (offset + n) mod bs <> 0 ->
              holds_block i w content k) ->
   ext2_read inode offset buf size w
   = Ok (n, file_bytes content bs offset n ++ skipn (Z.to_nat n) buf) w).
Proof.
  intros bs n Hi.
  assert (E : ext2_read inode offset buf size w
              = ext2_read_inode i offset buf size w).
  { unfold ext2_read. rewrite (bind_ok _ _ _ _ _ Hi). reflexivity. }
  conjuncts.
  - intros v. rewrite E. symmetry. apply read_inode_size_upper.
  - intros H. rewrite E. unfold ext2_read_inode.
    apply Z.leb_le in H. rewrite H, orb_true_r. reflexivity.
  - intros Hoff Hsize Hov r out w' H. rewrite E in H.
    apply read_inode_count in H; [|lia|lia|lia]. cbn [fst] in H. subst r.
    unfold n, u32. rewrite (Z.mod_small (offset + size)) by lia.
    apply Z.mod_small. lia.
  - intros Hbs Hoff Hsize Hov Hbuf Hshape Hblocks.
    rewrite E. unfold file_bytes.
    assert (En : offset + n = Z.min (offset + size) (i_size_lower i))
      by (unfold n; lia).
    rewrite En in *.
    apply read_inode_trimmed; assumption.
Qed.

Lemma size_upper_ignored_witness :
  let content := direct_content upper_volume upper_file in
  let buf := repeat 0 1000 in
  let n := Z.min (3000 + 1000) (i_size_lower upper_file) - 3000 in
  (i_size_upper upper_file = 1 /\ i_size_lower upper_file = 3072 /\ n = 72) /\
  (forall v,
     ext2_read 3 3000 buf 1000 upper_volume
     = ext2_read_inode (with_size_upper v upper_file) 3000 buf 1000
         upper_volume) /\
  ext2_read 3 3072 buf 1000 upper_volume = Ok (0, buf) upper_volume /\
  (forall r out w',
     ext2_read 3 3000 buf 1000 upper_volume = Ok (r, out) w' -> r = n) /\
  ext2_read 3 3000 buf 1000 upper_volume
  = Ok (n, file_bytes content (block_size upper_volume) 3000 n
           ++ skipn (Z.to_nat n) buf) upper_volume.
Proof.
  cbv zeta.
  assert (H2 : holds_block upper_file upper_volume
                 (direct_content upper_volume upper_file) 2).
  { apply (direct_blocks_hold upper_file upper_volume 2 10
             (pattern 239 1024)); by_computation. }
  split; [conjuncts; by_computation|]. conjuncts.
  - exact (proj1 (size_upper_ignored 3 upper_file upper_volume
                    (direct_content upper_volume upper_file) 3000
                    (repeat 0 1000) 1000 upper_volume_inode_3)).
  - refine (proj1 (proj2 (size_upper_ignored 3 upper_file upper_volume
                     (direct_content upper_volume upper_file) 3072
                     (repeat 0 1000) 1000 upper_volume_inode_3)) _).
    by_computation.
  - refine (proj1 (proj2 (proj2 (size_upper_ignored 3 upper_file upper_volume
                     (direct_content upper_volume upper_file) 3000
                     (repeat 0 1000) 1000 upper_volume_inode_3))) _ _ _);
      by_computation.
  - refine (proj2 (proj2 (proj2 (size_upper_ignored 3 upper_file upper_volume
                     (direct_content upper_volume upper_file) 3000
                     (repeat 0 1000) 1000 upper_volume_inode_3)))
              _ _ _ _ _ _ _); try by_computation.
    + right. by_computation.
    + intros k Hk Hlast.
      change (2 <= k <= 3) in Hk.
      change (k < 3 \/ 0 <> 0) in Hlast.
      assert (Hc : k = 2) by lia. subst k. exact H2.
Defined.

(** ** Path resolution *)

Lemma strchrnul_le s : (strchrnul s <= length s)%nat.
Proof.
  induction s as [|c s IH]; simpl; [lia|].
  destruct ((c =? 0) || (c =? slash)); lia.
Qed.

Lemma strlen_le s : strlen s <= Z.of_nat (length s).
Proof.
  unfold strlen. apply inj_le.
  induction s as [|c s IH]; simpl; [lia|].
  destruct (c =? 0); simpl; lia.
Qed.

Lemma component_at_length path p :
  length (component_at path p)
  = strchrnul (skipn (Z.to_nat p) path).
Proof.
  unfold component_at. apply firstn_length_le, strchrnul_le.
Qed.

Lemma sub_component path p :
  0 <= p < strlen path ->
  sub path p (Z.of_nat (strchrnul (skipn (Z.to_nat p) path)))
  = Some (component_at path p).
Proof.
  intros Hp. unfold sub, component_at.
  pose proof (strlen_le path) as Hn.
  pose proof (strchrnul_le (skipn (Z.to_nat p) path)) as Hc.
  rewrite length_skipn in Hc.
  replace (in_range path p _) with true
    by (symmetry; apply in_range_spec; lia).
  rewrite Nat2Z.id. reflexivity.
Qed.

(** The scan passes the entries that do not match. *)
Lemma open_loop_skips k :
  forall fuel path p block entry e w,
    (k <= fuel)%nat -> 0 <= p < strlen path ->
    skips k block (component_at path p) entry = Some e ->
    ext2_open_loop fuel path (strlen path) p block entry w
    = ext2_open_loop (fuel - k) path (strlen path) p block e w.
Proof.
  induction k as [|k IH]; intros fuel path p block entry e w Hk Hp H.
  - cbn [skips] in H. inversion H. rewrite Nat.sub_0_r. reflexivity.
  - destruct fuel as [|fuel]; [lia|].
    cbn [skips] in H. cbn [ext2_open_loop Nat.sub].
    replace (p <? strlen path) with true by (symmetry; apply Z.ltb_lt; lia).
    cbn [negb]. unfold bind at 1.
    destruct (load 1 block (entry + de_type)) as [t|]; [|discriminate].
    cbn [must ret].
    rewrite component_at_length in H.
    destruct (sub block (entry + de_name) _) as [name|] eqn:En;
      [|discriminate].
    destruct (load 2 block (entry + de_entry_size)) as [es|]; [|discriminate].
    destruct (negb (t =? 0) && negb (bytes_eqb _ name)) eqn:Hc;
      [|discriminate].
    apply andb_true_iff in Hc as [Ht Hn].
    apply negb_true_iff in Ht, Hn. rewrite Ht.
    unfold bind at 1. rewrite sub_component by lia. cbn [must ret].
    unfold bind at 1. cbn [must ret]. rewrite Hn.
    unfold bind at 1. cbn [must ret].
    apply IH; [lia | lia | exact H].
Qed.

(** The scan that comes to an entry of type 0 ends with 0. *)
Lemma open_loop_exhausted k :
  forall fuel path p block entry e w,
    (k <= fuel)%nat -> 0 <= p ->
    skips k block (component_at path p) entry = Some e ->
    load 1 block (e + de_type) = Some 0 ->
    ext2_open_loop fuel path (strlen path) p block entry w = Ok 0 w.
Proof.
  intros fuel path p block entry e w Hk Hp Hs Ht.
  destruct (Z.ltb_spec p (strlen path)) as [Hlt|Hge].
  - rewrite (open_loop_skips k fuel path p block entry e w) by (auto; lia).
    destruct (fuel - k)%nat; cbn [ext2_open_loop];
      (replace (p <? strlen path) with true
         by (symmetry; apply Z.ltb_lt; lia));
      cbn [negb]; unfold bind at 1; rewrite Ht; reflexivity.
  - destruct fuel; cbn [ext2_open_loop];
      (replace (p <? strlen path) with false
         by (symmetry; apply Z.ltb_ge; lia));
      reflexivity.
Qed.

(** The scan that comes to a match for the last component reads the inode
    number from the block it has freed. *)
Lemma open_loop_found k :
  forall fuel path p block entry e w,
    (k < fuel)%nat -> 0 <= p < strlen path ->
    strlen path <= p + Z.of_nat (length (component_at path p)) + 1 ->
    skips k block (component_at path p) entry = Some e ->
    matches block (component_at path p) e = true ->
    ext2_open_loop fuel path (strlen path) p block entry w = Fault.
Proof.
  intros fuel path p block entry e w Hk Hp Hlast Hs Hm.
  rewrite (open_loop_skips k fuel path p block entry e w) by (auto; lia).
  destruct (fuel - k)%nat as [|m] eqn:Hf; [lia|].
  cbn [ext2_open_loop].
  replace (p <? strlen path) with true by (symmetry; apply Z.ltb_lt; lia).
  cbn [negb]. unfold matches in Hm. rewrite component_at_length in Hm, Hlast.
  unfold bind at 1.
  destruct (load 1 block (e + de_type)) as [t|]; [|discriminate].
  cbn [must ret].
  destruct (sub block (e + de_name) _) as [name|] eqn:En; [|discriminate].
  apply andb_true_iff in Hm as [Ht Hn]. apply negb_true_iff in Ht.
  rewrite Ht.
  unfold bind at 1. rewrite sub_component by lia. cbn [must ret].
  unfold bind at 1. cbn [must ret]. rewrite Hn.
  replace (strlen path <=? _) with true by (symmetry; apply Z.leb_le; lia).
  unfold bind, kfree, ret, load, sub.
  replace (in_range [] (e + de_inode) 4) with false; [reflexivity|].
  symmetry. unfold in_range. cbn [length Z.of_nat].
  rewrite !andb_false_iff, Z.leb_gt, Z.leb_gt, Z.leb_gt. lia.
Qed.

(** The loop returns no number but 0. *)
Lemma open_loop_returns fuel :
  forall path n p block entry w r w',
    ext2_open_loop fuel path n p block entry w = Ok r w' -> r = 0.
Proof.
  induction fuel as [|fuel IH]; intros path n p block entry w r w' H;
    cbn [ext2_open_loop] in H;
    (destruct (negb (p <? n)); [apply ret_inv in H as [-> _]; reflexivity|]);
    pure_step H;
    (destruct (a =? 0); [apply ret_inv in H as [-> _]; reflexivity|]).
  - discriminate H.
  - cbv zeta in H. pure_step H. pure_step H.
    destruct (bytes_eqb a0 a1).
    + destruct (n <=? _).
      * unfold bind, kfree, ret in H. cbv beta iota in H.
        apply must_inv in H as [H _]. unfold load, sub, in_range in H.
        cbn [length Z.of_nat] in H.
        destruct ((0 <=? entry + de_inode) && (0 <=? 4)
                  && (entry + de_inode + 4 <=? 0)) eqn:Hr;
          [|discriminate H].
        rewrite !andb_true_iff, !Z.leb_le in Hr. lia.
      * pure_step H. pure_step H. pure_step H. pure_step H. pure_step H.
        pure_step H. exact (IH _ _ _ _ _ _ _ _ H).
    + pure_step H. exact (IH _ _ _ _ _ _ _ _ H).
Qed.

(** The steps of [ext2_open] before its loop. *)
Lemma open_enters_loop fuel path w i b block :
  char_at path 0 = slash -> strlen path <> 1 ->
  ext2_get_inode EXT2_ROOT_INODE w = Ok (Some i) w ->
  nth_error (i_dbp i) 0 = Some b ->
  block_of w b = Some block ->
  ext2_open fuel path w = ext2_open_loop fuel path (strlen path) 1 block 0 w.
Proof.
  intros Hc Hn Hi Hb Hblk. unfold ext2_open.
  apply Z.eqb_eq in Hc. rewrite Hc. cbn [negb].
  apply Z.eqb_neq in Hn. rewrite Hn. cbn [andb].
  rewrite (bind_ok _ _ _ _ _ Hi). cbn [must].
  unfold bind at 1. unfold ret at 1.
  unfold bind at 1. unfold gets at 1.
  unfold bind at 1. unfold kmalloc, gets.
  unfold bind at 1. rewrite Hb. cbn [must ret].
  unfold bind at 1. rewrite read_block_eq by apply fresh_length.
  rewrite Hblk. reflexivity.
Qed.

(** C5.  The root directory of [volume] holds the entries [.], [..],
    [hello] and [etc] and ends with an entry of type 0: it has no entry of
    the name [hel], and the directory [/etc] has none of the name [pa], so
    the resolution of [/hel] and of [/etc/pa] has to return 0.  The driver
    compares as many bytes of the name field as the component has and does
    not read the name length: the entries [hello] and [passwd] match, the
    scan takes the way of a name that is found, where the directory block is
    freed and the inode number (3 and 7 in the blocks as they were) is then
    read from it.  Neither call returns 0. *)
Theorem open_takes_prefix :
  let hel := [104; 101; 108] in
  let pa := [112; 97] in
  ext2_get_inode EXT2_ROOT_INODE volume = Ok (Some root_dir) volume /\
  nth_error (i_dbp root_dir) 0 = Some 6 /\
  block_of volume 6 = Some volume_root_block /\
  unmatched_to_end 8 volume_root_block hel 0 = true /\
  skips 2 volume_root_block hel 0 = Some 24 /\
  entry_name volume_root_block 24 = Some hello /\
  matches volume_root_block hel 24 = true /\
  load 4 volume_root_block (24 + de_inode) = Some 3 /\
  ext2_open 8 ([slash] ++ hel) volume = Fault /\
  block_of volume 7 = Some volume_etc_block /\
  unmatched_to_end 8 volume_etc_block pa 0 = true /\
  entry_name volume_etc_block 24 = Some passwd /\
  matches volume_etc_block pa 24 = true /\
  load 4 volume_etc_block (24 + de_inode) = Some 7 /\
  ext2_open 8 ([slash] ++ etc ++ [slash] ++ pa) volume = Fault /\
  result (ext2_open 8 ([slash] ++ hel) volume) <> Some 0 /\
  result (ext2_open 8 ([slash] ++ etc ++ [slash] ++ pa) volume) <> Some 0.
Proof.
  cbv zeta. conjuncts; try (vm_compute; reflexivity);
    vm_compute; discriminate.
Qed.

(** *** Names that are found *)



(** *** Names that are not found *)

(** X20.  What [ext2_open] answers with 0 and with 2.  A path that does not
    start with a slash resolves to 0 and the path [/] to 2.  When the scan
    of a directory block, after [k] entries that are not of type 0 and whose
    name fields do not begin with the current component, comes to an entry
    of type 0, it ends with 0, at every level and so in [ext2_open] from the
    first block of the root directory.  The world is as it was. *)
Theorem open_fails fuel path w :
  (char_at path 0 <> slash -> ext2_open fuel path w = Ok 0 w) /\
  (path = [slash] -> ext2_open fuel path w = Ok 2 w) /\
  (forall k p block entry e,
     (k <= fuel)%nat -> 0 <= p ->
     skips k block (component_at path p) entry = Some e ->
     load 1 block (e + de_type) = Some 0 ->
     ext2_open_loop fuel path (strlen path) p block entry w = Ok 0 w) /\
  (forall k i b block e,
     (k <= fuel)%nat ->
     char_at path 0 = slash -> strlen path <> 1 ->
     ext2_get_inode EXT2_ROOT_INODE w = Ok (Some i) w ->
     nth_error (i_dbp i) 0 = Some b ->
     block_of w b = Some block ->
     skips k block (component_at path 1) 0 = Some e ->
     load 1 block (e + de_type) = Some 0 ->
     ext2_open fuel path w = Ok 0 w).
Proof.
  conjuncts.
  - intros H. unfold ext2_open. apply Z.eqb_neq in H. rewrite H. reflexivity.
  - intros ->. reflexivity.
  - intros k p block entry e. apply open_loop_exhausted.
  - intros k i b block e Hk Hc Hn Hi Hb Hblk Hs Ht.
    rewrite (open_enters_loop fuel path w i b block) by auto.
    apply (open_loop_exhausted k) with (e := e); auto. lia.
Qed.

Lemma open_fails_witness :
  ext2_open 8 hello volume = Ok 0 volume /\
  ext2_open 8 [slash] volume = Ok 2 volume /\
  ext2_open_loop 8 ([slash] ++ etc ++ [slash] ++ nope)
    (strlen ([slash] ++ etc ++ [slash] ++ nope)) 5 volume_etc_block 12 volume
  = Ok 0 volume /\
  ext2_open 8 ([slash] ++ nope) volume = Ok 0 volume.
Proof.
  conjuncts.
  - refine (proj1 (open_fails 8 hello volume) _). by_computation.
  - exact (proj1 (proj2 (open_fails 8 [slash] volume)) eq_refl).
  - refine (proj1 (proj2 (proj2 (open_fails 8
              ([slash] ++ etc ++ [slash] ++ nope) volume)))
              2%nat 5 volume_etc_block 12 40 _ _ _ _); by_computation.
  - refine (proj2 (proj2 (proj2 (open_fails 8 ([slash] ++ nope) volume)))
              4%nat root_dir 6 volume_root_block 52 _ _ _ volume_inode_2
              _ _ _ _); by_computation.
Defined.

(** X9.  Descending.  When the entry that matches is not for the last component
    of the path, the scan goes on in the first block of the inode of that
    entry, for the next component, and it starts there behind the first
    entry of the block. *)
Theorem open_descends fuel path w k p block entry e ino i b block' es :
  (k < fuel)%nat -> 0 <= p < strlen path ->
  p + Z.of_nat (length (component_at path p)) + 1 < strlen path ->
  skips k block (component_at path p) entry = Some e ->
  matches block (component_at path p) e = true ->
  load 4 block (e + de_inode) = Some ino ->
  ext2_get_inode ino w = Ok (Some i) w ->
  nth_error (i_dbp i) 0 = Some b ->
  length block = Z.to_nat (block_size w) ->
  block_of w b = Some block' ->
  load 2 block' de_entry_size = Some es ->
  ext2_open_loop fuel path (strlen path) p block entry w
  = ext2_open_loop (fuel - k - 1) path (strlen path)
      (p + Z.of_nat (length (component_at path p)) + 1) block' es w.
Proof.
  intros Hk Hp Hmore Hs Hm Hino Hi Hb Hlen Hblk Hes.
  rewrite (open_loop_skips k fuel path p block entry e w) by (auto; lia).
  destruct (fuel - k)%nat as [|m] eqn:Hf; [lia|].
  replace (S m - 1)%nat with m by lia.
  cbn [ext2_open_loop].
  replace (p <? strlen path) with true by (symmetry; apply Z.ltb_lt; lia).
  cbn [negb]. unfold matches in Hm. rewrite component_at_length in Hm, Hmore.
  rewrite component_at_length.
  unfold bind at 1.
  destruct (load 1 block (e + de_type)) as [t|]; [|discriminate].
  cbn [must ret].
  destruct (sub block (e + de_name) _) as [name|] eqn:En; [|discriminate].
  apply andb_true_iff in Hm as [Ht Hn]. apply negb_true_iff in Ht.
  rewrite Ht.
  unfold bind at 1. rewrite sub_component by lia. cbn [must ret].
  unfold bind at 1. cbn [must ret]. rewrite Hn.
  replace (strlen path <=? _) with false by (symmetry; apply Z.leb_gt; lia).
  unfold bind at 1. rewrite Hino. cbn [must ret].
  rewrite (bind_ok _ _ _ _ _ Hi). cbn [must].
  unfold bind at 1. unfold ret at 1.
  unfold bind at 1. rewrite Hb. cbn [must ret].
  unfold bind at 1. rewrite read_block_eq by exact Hlen. rewrite Hblk.
  unfold bind at 1. rewrite !Z.add_0_l, Hes. cbn [must ret].
  reflexivity.
Qed.

Lemma open_descends_witness :
  let path := [slash] ++ etc ++ [slash] ++ passwd in
  ext2_open_loop 8 path (strlen path) 1 volume_root_block 0 volume
  = ext2_open_loop (8 - 3 - 1) path (strlen path)
      (1 + Z.of_nat (length (component_at path 1)) + 1) volume_etc_block 12
      volume.
Proof.
  cbv zeta.
  refine (open_descends 8 ([slash] ++ etc ++ [slash] ++ passwd) volume
            3%nat 1 volume_root_block 0 40 6 etc_dir 7 volume_etc_block 12
            _ _ _ _ _ _ volume_inode_6 _ _ _ _); by_computation.
Defined.

(** X10.  An entry with a record length of 0 stops the scan for ever: when the
    entry the scan is at is not of type 0, does not match and has the
    record length 0, the loop does not end, whatever the number of
    iterations it is given. *)
Theorem open_stuck path p block entry w :
  0 <= p < strlen path ->
  stuck block (component_at path p) entry = true ->
  forall fuel,
    ext2_open_loop fuel path (strlen path) p block entry w = OutOfFuel.
Proof.
  intros Hp Hs. unfold stuck in Hs. rewrite component_at_length in Hs.
  destruct (load 1 block (entry + de_type)) as [t|] eqn:Et; [|discriminate].
  destruct (sub block (entry + de_name) _) as [name|] eqn:En; [|discriminate].
  destruct (load 2 block (entry + de_entry_size)) as [es|] eqn:Ee;
    [|discriminate].
  apply andb_true_iff in Hs as [Hs Hz].
  apply andb_true_iff in Hs as [Ht Hn].
  apply negb_true_iff in Ht, Hn. apply Z.eqb_eq in Hz. subst es.
  induction fuel as [|fuel IH]; cbn [ext2_open_loop];
    (replace (p <? strlen path) with true by (symmetry; apply Z.ltb_lt; lia));
    cbn [negb]; unfold bind at 1; rewrite Et; cbn [must ret]; rewrite Ht.
  - reflexivity.
  - unfold bind at 1. rewrite sub_component by lia. cbn [must ret].
    unfold bind at 1. rewrite En. cbn [must ret]. rewrite Hn.
    unfold bind at 1. rewrite Ee. cbn [must ret].
    rewrite Z.add_0_r. exact IH.
Qed.

Lemma open_stuck_witness :
  ext2_open_loop 1000 [slash; 98] (strlen [slash; 98]) 1 zero_length_entry 0
    boot = OutOfFuel.
Proof.
  refine (open_stuck [slash; 98] 1 zero_length_entry 0 boot _ _ 1000%nat);
    by_computation.
Defined.

(** ** Directory iteration *)

(** C8, as amended.  [ext2_readdir] returns the null pointer when the read
    of the header returns 0 bytes, and when the read of the whole entry
    returns 0 bytes; when both reads return a positive number of bytes,
    however short of what was asked for, it returns the entry object. *)
Theorem ext2_readdir_null inode offset w :
  let ent0 := map (junk w) (seq 0 8) in
  (forall ent w1,
     ext2_read inode offset ent0 sizeof_directory_entry w = Ok (0, ent) w1 ->
     ext2_readdir inode offset w = Ok None w1) /\
  (forall n ent w1 entry_size m entry w2,
     ext2_read inode offset ent0 sizeof_directory_entry w = Ok (n, ent) w1 ->
     n <> 0 ->
     load 2 ent de_entry_size = Some entry_size ->
     ext2_read inode offset
       (map (junk w1) (seq 0 (Z.to_nat entry_size))) entry_size w1
     = Ok (m, entry) w2 ->
     (m = 0 -> ext2_readdir inode offset w = Ok None w2) /\
     (m <> 0 -> ext2_readdir inode offset w = Ok (Some entry) w2)).
Proof.
  cbv zeta. split.
  - intros ent w1 H. unfold ext2_readdir.
    unfold bind at 1. unfold kmalloc at 1. unfold gets at 1.
    change (Z.to_nat sizeof_directory_entry) with 8%nat.
    unfold bind at 1. rewrite H. reflexivity.
  - intros n ent w1 entry_size m entry w2 H1 Hn Hl H2.
    assert (E : ext2_readdir inode offset w
                = if m =? 0 then Ok None w2 else Ok (Some entry) w2).
    { unfold ext2_readdir.
      unfold bind at 1. unfold kmalloc at 1. unfold gets at 1.
      change (Z.to_nat sizeof_directory_entry) with 8%nat.
      unfold bind at 1. rewrite H1.
      apply Z.eqb_neq in Hn. rewrite Hn.
      unfold bind at 1. rewrite Hl. unfold must, ret.
      unfold bind at 1. unfold kmalloc, gets.
      unfold bind at 1. rewrite H2.
      destruct (m =? 0); reflexivity. }
    rewrite E. split; intros Hm.
    + subst m. reflexivity.
    + apply Z.eqb_neq in Hm. rewrite Hm. reflexivity.
Qed.

(** C8 as stated fails: seven bytes before the end of the root directory of
    [volume] the read of the 8-byte header comes back with 7 bytes, the read
    of the 12-byte entry with 7 bytes, and [ext2_readdir] returns an entry
    object, whose last five bytes were never written. *)
Lemma readdir_accepts_short_reads :
  ext2_read 2 1017 (repeat 170 8) 8 volume
  = Ok (7, [0; 0; 0; 0; 12; 0; 0; 170]) volume /\
  ext2_read 2 1017 (repeat 170 12) 12 volume
  = Ok (7, [0; 0; 0; 0; 12; 0; 0; 170; 170; 170; 170; 170]) volume /\
  ext2_readdir 2 1017 volume
  = Ok (Some [0; 0; 0; 0; 12; 0; 0; 170; 170; 170; 170; 170]) volume.
Proof. conjuncts; vm_compute; reflexivity. Qed.

Lemma ext2_readdir_null_witness :
  ext2_readdir 2 1024 volume = Ok None volume /\
  ext2_readdir 2 52 volume = Ok None volume /\
  ext2_readdir 2 24 volume
  = Ok (Some (dirent 3 16 1 hello ++ [0; 0; 0])) volume.
Proof.
  split; [|split].
  - refine (proj1 (ext2_readdir_null 2 1024 volume) (repeat 170 8) volume _).
    vm_compute. reflexivity.
  - refine (proj1 (proj2 (ext2_readdir_null 2 52 volume)
                     8 (repeat 0 8) volume 0 0 [] volume _ _ _ _) _).
    + vm_compute. reflexivity.
    + discriminate.
    + reflexivity.
    + vm_compute. reflexivity.
    + reflexivity.
  - refine (proj2 (proj2 (ext2_readdir_null 2 24 volume)
                     8 (firstn 8 (dirent 3 16 1 hello)) volume 16 16
                     (dirent 3 16 1 hello ++ [0; 0; 0]) volume _ _ _ _) _).
    + vm_compute. reflexivity.
    + discriminate.
    + reflexivity.
    + vm_compute. reflexivity.
    + discriminate.
Defined.

(** *** The entry that is returned *)

(** X11.  The entry that [ext2_readdir] returns.  When the 8 bytes of the header
    at [offset] and the [entry_size] bytes that the header announces lie
    inside the file, within two blocks or from a block boundary on, the
    entry returned is made of the [entry_size] bytes of the directory from
    [offset] on. *)
Theorem readdir_returns_entry inode i w content offset :
  let bs := block_size w in
  let entry_size := le (firstn 2 (skipn 4 (file_bytes content bs offset 8))) in
  ext2_get_inode inode w = Ok (Some i) w ->
  0 < bs -> 0 <= offset -> i_size_lower i < 2 ^ 32 ->
  offset + 8 <= i_size_lower i ->
  0 < entry_size -> offset + entry_size <= i_size_lower i ->
  offset mod bs = 0 \/ (offset + Z.max 8 entry_size) / bs <= offset / bs + 1 ->
  (forall k, offset / bs <= k <= (offset + Z.max 8 entry_size) / bs ->
             holds_block i w content k) ->
  ext2_readdir inode offset w
  = Ok (Some (file_bytes content bs offset entry_size)) w.
Proof.
  intros bs es Hi Hbs Hoff Hfs H8 Hes Hend Hshape Hblocks.
  assert (Hmono : forall n, 0 <= n <= Z.max 8 es ->
            offset / bs <= (offset + n) / bs <= (offset + Z.max 8 es) / bs).
  { intros n Hn. split; apply Z.div_le_mono; lia. }
  assert (Hes16 : es < 2 ^ 16).
  { unfold es. set (l := skipn 4 _).
    destruct l as [|x [|y t]]; cbn [firstn le]; unfold u8;
      [lia | pose proof (Z.mod_pos_bound x (2 ^ 8)); lia |].
    pose proof (Z.mod_pos_bound x (2 ^ 8)).
    pose proof (Z.mod_pos_bound y (2 ^ 8)). lia. }
  assert (Hread : forall n buf,
            0 < n <= Z.max 8 es -> offset + n <= i_size_lower i ->
            length buf = Z.to_nat n ->
            ext2_read inode offset buf n w
            = Ok (n, file_bytes content bs offset n) w).
  { intros n buf Hn Hfit Hlen.
    pose proof (read_inode_trimmed i w content offset buf n) as R.
    cbv zeta in R. fold bs in R.
    replace (Z.min (offset + n) (i_size_lower i)) with (offset + n) in R
      by lia.
    replace (offset + n - offset) with n in R by lia.
    rewrite (skipn_all2 buf), app_nil_r in R by lia.
    specialize (Hmono n ltac:(lia)).
    unfold ext2_read. rewrite (bind_ok _ _ _ _ _ Hi).
    unfold file_bytes. apply R.
    - exact Hbs.
    - lia.
    - lia.
    - lia.
    - lia.
    - destruct Hshape as [Hz|Htwo]; [left; exact Hz | right; lia].
    - intros k Hk _. apply Hblocks. lia. }
  unfold ext2_readdir, sizeof_directory_entry.
  unfold bind at 1. unfold kmalloc at 1. unfold gets at 1.
  unfold bind at 1.
  rewrite (Hread 8) by (try apply fresh_length; lia).
  replace (8 =? 0) with false by reflexivity.
  assert (Hl8 : length (file_bytes content bs offset 8) = 8%nat).
  { rewrite file_bytes_length; try lia.
    intros k Hk. apply Hblocks. specialize (Hmono 8 ltac:(lia)). lia. }
  unfold bind at 1. unfold load, de_entry_size.
  unfold sub.
  replace (in_range (file_bytes content bs offset 8) 4 2) with true
    by (symmetry; apply in_range_spec; rewrite Hl8; lia).
  cbn [option_map must ret]. change (Z.to_nat 2) with 2%nat.
  change (Z.to_nat 4) with 4%nat. fold es.
  unfold bind at 1. unfold kmalloc at 1. unfold gets at 1.
  unfold bind at 1.
  rewrite (Hread es) by (try apply fresh_length; lia).
  replace (es =? 0) with false by (symmetry; apply Z.eqb_neq; lia).
  reflexivity.
Qed.

Lemma readdir_returns_entry_witness :
  let content := direct_content volume root_dir in
  let entry_size :=
    le (firstn 2 (skipn 4 (file_bytes content (block_size volume) 24 8))) in
  entry_size = 16 /\
  ext2_readdir 2 24 volume
  = Ok (Some (file_bytes content (block_size volume) 24 entry_size)) volume.
Proof.
  cbv zeta. split; [by_computation|].
  refine (readdir_returns_entry 2 root_dir volume
            (direct_content volume root_dir) 24 volume_inode_2
            _ _ _ _ _ _ _ _); try by_computation.
  - right. by_computation.
  - intros k Hk.
    change (0 <= k <= 0) in Hk.
    assert (Hc : k = 0) by lia. subst k.
    apply (direct_blocks_hold root_dir volume 0 6 volume_root_block);
      by_computation.
Defined.

(** *** What the read paths leave alone *)

Lemma world_eta w : set_console (console w) w = w.
Proof. destruct w. reflexivity. Qed.

Lemma only_reports_pure {A} (c : M A) : pure c -> only_reports c.
Proof.
  intros Hp w a w' H. apply Hp in H. subst w'. exists O.
  cbn [repeat]. rewrite app_nil_r. symmetry. apply world_eta.
Qed.

Lemma only_reports_bind {A B} (c : M A) (k : A -> M B) :
  only_reports c -> (forall a, only_reports (k a)) -> only_reports (bind c k).
Proof.
  intros Hc Hk w b w'' H. apply bind_inv in H as (a & w' & H1 & H2).
  apply Hc in H1 as (n1 & E1). apply Hk in H2 as (n2 & E2). subst.
  exists (n1 + n2)%nat. unfold set_console. cbn [console].
  rewrite repeat_app, app_assoc. reflexivity.
Qed.

Lemma only_reports_invalid :
  only_reports (printf "[EXT2] Invalid inode block\n" []).
Proof.
  intros w a w' H. apply printf_inv in H. subst w'. exists 1%nat.
  reflexivity.
Qed.

Ltac reporting :=
  repeat match goal with
    | |- only_reports (printf _ _) => apply only_reports_invalid
    | |- only_reports ?c =>
        apply only_reports_pure; solve [structured]
    | |- only_reports (bind _ _) => apply only_reports_bind; [| intros ?]
    | |- only_reports (match ?x with _ => _ end) => destruct x
    | |- _ => progress cbv zeta
    end.

Lemma only_reports_read_inode_block i n buf :
  only_reports (ext2_read_inode_block i n buf).
Proof. unfold ext2_read_inode_block. reporting. Qed.

Lemma only_reports_read_blocks count i sb so :
  forall bn buf tmp, only_reports (ext2_read_blocks count i sb so bn buf tmp).
Proof.
  induction count as [|count IH]; intros bn buf tmp; cbn [ext2_read_blocks].
  - apply only_reports_pure. structured.
  - apply only_reports_bind; [apply only_reports_pure; structured|].
    intros bs. apply only_reports_bind; [|intros [b t]; apply IH].
    destruct (bn =? sb);
      (apply only_reports_bind; [apply only_reports_read_inode_block|]);
      intros t; apply only_reports_pure; structured.
Qed.

Lemma only_reports_read_inode i offset buf size :
  only_reports (ext2_read_inode i offset buf size).
Proof.
  unfold ext2_read_inode.
  destruct (_ || _); [apply only_reports_pure; structured|].
  do 6 (apply only_reports_bind; [apply only_reports_pure; structured|];
        intros ?).
  destruct (_ =? _).
  - apply only_reports_bind; [apply only_reports_read_inode_block|].
    intros t. apply only_reports_pure. structured.
  - apply only_reports_bind; [apply only_reports_read_blocks|].
    intros [b t]. apply only_reports_bind; [|intros; apply only_reports_pure; structured].
    destruct (negb _); [|apply only_reports_pure; structured].
    apply only_reports_bind; [apply only_reports_read_inode_block|].
    intros t'. apply only_reports_pure. structured.
Qed.

Lemma only_reports_read inode offset buf size :
  only_reports (ext2_read inode offset buf size).
Proof.
  unfold ext2_read.
  apply only_reports_bind; [apply only_reports_pure; auto with ext2|].
  intros [i|]; [apply only_reports_read_inode|].
  apply only_reports_pure. structured.
Qed.

Lemma pure_open_loop fuel :
  forall path n p block entry, pure (ext2_open_loop fuel path n p block entry).
Proof.
  induction fuel as [|fuel IH]; intros path n p block entry;
    cbn [ext2_open_loop].
  - structured. unfold pure, out_of_fuel. intros; discriminate.
  - structured; apply IH.
Qed.


(** ** Block allocation *)

Lemma allocate_loop_spec fuel :
  forall j bitmap tmp w r w',
    length tmp = Z.to_nat (block_size w) ->
    ext2_allocate_block_loop fuel j bitmap tmp w = Ok r w' ->
    (r = 0 /\ device w' = device w) \/ exists B, marked_on_device w' B r.
Proof.
  induction fuel as [|fuel IH]; intros j bitmap tmp w r w' Hlen H;
    cbn [ext2_allocate_block_loop] in H;
    pure_step H; pure_step H;
    (destruct (negb _);
     [apply ret_inv in H as [-> ->]; left; auto|]);
    [discriminate H|].
  rename a into sb, a0 into nbg.
  pure_step H. pure_step H. cbv zeta in H.
  pure_step H. pure_step H. pure_step H.
  apply bind_inv in H as ([bitmap' tmp'] & w1 & Hre & H).
  assert (Hkeep : device w1 = device w /\ block_size w1 = block_size w
                  /\ length tmp' = length tmp).
  { destruct (_ || _) in Hre.
    - apply bind_inv in Hre as (u & w0 & Hp & Hre).
      assert (Hw0 : device w0 = device w /\ block_size w0 = block_size w).
      { destruct (negb _) in Hp.
        - pure_step Hp. apply printf_inv in Hp. subst w0. auto.
        - apply ret_inv in Hp as [_ ->]. auto. }
      apply bind_inv in Hre as (t & w2 & Hrd & Hre).
      apply read_block_length in Hrd as [-> Hl].
      apply ret_inv in Hre as [Hpair ->]. inversion Hpair. subst.
      destruct Hw0. auto.
    - apply ret_inv in Hre as [Hpair ->]. inversion Hpair. auto. }
  destruct Hkeep as (Hdev & Hbs & Hl).
  apply bind_inv in H as (byte & w2 & Hload & H).
  apply must_inv in Hload as [Hload ->].
  destruct (Z.land _ _ =? 0).
  - right.
    apply bind_inv in H as (u & w2 & Hp & H). apply printf_inv in Hp.
    apply bind_inv in H as (tmp2 & w3 & Hst & H).
    apply must_inv in Hst as [Hst ->].
    apply bind_inv in H as (u' & w3 & Hwr & H).
    apply ret_inv in H as [-> ->]. destruct u'.
    exists (u32 (bitmap' - 1)).
    apply (write_back_marks tmp' j byte (u32 (bitmap' - 1)) w2 tmp2 w3);
      auto.
    subst w2. unfold printed, set_console. cbn [block_size].
    rewrite Hbs, Hl. exact Hlen.
  - apply IH in H; [|rewrite Hbs, Hl; exact Hlen].
    destruct H as [[-> Hd]|H]; [left; split; congruence | right; exact H].
Qed.

Lemma allocate_block_spec w j w' :
  ext2_allocate_block w = Ok j w' -> allocation w j w'.
Proof.
  intros H. split; [exact H|]. unfold ext2_allocate_block in H.
  pure_step H. inversion E. subst a.
  apply bind_inv in H as (tmp & w1 & Hk & H).
  apply kmalloc_length in Hk as [Hl ->].
  pure_step H. pure_step H. cbv zeta in H.
  eapply allocate_loop_spec; eauto.
Qed.

(** C6.  On [small_groups] the scan leaves group 0 at index 256 with the
    bitmap block of group 0 still loaded; the bit it finds clear there is
    set in the copy and the copy is written to the block before the bitmap
    of group 1.  The bitmap block of group 0 is not changed, and the next
    call returns block 256 again. *)
Theorem allocate_block_repeats :
  match ext2_allocate_block small_groups with
  | Ok j w =>
      j = 256 /\
      match ext2_allocate_block w with
      | Ok j' _ => j' = 256
      | _ => False
      end
  | _ => False
  end.
Proof. vm_compute. split; reflexivity. Qed.

(** On [full_groups] the scan finds group 0 full and enters group 1 at index
    8192, where it loads the bitmap block of group 1 and tests bit 0 of byte
    8192 / 8 = 1024 of the buffer of 1024 bytes: the index into the buffer
    is not taken relative to the group, and the access is outside the
    buffer. *)
Lemma allocate_block_overruns :
  num_block_groups full_groups = 2 /\
  block_of full_groups 3 = Some (repeat 255 1024) /\
  block_of full_groups 5 = Some (repeat 0 1024) /\
  ext2_allocate_block full_groups = Fault.
Proof. conjuncts; vm_compute; reflexivity. Qed.

(** *** The allocator leaves the description of the volume alone *)

Lemma same_volume_refl w : same_volume w w.
Proof. unfold same_volume. auto. Qed.

Lemma same_volume_trans w1 w2 w3 :
  same_volume w1 w2 -> same_volume w2 w3 -> same_volume w1 w3.
Proof.
  unfold same_volume. intros (A1 & A2 & A3 & A4) (B1 & B2 & B3 & B4).
  conjuncts; congruence.
Qed.

Lemma keeps_pure {A} (c : M A) : pure c -> keeps_volume c.
Proof.
  intros Hp w a w' H. apply Hp in H. subst. apply same_volume_refl.
Qed.

Lemma keeps_bind {A B} (c : M A) (k : A -> M B) :
  keeps_volume c -> (forall a, keeps_volume (k a)) -> keeps_volume (bind c k).
Proof.
  intros Hc Hk w b w'' H. apply bind_inv in H as (a & w' & H1 & H2).
  eapply same_volume_trans; [eapply Hc | eapply Hk]; eauto.
Qed.

Lemma keeps_printf fmt args : keeps_volume (printf fmt args).
Proof.
  intros w a w' H. apply printf_inv in H. subst.
  unfold same_volume. conjuncts; reflexivity.
Qed.

Lemma keeps_write_block b buf : keeps_volume (ext2_write_block b buf).
Proof.
  unfold ext2_write_block.
  apply keeps_bind; [apply keeps_pure; unfold the_device; structural|].
  intros dev. apply keeps_bind; [apply keeps_pure; structural|].
  intros bs. apply keeps_bind; [apply keeps_pure; apply pure_memcpy|].
  intros dev' w a w' H. apply modify_inv in H. subst.
  unfold same_volume. conjuncts; reflexivity.
Qed.

Lemma keeps_allocate_loop fuel :
  forall j bitmap tmp, keeps_volume (ext2_allocate_block_loop fuel j bitmap tmp).
Proof.
  induction fuel as [|fuel IH]; intros j bitmap tmp;
    cbn [ext2_allocate_block_loop];
    (apply keeps_bind; [apply keeps_pure; auto with ext2|]); intros sb;
    (apply keeps_bind; [apply keeps_pure; structural|]); intros nbg;
    (destruct (negb _); [apply keeps_pure; structural|]).
  - intros w a w' H. discriminate H.
  - apply keeps_bind; [apply keeps_pure; structural|]. intros bs.
    apply keeps_bind; [apply keeps_pure; auto with ext2|]. intros gds.
    cbv zeta.
    apply keeps_bind; [apply keeps_pure; auto with ext2|]. intros in_group.
    apply keeps_bind; [apply keeps_pure; structured|]. intros bm.
    apply keeps_bind; [apply keeps_pure; auto with ext2|]. intros in_block.
    apply keeps_bind.
    { destruct (_ || _); [|apply keeps_pure; structural].
      apply keeps_bind.
      - destruct (negb _); [|apply keeps_pure; structural].
        apply keeps_bind; [apply keeps_pure; auto with ext2|].
        intros g. apply keeps_printf.
      - intros u. apply keeps_pure. structured. }
    intros [bm' tmp'].
    apply keeps_bind; [apply keeps_pure; structural|]. intros byte.
    destruct (_ =? 0); [|apply IH].
    apply keeps_bind; [apply keeps_printf|]. intros u.
    apply keeps_bind; [apply keeps_pure; structural|]. intros tmp2.
    apply keeps_bind; [apply keeps_write_block|]. intros u'.
    apply keeps_pure. structural.
Qed.

Lemma keeps_allocate : keeps_volume ext2_allocate_block.
Proof.
  unfold ext2_allocate_block.
  apply keeps_bind; [apply keeps_pure; structural|]. intros bs.
  apply keeps_bind; [apply keeps_pure; auto with ext2|]. intros tmp.
  apply keeps_bind; [apply keeps_pure; auto with ext2|]. intros sb.
  apply keeps_bind; [apply keeps_pure; structural|]. intros nbg.
  apply keeps_allocate_loop.
Qed.

Lemma allocations_same_volume w js w' :
  allocations w js w' -> same_volume w w'.
Proof.
  induction 1 as [w|w j w1 js w2 [Ha _] _ IH].
  - apply same_volume_refl.
  - eapply same_volume_trans; [eapply keeps_allocate; eauto | exact IH].
Qed.

Lemma single_bitmap_same w w' :
  same_volume w w' -> single_bitmap w' = single_bitmap w.
Proof.
  intros (H1 & H2 & H3 & H4). unfold single_bitmap.
  rewrite H1, H2, H3, H4. reflexivity.
Qed.

(** *** The allocator on a volume with a single bitmap block *)

Section SingleBitmap.

Variables (sb : superblock_t) (gd : group_descriptor_t)
  (rest : list group_descriptor_t) (bs : Z).

Let bpg := sb_blocks_per_group sb.
Let first := sb_first_available_block sb.
Let B := gd_block_bitmap gd.

Hypothesis bpg_range : 0 < bpg <= 8 * bs.
Hypothesis bs_range : 8 * bs < 2 ^ 32.
Hypothesis first_range : 0 <= first.
Hypothesis B_range : 0 <= B < 2 ^ 32.

(** The file-scope variables describe the volume. *)
Let mounted (w : world) : Prop :=
  superblock w = Some sb /\ group_descriptors w = Some (gd :: rest) /\
  num_block_groups w = 1 /\ block_size w = bs.

(** The found branch of the scan, for index [j], with [tmp] loaded and
    [bm] the value of [bitmap]. *)
Let found (j bm : Z) (tmp : list Z) (byte : Z) : M Z :=
  printf "[ext2] alloc %d, tmp was %b, at bitmap %d\n"
    [j; byte; u32 (bm - 1)] ;;
  tmp <- must (store8 tmp (j / 8) (Z.lor byte (Z.shiftl 1 (j mod 8)))) ;;
  ext2_write_block (u32 (bm - 1)) tmp ;;
  ret j.

Lemma scan_end fuel j bm tmp w :
  mounted w -> bpg <= j ->
  ext2_allocate_block_loop fuel j bm tmp w = Ok 0 w.
Proof.
  intros (Hsb & Hgd & Hn & Hbs) Hj.
  destruct fuel; cbn [ext2_allocate_block_loop];
    unfold the_superblock, bind, gets; rewrite Hsb; cbn [must ret];
    rewrite Hn, Z.mul_1_r; fold bpg; rewrite u32_small by lia;
    (replace (j <? bpg) with false by (symmetry; apply Z.ltb_ge; lia));
    reflexivity.
Qed.

Lemma scan_step fuel j bm tmp w :
  mounted w -> first < j < bpg ->
  ext2_allocate_block_loop (S fuel) j bm tmp w
  = (byte <- must (load 1 tmp (j / 8)) ;;
     if Z.land byte (Z.shiftl 1 (j mod 8)) =? 0
     then found j bm tmp byte
     else ext2_allocate_block_loop fuel (j + 1) bm tmp) w.
Proof.
  intros (Hsb & Hgd & Hn & Hbs) Hj.
  cbn [ext2_allocate_block_loop].
  unfold the_superblock, the_group_descriptors, mod32.
  unfold bind at 1. unfold bind at 1. unfold gets at 1.
  rewrite Hsb. cbn [must ret].
  unfold bind at 1. unfold gets at 1. rewrite Hn, Z.mul_1_r. fold bpg.
  rewrite (u32_small bpg) by lia.
  replace (j <? bpg) with true by (symmetry; apply Z.ltb_lt; lia).
  cbn [negb].
  unfold bind at 1. unfold gets at 1. rewrite Hbs.
  unfold bind at 1. unfold bind at 1. unfold gets at 1.
  rewrite Hgd. cbn [must ret]. fold first.
  replace (bpg =? 0) with false by (symmetry; apply Z.eqb_neq; lia).
  unfold bind at 1. unfold ret at 1.
  rewrite (Z.mod_small j bpg) by lia.
  replace (j =? 0) with false by (symmetry; apply Z.eqb_neq; lia).
  replace (j =? first) with false by (symmetry; apply Z.eqb_neq; lia).
  cbn [orb].
  unfold bind at 1. unfold ret at 1.
  rewrite (u32_small (8 * bs)) by lia.
  replace (8 * bs =? 0) with false by (symmetry; apply Z.eqb_neq; lia).
  unfold bind at 1. unfold ret at 1.
  rewrite (Z.mod_small j (8 * bs)) by lia.
  replace (j =? 0) with false by (symmetry; apply Z.eqb_neq; lia).
  cbn [orb].
  unfold bind at 1. unfold ret at 1.
  rewrite (u32_small (j + 1)) by lia.
  reflexivity.
Qed.

Lemma first_step fuel bm tmp w :
  mounted w -> first < bpg -> length tmp = Z.to_nat bs ->
  ext2_allocate_block_loop (S fuel) first bm tmp w
  = match block_of w B with
    | Some loaded =>
        (byte <- must (load 1 loaded (first / 8)) ;;
         if Z.land byte (Z.shiftl 1 (first mod 8)) =? 0
         then found first (u32 (B + 1)) loaded byte
         else ext2_allocate_block_loop fuel (first + 1) (u32 (B + 1)) loaded)
          w
    | None => Fault
    end.
Proof.
  intros (Hsb & Hgd & Hn & Hbs) Hj Hlen.
  cbn [ext2_allocate_block_loop].
  unfold the_superblock, the_group_descriptors, mod32, div32.
  unfold bind at 1. unfold bind at 1. unfold gets at 1.
  rewrite Hsb. cbn [must ret].
  unfold bind at 1. unfold gets at 1. rewrite Hn, Z.mul_1_r. fold bpg.
  rewrite (u32_small bpg) by lia. fold first.
  replace (first <? bpg) with true by (symmetry; apply Z.ltb_lt; lia).
  cbn [negb].
  unfold bind at 1. unfold gets at 1. rewrite Hbs.
  unfold bind at 1. unfold bind at 1. unfold gets at 1.
  rewrite Hgd. cbn [must ret].
  replace (bpg =? 0) with false by (symmetry; apply Z.eqb_neq; lia).
  unfold bind at 1. unfold ret at 1.
  rewrite (Z.eqb_refl first), orb_true_r.
  unfold bind at 1. unfold bind at 1. unfold ret at 1.
  rewrite (Z.div_small first bpg) by lia.
  unfold bind at 1. cbn [Z.to_nat nth_error must ret]. fold B.
  rewrite (u32_small (8 * bs)) by lia.
  replace (8 * bs =? 0) with false by (symmetry; apply Z.eqb_neq; lia).
  unfold bind at 1. unfold ret at 1.
  rewrite orb_true_r. cbn [negb].
  unfold bind at 1. unfold bind at 1. unfold bind at 1. unfold ret at 1.
  rewrite read_block_eq by (rewrite Hbs; exact Hlen).
  destruct (block_of w B) as [loaded|]; [|reflexivity].
  unfold ret at 1.
  rewrite (u32_small (first + 1)) by lia.
  reflexivity.
Qed.

Lemma scan_no_fuel j bm tmp w :
  mounted w -> j < bpg ->
  ext2_allocate_block_loop 0 j bm tmp w = OutOfFuel.
Proof.
  intros (Hsb & Hgd & Hn & Hbs) Hj. cbn [ext2_allocate_block_loop].
  unfold the_superblock, bind, gets. rewrite Hsb. cbn [must ret].
  rewrite Hn, Z.mul_1_r. fold bpg. rewrite u32_small by lia.
  replace (j <? bpg) with true by (symmetry; apply Z.ltb_lt; lia).
  reflexivity.
Qed.

Lemma found_inv j bm tmp byte w r w' :
  found j bm tmp byte w = Ok r w' ->
  r = j /\
  exists tmp',
    store8 tmp (j / 8) (Z.lor byte (Z.shiftl 1 (j mod 8))) = Some tmp' /\
    ext2_write_block (u32 (bm - 1)) tmp'
      (printed "[ext2] alloc %d, tmp was %b, at bitmap %d\n"
         [j; byte; u32 (bm - 1)] w)
    = Ok tt w'.
Proof.
  unfold found. intros H.
  apply bind_inv in H as (u & w1 & Hp & H). apply printf_inv in Hp.
  apply bind_inv in H as (tmp' & w2 & Hst & H).
  apply must_inv in Hst as [Hst ->].
  apply bind_inv in H as (u' & w3 & Hwr & H).
  apply ret_inv in H as [-> ->]. destruct u'. subst w1.
  split; [reflexivity|]. exists tmp'. auto.
Qed.

(** The scan after its first iteration: it ends with 0 and the world as it
    was, or in the found branch for an index whose bit is clear in the
    block that is loaded. *)
Lemma scan_result fuel :
  forall j bm tmp w r w',
    mounted w -> first < j ->
    ext2_allocate_block_loop fuel j bm tmp w = Ok r w' ->
    (r = 0 /\ w' = w) \/
    (j <= r < bpg /\
     exists byte,
       load 1 tmp (r / 8) = Some byte /\
       Z.land byte (Z.shiftl 1 (r mod 8)) = 0 /\
       found r bm tmp byte w = Ok r w').
Proof.
  induction fuel as [|fuel IH]; intros j bm tmp w r w' Hm Hj H;
    destruct (Z.lt_ge_cases j bpg) as [Hlt|Hge];
    try (rewrite scan_end in H by assumption;
         inversion H; left; auto; fail).
  - rewrite scan_no_fuel in H by assumption. discriminate H.
  - rewrite scan_step in H by (auto; lia).
    apply bind_inv in H as (byte & w1 & Hl & H).
    apply must_inv in Hl as [Hl ->].
    destruct (Z.land byte _ =? 0) eqn:Hz.
    + right. apply Z.eqb_eq in Hz.
      pose proof (found_inv _ _ _ _ _ _ _ H) as [-> _].
      split; [lia|]. exists byte. auto.
    + apply IH in H; [|assumption|lia].
      destruct H as [H|(Hr & H)]; [left; exact H | right].
      split; [lia | exact H].
Qed.

(** What the found branch does to the marks of the bitmap block. *)
Lemma found_effect w loaded r byte w' :
  mounted w ->
  block_of w B = Some loaded ->
  load 1 loaded (r / 8) = Some byte ->
  Z.land byte (Z.shiftl 1 (r mod 8)) = 0 ->
  found r (u32 (B + 1)) loaded byte w = Ok r w' ->
  mounted w' /\
  ~ marked_on_device w B r /\
  marked_on_device w' B r /\
  (forall i, marked_on_device w B i -> marked_on_device w' B i).
Proof.
  intros (Hsb & Hgd & Hn & Hbs) Hblk Hl Hz H.
  apply found_inv in H as (_ & tmp' & Hst & Hwr).
  rewrite u32_pred_succ in Hwr by exact B_range.
  set (w1 := printed _ _ w) in Hwr.
  assert (Hdev : exists dev, device w = Some dev).
  { unfold block_of in Hblk. destruct (device w) as [dev|]; [|discriminate].
    eauto. }
  destruct Hdev as (dev & Hdev).
  destruct (write_back_bytes w1 B dev loaded _ _ tmp' w' Hdev Hblk Hst Hwr)
    as (dev' & -> & Hlen & Hk & Hoff & Hfit & Hnth).
  change (block_size w1) with (block_size w) in *.
  assert (Hb : forall i, 0 <= i mod 8 < 8)
    by (intros i; apply Z.mod_pos_bound; lia).
  assert (Hbyte : byte = u8 (nth (Z.to_nat (u32 (B * block_size w) + r / 8))
                                dev 0)).
  { rewrite load1_nth in Hl by (apply load1_inv in Hl; exact Hl).
    inversion Hl. f_equal.
    unfold block_of in Hblk. rewrite Hdev in Hblk.
    apply (nth_sub _ _ _ _ _ Hblk). lia. }
  assert (Hclear : Z.testbit byte (r mod 8) = false)
    by (apply land_bit; [apply Hb | exact Hz]).
  split; [exact (conj Hsb (conj Hgd (conj Hn Hbs)))|]. conjuncts.
  - intros Hm. apply (marked_by_nth w B r dev Hdev) in Hm; [|lia].
    rewrite Hbyte, testbit_u8 in Hclear by apply Hb. congruence.
  - apply (marked_by_nth (set_device (Some dev') w1) B r dev' eq_refl).
    + cbn [block_size set_device]. change (block_size w1) with (block_size w).
      lia.
    + cbn [block_size set_device]. change (block_size w1) with (block_size w).
      rewrite Hnth, Nat.eqb_refl, testbit_u8 by apply Hb.
      rewrite Z.lor_spec, Z.shiftl_spec, Z.sub_diag by apply Hb.
      apply orb_true_r.
  - intros i Hm.
    destruct (marked_in_range _ _ _ Hm) as (dev0 & Hd0 & Hr).
    rewrite Hdev in Hd0. inversion Hd0. subst dev0.
    apply (marked_by_nth w B i dev Hdev) in Hm; [|exact Hr].
    apply (marked_by_nth (set_device (Some dev') w1) B i dev' eq_refl);
      cbn [block_size set_device]; change (block_size w1) with (block_size w);
      [lia|].
    rewrite Hnth.
    destruct (Nat.eqb_spec (Z.to_nat (u32 (B * block_size w) + i / 8))
                (Z.to_nat (u32 (B * block_size w) + r / 8))) as [E|_];
      [|exact Hm].
    rewrite testbit_u8, Z.lor_spec by apply Hb.
    rewrite Hbyte, testbit_u8 by apply Hb.
    rewrite <- E, Hm. reflexivity.
Qed.

(** One call of the allocator on such a volume. *)
Lemma allocate_single w j w' :
  mounted w ->
  ext2_allocate_block w = Ok j w' ->
  mounted w' /\
  ((j = 0 /\ w' = w) \/
   (first <= j < bpg /\
    ~ marked_on_device w B j /\
    marked_on_device w' B j /\
    (forall i, marked_on_device w B i -> marked_on_device w' B i))).
Proof.
  intros Hm H. pose proof Hm as (Hsb & Hgd & Hn & Hbs).
  unfold ext2_allocate_block in H.
  pure_step H. inversion E. subst a.
  apply bind_inv in H as (tmp & w1 & Hk & H).
  apply kmalloc_length in Hk as [Hl ->].
  unfold the_superblock in H. unfold bind at 1 in H. unfold bind at 1 in H.
  unfold gets at 1 in H. rewrite Hsb in H. cbn [must ret] in H.
  unfold bind at 1 in H. unfold gets at 1 in H.
  rewrite Hn, Z.mul_1_r in H. fold bpg first in H.
  rewrite (u32_small bpg) in H by lia.
  destruct (Z.lt_ge_cases first bpg) as [Hlt|Hge].
  2:{ rewrite scan_end in H by (auto; lia). inversion H. subst.
      split; [exact Hm | left; auto]. }
  replace (Z.to_nat (bpg - first))
    with (S (Z.to_nat (bpg - first - 1))) in H by lia.
  rewrite first_step in H by (auto; lia).
  destruct (block_of w B) as [loaded|] eqn:Hblk; [|discriminate H].
  apply bind_inv in H as (byte & w1 & Hld & H).
  apply must_inv in Hld as [Hld ->].
  destruct (Z.land byte _ =? 0) eqn:Hz.
  - apply Z.eqb_eq in Hz.
    pose proof (found_inv _ _ _ _ _ _ _ H) as [-> _].
    destruct (found_effect _ _ _ _ _ Hm Hblk Hld Hz H) as (Hm' & Hrest).
    split; [exact Hm' | right]. split; [lia | exact Hrest].
  - apply scan_result in H; [|exact Hm|lia].
    destruct H as [[-> ->]|(Hr & byte' & Hld' & Hz' & H)].
    + split; [exact Hm | left; auto].
    + destruct (found_effect _ _ _ _ _ Hm Hblk Hld' Hz' H) as (Hm' & Hrest).
      split; [exact Hm' | right]. split; [lia | exact Hrest].
Qed.

Lemma land_set x k :
  0 <= k -> Z.testbit x k = true -> (Z.land x (Z.shiftl 1 k) =? 0) = false.
Proof.
  intros Hk Hx. apply Z.eqb_neq. intros H.
  apply land_bit in H; [congruence | exact Hk].
Qed.

(** The scan over a block in which every bit it looks at is set. *)
Lemma scan_all_set fuel :
  forall j bm tmp w,
    mounted w -> first < j -> fuel = Z.to_nat (bpg - j) ->
    (forall i, j <= i < bpg ->
               exists byte, load 1 tmp (i / 8) = Some byte /\
                            Z.testbit byte (i mod 8) = true) ->
    ext2_allocate_block_loop fuel j bm tmp w = Ok 0 w.
Proof.
  induction fuel as [|fuel IH]; intros j bm tmp w Hm Hj Hf Hset.
  - apply scan_end; [exact Hm | lia].
  - rewrite scan_step by (auto; lia).
    destruct (Hset j) as (byte & Hl & Ht); [lia|].
    unfold bind. rewrite Hl. cbn [must ret].
    rewrite land_set by (auto; apply Z.mod_pos_bound; lia).
    apply IH; auto; try lia. intros i Hi. apply Hset. lia.
Qed.

(** On a volume whose bitmap has every bit from the first available block
    on set, the allocator returns 0 and changes nothing. *)
Lemma allocate_all_set w loaded :
  mounted w ->
  block_of w B = Some loaded ->
  (forall i, first <= i < bpg ->
             exists byte, load 1 loaded (i / 8) = Some byte /\
                          Z.testbit byte (i mod 8) = true) ->
  ext2_allocate_block w = Ok 0 w.
Proof.
  intros Hm Hblk Hset. pose proof Hm as (Hsb & Hgd & Hn & Hbs).
  unfold ext2_allocate_block, the_superblock, kmalloc.
  unfold bind, gets. rewrite Hsb. cbn [must ret].
  rewrite Hn, Z.mul_1_r. fold bpg first. rewrite (u32_small bpg) by lia.
  destruct (Z.lt_ge_cases first bpg) as [Hlt|Hge].
  2:{ apply scan_end; [exact Hm | exact Hge]. }
  replace (Z.to_nat (bpg - first))
    with (S (Z.to_nat (bpg - first - 1))) by lia.
  rewrite first_step; [|exact Hm|exact Hlt|rewrite Hbs; apply fresh_length].
  rewrite Hblk.
  destruct (Hset first) as (byte & Hl & Ht); [lia|].
  unfold bind. rewrite Hl. cbn [must ret].
  rewrite land_set by (auto; apply Z.mod_pos_bound; lia).
  apply scan_all_set; auto; try lia.
  intros i Hi. apply Hset. lia.
Qed.

(** The scan that ends with 0 from an index after 0 has found every bit it
    looked at set. *)
Lemma scan_exhausted fuel :
  forall j bm tmp w w',
    mounted w -> first < j ->
    ext2_allocate_block_loop fuel j bm tmp w = Ok 0 w' ->
    forall i, j <= i < bpg ->
              exists byte, load 1 tmp (i / 8) = Some byte /\
                           Z.testbit byte (i mod 8) = true.
Proof.
  induction fuel as [|fuel IH]; intros j bm tmp w w' Hm Hj H i Hi.
  - rewrite scan_no_fuel in H by (auto; lia). discriminate H.
  - rewrite scan_step in H by (auto; lia).
    apply bind_inv in H as (byte & w1 & Hl & H).
    apply must_inv in Hl as [Hl ->].
    destruct (Z.land byte _ =? 0) eqn:Hz.
    + apply found_inv in H as [H _]. lia.
    + destruct (Z.eq_dec i j) as [->|Hne].
      * exists byte. split; [exact Hl|].
        destruct (Z.testbit byte (j mod 8)) eqn:Ht; [reflexivity|].
        apply land_not_bit in Ht; [|apply Z.mod_pos_bound; lia].
        apply Z.eqb_neq in Hz. contradiction.
      * apply (IH (j + 1) bm tmp w w'); auto; lia.
Qed.

(** The allocator that reports exhaustion on a volume whose first available
    block is not block 0 has found the bitmap full. *)
Lemma allocate_exhausted w w' :
  mounted w -> 0 < first ->
  ext2_allocate_block w = Ok 0 w' ->
  forall i, first <= i < bpg -> marked_on_device w B i.
Proof.
  intros Hm Hf H i Hi. pose proof Hm as (Hsb & Hgd & Hn & Hbs).
  unfold ext2_allocate_block in H.
  pure_step H. inversion E. subst a.
  apply bind_inv in H as (tmp & w1 & Hk & H).
  apply kmalloc_length in Hk as [Hl ->].
  unfold the_superblock in H. unfold bind at 1 in H. unfold bind at 1 in H.
  unfold gets at 1 in H. rewrite Hsb in H. cbn [must ret] in H.
  unfold bind at 1 in H. unfold gets at 1 in H.
  rewrite Hn, Z.mul_1_r in H. fold bpg first in H.
  rewrite (u32_small bpg) in H by lia.
  replace (Z.to_nat (bpg - first))
    with (S (Z.to_nat (bpg - first - 1))) in H by lia.
  rewrite first_step in H by (auto; lia).
  destruct (block_of w B) as [loaded|] eqn:Hblk; [|discriminate H].
  apply bind_inv in H as (byte & w1 & Hld & H).
  apply must_inv in Hld as [Hld ->].
  assert (Hset : exists byte', load 1 loaded (i / 8) = Some byte' /\
                               Z.testbit byte' (i mod 8) = true).
  { destruct (Z.land byte _ =? 0) eqn:Hz.
    - apply found_inv in H as [H _]. lia.
    - destruct (Z.eq_dec i first) as [->|Hne].
      + exists byte. split; [exact Hld|].
        destruct (Z.testbit byte (first mod 8)) eqn:Ht; [reflexivity|].
        apply land_not_bit in Ht; [|apply Z.mod_pos_bound; lia].
        apply Z.eqb_neq in Hz. contradiction.
      + apply (scan_exhausted _ _ _ _ _ _ Hm) with (i := i) in H; auto; lia. }
  destruct Hset as (byte' & Hl' & Ht').
  exact (load_marked w B i loaded byte' Hblk Hl' Ht').
Qed.

(** The scan passes set bits only: when it ends at [r], every bit from
    the index it started at up to [r] is set. *)
Lemma scan_lowest fuel :
  forall j bm tmp w r w',
    mounted w -> first < j ->
    ext2_allocate_block_loop fuel j bm tmp w = Ok r w' ->
    forall i, j <= i < r ->
              exists byte, load 1 tmp (i / 8) = Some byte /\
                           Z.testbit byte (i mod 8) = true.
Proof.
  induction fuel as [|fuel IH]; intros j bm tmp w r w' Hm Hj H i Hi;
    destruct (Z.lt_ge_cases j bpg) as [Hlt|Hge];
    try (rewrite scan_end in H by assumption; inversion H; lia).
  - rewrite scan_no_fuel in H by assumption. discriminate H.
  - rewrite scan_step in H by (auto; lia).
    apply bind_inv in H as (byte & w1 & Hl & H).
    apply must_inv in Hl as [Hl ->].
    destruct (Z.land byte _ =? 0) eqn:Hz.
    + apply found_inv in H as [H _]. lia.
    + destruct (Z.eq_dec i j) as [->|Hne].
      * exists byte. split; [exact Hl|].
        destruct (Z.testbit byte (j mod 8)) eqn:Ht; [reflexivity|].
        apply land_not_bit in Ht; [|apply Z.mod_pos_bound; lia].
        apply Z.eqb_neq in Hz. contradiction.
      * apply (IH (j + 1) bm tmp w r w'); auto; lia.
Qed.

(** The block that the allocator returns is the lowest free one. *)
Lemma allocate_lowest w j w' :
  mounted w ->
  ext2_allocate_block w = Ok j w' ->
  forall i, first <= i < j -> marked_on_device w B i.
Proof.
  intros Hm H i Hi. pose proof Hm as (Hsb & Hgd & Hn & Hbs).
  unfold ext2_allocate_block in H.
  pure_step H. inversion E. subst a.
  apply bind_inv in H as (tmp & w1 & Hk & H).
  apply kmalloc_length in Hk as [Hl ->].
  unfold the_superblock in H. unfold bind at 1 in H. unfold bind at 1 in H.
  unfold gets at 1 in H. rewrite Hsb in H. cbn [must ret] in H.
  unfold bind at 1 in H. unfold gets at 1 in H.
  rewrite Hn, Z.mul_1_r in H. fold bpg first in H.
  rewrite (u32_small bpg) in H by lia.
  destruct (Z.lt_ge_cases first bpg) as [Hlt|Hge].
  2:{ rewrite scan_end in H by (auto; lia). inversion H. lia. }
  replace (Z.to_nat (bpg - first))
    with (S (Z.to_nat (bpg - first - 1))) in H by lia.
  rewrite first_step in H by (auto; lia).
  destruct (block_of w B) as [loaded|] eqn:Hblk; [|discriminate H].
  apply bind_inv in H as (byte & w1 & Hld & H).
  apply must_inv in Hld as [Hld ->].
  assert (Hset : exists byte', load 1 loaded (i / 8) = Some byte' /\
                               Z.testbit byte' (i mod 8) = true).
  { destruct (Z.land byte _ =? 0) eqn:Hz.
    - apply found_inv in H as [H _]. lia.
    - destruct (Z.eq_dec i first) as [->|Hne].
      + exists byte. split; [exact Hld|].
        destruct (Z.testbit byte (first mod 8)) eqn:Ht; [reflexivity|].
        apply land_not_bit in Ht; [|apply Z.mod_pos_bound; lia].
        apply Z.eqb_neq in Hz. contradiction.
      + apply (scan_lowest _ _ _ _ _ _ _ Hm) with (i := i) in H; auto; lia. }
  destruct Hset as (byte' & Hl' & Ht').
  exact (load_marked w B i loaded byte' Hblk Hl' Ht').
Qed.

(** What the found branch does to the bytes of the device. *)
Lemma found_bytes w dev loaded r byte w' :
  mounted w ->
  device w = Some dev ->
  block_of w B = Some loaded ->
  load 1 loaded (r / 8) = Some byte ->
  found r (u32 (B + 1)) loaded byte w = Ok r w' ->
  exists dev',
    device w' = Some dev' /\ length dev' = length dev /\
    load 1 dev (u32 (B * bs) + r / 8) = Some byte /\
    forall a : nat,
      nth a dev' 0
      = if (a =? Z.to_nat (u32 (B * bs) + r / 8))%nat
        then u8 (Z.lor byte (Z.shiftl 1 (r mod 8)))
        else nth a dev 0.
Proof.
  intros (Hsb & Hgd & Hn & Hbs) Hdev Hblk Hl H.
  apply found_inv in H as (_ & tmp' & Hst & Hwr).
  rewrite u32_pred_succ in Hwr by exact B_range.
  set (w1 := printed _ _ w) in Hwr.
  destruct (write_back_bytes w1 B dev loaded _ _ tmp' w' Hdev Hblk Hst Hwr)
    as (dev' & -> & Hlen & Hk & Hoff & Hfit & Hnth).
  change (block_size w1) with (block_size w) in *. rewrite Hbs in *.
  exists dev'. conjuncts; [reflexivity | exact Hlen | | exact Hnth].
  unfold block_of in Hblk. rewrite Hdev, Hbs in Hblk.
  unfold load in *.
  destruct (sub loaded (r / 8) 1) as [one|] eqn:Eo; [|discriminate].
  rewrite (sub_sub _ _ _ _ _ _ _ Hblk Eo). exact Hl.
Qed.

(** One call changes nothing, or one byte of the device. *)
Lemma allocate_bytes w j w' :
  mounted w ->
  ext2_allocate_block w = Ok j w' ->
  w' = w \/
  exists dev dev' byte,
    device w = Some dev /\ device w' = Some dev' /\
    length dev' = length dev /\
    load 1 dev (u32 (B * bs) + j / 8) = Some byte /\
    forall a : nat,
      nth a dev' 0
      = if (a =? Z.to_nat (u32 (B * bs) + j / 8))%nat
        then u8 (Z.lor byte (Z.shiftl 1 (j mod 8)))
        else nth a dev 0.
Proof.
  intros Hm H. pose proof Hm as (Hsb & Hgd & Hn & Hbs).
  unfold ext2_allocate_block in H.
  pure_step H. inversion E. subst a.
  apply bind_inv in H as (tmp & w1 & Hk & H).
  apply kmalloc_length in Hk as [Hl ->].
  unfold the_superblock in H. unfold bind at 1 in H. unfold bind at 1 in H.
  unfold gets at 1 in H. rewrite Hsb in H. cbn [must ret] in H.
  unfold bind at 1 in H. unfold gets at 1 in H.
  rewrite Hn, Z.mul_1_r in H. fold bpg first in H.
  rewrite (u32_small bpg) in H by lia.
  destruct (Z.lt_ge_cases first bpg) as [Hlt|Hge].
  2:{ rewrite scan_end in H by (auto; lia). inversion H. left. reflexivity. }
  replace (Z.to_nat (bpg - first))
    with (S (Z.to_nat (bpg - first - 1))) in H by lia.
  rewrite first_step in H by (auto; lia).
  destruct (block_of w B) as [loaded|] eqn:Hblk; [|discriminate H].
  assert (Hdev : exists dev, device w = Some dev).
  { unfold block_of in Hblk. destruct (device w) as [dev|]; [|discriminate].
    eauto. }
  destruct Hdev as (dev & Hdev).
  apply bind_inv in H as (byte & w1 & Hld & H).
  apply must_inv in Hld as [Hld ->].
  destruct (Z.land byte _ =? 0) eqn:Hz.
  - pose proof (found_inv _ _ _ _ _ _ _ H) as [-> _].
    destruct (found_bytes _ _ _ _ _ _ Hm Hdev Hblk Hld H) as (dev' & Hr).
    right. exists dev, dev', byte. tauto.
  - apply scan_result in H; [|exact Hm|lia].
    destruct H as [[-> ->]|(Hr & byte' & Hld' & Hz' & H)];
      [left; reflexivity|].
    destruct (found_bytes _ _ _ _ _ _ Hm Hdev Hblk Hld' H) as (dev' & Hr').
    right. exists dev, dev', byte'. tauto.
Qed.

(** One call marks no block but the one it returns. *)
Lemma allocate_frame w j w' :
  mounted w ->
  ext2_allocate_block w = Ok j w' ->
  forall i, marked_on_device w' B i -> i = j \/ marked_on_device w B i.
Proof.
  intros Hm H i Hi. pose proof Hm as (Hsb & Hgd & Hn & Hbs).
  pose proof (keeps_allocate w j w' H) as (_ & _ & _ & Hbs').
  destruct (allocate_bytes w j w' Hm H)
    as [->|(dev & dev' & byte & Hdev & Hdev' & Hlen & Hld & Hnth)];
    [right; exact Hi|].
  destruct (marked_in_range _ _ _ Hi) as (dev0 & Hd0 & Hr).
  rewrite Hdev' in Hd0. inversion Hd0. subst dev0.
  rewrite Hbs', Hbs, Hlen in Hr.
  apply (marked_by_nth w' B i dev' Hdev') in Hi;
    [|rewrite Hbs', Hbs, Hlen; exact Hr].
  rewrite Hbs', Hbs, Hnth in Hi.
  pose proof (load1_inv _ _ _ Hld) as Hrj.
  assert (Hb : forall k, 0 <= k mod 8 < 8)
    by (intros k; apply Z.mod_pos_bound; lia).
  assert (Hw : marked_on_device w B i <->
               Z.testbit (nth (Z.to_nat (u32 (B * bs) + i / 8)) dev 0)
                 (i mod 8) = true).
  { rewrite <- Hbs at 1.
    rewrite <- Hbs in Hr.
    rewrite (marked_by_nth w B i dev Hdev Hr). rewrite Hbs. reflexivity. }
  destruct (Nat.eqb_spec (Z.to_nat (u32 (B * bs) + i / 8))
              (Z.to_nat (u32 (B * bs) + j / 8))) as [E|_];
    [|right; apply Hw; exact Hi].
  assert (Ediv : i / 8 = j / 8) by lia.
  rewrite testbit_u8, Z.lor_spec in Hi by apply Hb.
  rewrite Z.shiftl_1_l, Z.pow2_bits_eqb in Hi by apply Hb.
  destruct (Z.eqb_spec (j mod 8) (i mod 8)) as [Emod|_].
  - left. rewrite (Z.div_mod i 8), (Z.div_mod j 8) by lia. lia.
  - right. apply Hw. rewrite orb_false_r in Hi.
    rewrite load1_nth in Hld by exact Hrj. inversion Hld as [Hbyte].
    rewrite <- Hbyte, testbit_u8 in Hi by apply Hb.
    rewrite E. exact Hi.
Qed.

(** A block that one call returns lies in the group. *)
Lemma allocate_in_group w j w' :
  mounted w ->
  ext2_allocate_block w = Ok j w' ->
  j <> 0 -> first <= j < bpg.
Proof.
  intros Hm H Hj.
  destruct (allocate_single w j w' Hm H) as (_ & [[-> _]|(Hr & _)]);
    [contradiction | exact Hr].
Qed.

End SingleBitmap.

Lemma single_bitmap_inv w B :
  single_bitmap w = Some B ->
  exists sb gd rest,
    (superblock w = Some sb /\ group_descriptors w = Some (gd :: rest) /\
     num_block_groups w = 1 /\ block_size w = block_size w) /\
    0 < sb_blocks_per_group sb <= 8 * block_size w /\
    8 * block_size w < 2 ^ 32 /\
    0 <= sb_first_available_block sb /\
    0 <= gd_block_bitmap gd < 2 ^ 32 /\
    B = gd_block_bitmap gd.
Proof.
  unfold single_bitmap.
  destruct (superblock w) as [sb|]; [|discriminate].
  destruct (group_descriptors w) as [[|gd rest]|]; try discriminate.
  destruct (_ && _) eqn:E; [|discriminate].
  rewrite !andb_true_iff in E.
  destruct E as ((((((E1 & E2) & E3) & E4) & E5) & E6) & E7).
  intros H. inversion H. exists sb, gd, rest.
  apply Z.eqb_eq in E1. apply Z.ltb_lt in E2, E4, E7.
  apply Z.leb_le in E3, E5, E6. conjuncts; auto.
Qed.

Lemma allocate_on_single w j w' B :
  single_bitmap w = Some B ->
  ext2_allocate_block w = Ok j w' ->
  (j = 0 /\ w' = w) \/
  (~ marked_on_device w B j /\ marked_on_device w' B j /\
   forall i, marked_on_device w B i -> marked_on_device w' B i).
Proof.
  intros Hs H.
  destruct (single_bitmap_inv _ _ Hs)
    as (sb & gd & rest & Hm & H1 & H2 & H3 & H4 & ->).
  destruct (allocate_single sb gd rest (block_size w) H1 H2 H3 H4 w j w' Hm H)
    as (_ & [Hz|(_ & Hr)]); [left; exact Hz | right; exact Hr].
Qed.

Lemma exhausted_on_single w w' B sb :
  single_bitmap w = Some B ->
  superblock w = Some sb ->
  0 < sb_first_available_block sb ->
  ext2_allocate_block w = Ok 0 w' ->
  bitmap_full w B.
Proof.
  intros Hs Hsb Hf H.
  destruct (single_bitmap_inv _ _ Hs)
    as (sb' & gd & rest & Hm & H1 & H2 & H3 & H4 & ->).
  pose proof Hm as (Hsb' & _). rewrite Hsb in Hsb'. inversion Hsb'.
  subst sb'.
  intros sb0 Hsb0 j Hj. rewrite Hsb in Hsb0. inversion Hsb0. subst sb0.
  exact (allocate_exhausted sb gd rest (block_size w) H1 H2 H3 w w' Hm Hf H
           j Hj).
Qed.

Lemma bitmap_full_kept w w' B :
  same_volume w w' ->
  (forall i, marked_on_device w B i -> marked_on_device w' B i) ->
  bitmap_full w B -> bitmap_full w' B.
Proof.
  intros (E & _) Hkeep Hfull sb Hsb j Hj. rewrite E in Hsb.
  apply Hkeep. exact (Hfull sb Hsb j Hj).
Qed.

Lemma allocations_on_single w js w' :
  allocations w js w' ->
  forall B,
    single_bitmap w = Some B ->
    (forall i, marked_on_device w B i -> marked_on_device w' B i) /\
    (forall j, In j js -> j <> 0 ->
               marked_on_device w' B j /\ ~ marked_on_device w B j) /\
    NoDup (filter nonzero js).
Proof.
  induction 1 as [w|w j w1 js w2 [Ha Hone] Hrest IH]; intros B Hs.
  - conjuncts; [auto | intros j [] | constructor].
  - assert (Hs1 : single_bitmap w1 = Some B).
    { rewrite (single_bitmap_same w w1); [exact Hs|].
      eapply keeps_allocate; eauto. }
    destruct (IH B Hs1) as (Q1 & Q2 & Q3).
    assert (P : (j = 0 /\ forall i, marked_on_device w B i ->
                                     marked_on_device w1 B i) \/
                (~ marked_on_device w B j /\ marked_on_device w1 B j /\
                 forall i, marked_on_device w B i ->
                           marked_on_device w1 B i)).
    { destruct (allocate_on_single _ _ _ _ Hs Ha) as [[-> ->]|Hr];
        [left; auto | right; exact Hr]. }
    assert (P1 : forall i, marked_on_device w B i -> marked_on_device w1 B i)
      by (destruct P as [[_ P]|(_ & _ & P)]; exact P).
    conjuncts.
    + auto.
    + intros j' [<-|Hin] Hnz.
      * destruct P as [[-> _]|(Hn & Hm & _)]; [congruence|]. auto.
      * destruct (Q2 j' Hin Hnz) as [Hm Hn]. auto.
    + cbn [filter]. destruct (nonzero j) eqn:Hnz; [|exact Q3].
      constructor; [|exact Q3].
      intros Hin. apply filter_In in Hin as [Hin _].
      unfold nonzero in Hnz. apply negb_true_iff, Z.eqb_neq in Hnz.
      destruct (Q2 j Hin Hnz) as [_ Hn].
      destruct P as [[-> _]|(_ & Hm & _)]; [congruence | auto].
Qed.

(** When one of the calls reports exhaustion, on a volume whose first
    available block is not block 0, the bitmap is full afterwards. *)
Lemma allocations_exhausted w js w' :
  allocations w js w' ->
  forall B sb,
    single_bitmap w = Some B ->
    superblock w = Some sb ->
    0 < sb_first_available_block sb ->
    In 0 js -> bitmap_full w' B.
Proof.
  induction 1 as [w|w j w1 js w2 [Ha Hone] Hrest IH];
    intros B sb Hs Hsb Hf Hin; [destruct Hin|].
  assert (HV : same_volume w w1) by (eapply keeps_allocate; eauto).
  assert (Hs1 : single_bitmap w1 = Some B)
    by (rewrite (single_bitmap_same w w1); [exact Hs | exact HV]).
  destruct Hin as [->|Hin].
  - apply (bitmap_full_kept w1 w2 B).
    + apply allocations_same_volume with (1 := Hrest).
    + apply (allocations_on_single _ _ _ Hrest B Hs1).
    + apply (bitmap_full_kept w w1 B HV).
      * destruct (allocate_on_single _ _ _ _ Hs Ha) as [[_ ->]|(_ & _ & P)];
          auto.
      * exact (exhausted_on_single w w1 B sb Hs Hsb Hf Ha).
  - apply (IH B sb Hs1); [|exact Hf|exact Hin].
    destruct HV as (E & _). rewrite E. exact Hsb.
Qed.

(** What one call does on a volume with a single bitmap block, beyond
    [allocate_on_single]: it marks no block but the one it returns, a block
    it returns lies in the group, and on a volume whose first available
    block is not block 0 a result of 0 has left the world as it was. *)
Lemma frame_on_single w j w' B :
  single_bitmap w = Some B ->
  ext2_allocate_block w = Ok j w' ->
  (forall i, marked_on_device w' B i -> i = j \/ marked_on_device w B i) /\
  (forall sb,
     superblock w = Some sb ->
     (j <> 0 ->
      sb_first_available_block sb <= j < sb_blocks_per_group sb) /\
     (0 < sb_first_available_block sb -> j = 0 -> w' = w)).
Proof.
  intros Hs H.
  destruct (single_bitmap_inv _ _ Hs)
    as (sb & gd & rest & Hm & H1 & H2 & H3 & H4 & ->).
  split.
  - exact (allocate_frame sb gd rest (block_size w) H1 H2 H3 H4 w j w' Hm H).
  - intros sb0 Hsb0. pose proof Hm as (Hsb & _).
    rewrite Hsb in Hsb0. inversion Hsb0. subst sb0.
    destruct (allocate_single sb gd rest (block_size w) H1 H2 H3 H4 w j w'
                Hm H) as (_ & [[-> ->]|(Hr & _)]).
    + split; [intros Hj; contradiction | auto].
    + split; [intros _; exact Hr | intros Hf Hj; lia].
Qed.

Lemma marked_same_device w1 w2 B j :
  device w1 = device w2 -> block_size w1 = block_size w2 ->
  marked_on_device w1 B j -> marked_on_device w2 B j.
Proof.
  intros Hd Hb (dev & byte & H1 & H2 & H3). exists dev, byte.
  rewrite <- Hd, <- Hb. auto.
Qed.

(** The blocks that are marked after a run of calls are those that were
    marked before and those that the calls have returned. *)
Lemma allocations_frame w js w' :
  allocations w js w' ->
  forall B sb,
    single_bitmap w = Some B ->
    superblock w = Some sb ->
    0 < sb_first_available_block sb ->
    (forall i, marked_on_device w' B i ->
               (In i js /\ i <> 0) \/ marked_on_device w B i) /\
    (forall j, In j js -> j <> 0 ->
               sb_first_available_block sb <= j < sb_blocks_per_group sb).
Proof.
  induction 1 as [w|w j w1 js w2 [Ha Hone] Hrest IH]; intros B sb Hs Hsb Hf.
  - split; [auto | intros j []].
  - assert (HV : same_volume w w1) by (eapply keeps_allocate; eauto).
    assert (Hs1 : single_bitmap w1 = Some B)
      by (rewrite (single_bitmap_same w w1); [exact Hs | exact HV]).
    assert (Hsb1 : superblock w1 = Some sb)
      by (destruct HV as (E & _); rewrite E; exact Hsb).
    destruct (IH B sb Hs1 Hsb1 Hf) as (F & R).
    destruct (frame_on_single _ _ _ _ Hs Ha) as (F1 & R1).
    destruct (R1 sb Hsb) as (Rj & Zj).
    split.
    + intros i Hi.
      destruct (F i Hi) as [[Hin Hnz]|Hm1];
        [left; split; [right; exact Hin | exact Hnz]|].
      destruct (Z.eq_dec j 0) as [->|Hnz].
      * rewrite (Zj Hf eq_refl) in Hm1. right. exact Hm1.
      * destruct (F1 i Hm1) as [->|Hm]; [|right; exact Hm].
        left. split; [left; reflexivity | exact Hnz].
    + intros j' [<-|Hin] Hnz; [exact (Rj Hnz) | exact (R j' Hin Hnz)].
Qed.

Lemma filter_without (j : Z) (l : list Z) :
  ~ In j l -> filter (fun f => negb (f =? j)) l = l.
Proof.
  induction l as [|a l IH]; intros Hn; [reflexivity|].
  cbn [filter]. destruct (Z.eqb_spec a j) as [->|_].
  - exfalso. apply Hn. left. reflexivity.
  - cbn [negb]. f_equal. apply IH. intros Hin. apply Hn. right. exact Hin.
Qed.

Lemma length_without (j : Z) (l : list Z) :
  NoDup l ->
  (length l <= S (length (filter (fun f => negb (f =? j)%Z) l)))%nat.
Proof.
  induction 1 as [|a l Hn Hd IH]; cbn [filter length]; [lia|].
  destruct (Z.eqb_spec a j) as [->|_]; cbn [negb length].
  - rewrite (filter_without j l Hn). lia.
  - lia.
Qed.

(** As long as blocks are free, no call reports exhaustion: a run of calls
    on a volume with as many free blocks as there are calls returns blocks
    only. *)
Lemma allocations_take_free w js w' :
  allocations w js w' ->
  forall B sb free,
    single_bitmap w = Some B ->
    superblock w = Some sb ->
    0 < sb_first_available_block sb ->
    NoDup free -> (length js <= length free)%nat ->
    (forall f, In f free ->
               sb_first_available_block sb <= f < sb_blocks_per_group sb /\
               ~ marked_on_device w B f) ->
    ~ In 0 js.
Proof.
  induction 1 as [w|w j w1 js w2 [Ha Hone] Hrest IH];
    intros B sb free Hs Hsb Hf Hnd Hlen Hfree Hin; [destruct Hin|].
  assert (HV : same_volume w w1) by (eapply keeps_allocate; eauto).
  assert (Hs1 : single_bitmap w1 = Some B)
    by (rewrite (single_bitmap_same w w1); [exact Hs | exact HV]).
  assert (Hsb1 : superblock w1 = Some sb)
    by (destruct HV as (E & _); rewrite E; exact Hsb).
  assert (Hj : j <> 0).
  { intros ->.
    pose proof (exhausted_on_single w w1 B sb Hs Hsb Hf Ha) as Hfull.
    destruct free as [|f free]; [cbn [length] in Hlen; lia|].
    destruct (Hfree f (or_introl eq_refl)) as (Hr & Hn).
    apply Hn. exact (Hfull sb Hsb f Hr). }
  destruct Hin as [E|Hin]; [contradiction|].
  apply (IH B sb (filter (fun f => negb (f =? j)) free)); auto.
  - apply NoDup_filter. exact Hnd.
  - pose proof (length_without j free Hnd). cbn [length] in Hlen. lia.
  - intros f Hinf. apply filter_In in Hinf as [Hinf Hne].
    apply negb_true_iff, Z.eqb_neq in Hne.
    destruct (Hfree f Hinf) as (Hr & Hn). split; [exact Hr|].
    intros Hm.
    destruct (proj1 (frame_on_single _ _ _ _ Hs Ha) f Hm) as [E|Hm0];
      [contradiction | auto].
Qed.

Lemma filter_nonzero js : ~ In 0 js -> filter nonzero js = js.
Proof.
  induction js as [|j js IH]; intros Hn; [reflexivity|].
  cbn [filter]. unfold nonzero at 1.
  destruct (Z.eqb_spec j 0) as [->|_].
  - exfalso. apply Hn. left. reflexivity.
  - cbn [negb]. f_equal. apply IH. intros Hin. apply Hn. right. exact Hin.
Qed.

(** X13.  The allocator on a volume with a single bitmap block: calls one
    after the other never return the same nonzero block twice, and a call
    on a volume whose bitmap has every bit set returns 0 and leaves the
    world as it is. *)
Lemma allocator_on_single_bitmap w B :
  single_bitmap w = Some B ->
  (forall js w', allocations w js w' -> NoDup (filter nonzero js)) /\
  (forall loaded,
     block_of w B = Some loaded ->
     bitmap_full w B ->
     ext2_allocate_block w = Ok 0 w).
Proof.
  intros Hs. split.
  - intros js w' Ha. apply (allocations_on_single _ _ _ Ha B Hs).
  - intros loaded Hblk Hall.
    destruct (single_bitmap_inv _ _ Hs)
      as (sb & gd & rest & Hm & H1 & H2 & H3 & H4 & ->).
    pose proof Hm as (Hsb & _).
    apply (allocate_all_set sb gd rest (block_size w) H1 H2 H3 w loaded
             Hm Hblk).
    intros i Hi. apply (marked_load w _ i loaded Hblk).
    + split; [apply Z.div_pos; lia|].
      apply Z.div_lt_upper_bound; lia.
    + apply (Hall sb Hsb). exact Hi.
Qed.

Lemma allocator_on_single_bitmap_witness :
  (forall js w', allocations volume js w' -> NoDup (filter nonzero js)) /\
  (forall loaded,
     block_of volume 3 = Some loaded ->
     bitmap_full volume 3 ->
     ext2_allocate_block volume = Ok 0 volume).
Proof. refine (allocator_on_single_bitmap volume 3 _). by_computation. Defined.

(** X14.  First fit.  On a volume with one block group whose bitmap fits in one
    block, the block that the allocator returns is the lowest free one from
    the first available block on: every block below it was marked, it was
    not, and it is afterwards; and the allocator reports exhaustion, on a
    volume whose first available block is not block 0, only when every
    block of the group is marked. *)
Theorem allocate_first_fit w B sb j w' :
  single_bitmap w = Some B ->
  superblock w = Some sb ->
  ext2_allocate_block w = Ok j w' ->
  (forall i, sb_first_available_block sb <= i < j ->
             marked_on_device w B i) /\
  (j <> 0 ->
   sb_first_available_block sb <= j < sb_blocks_per_group sb /\
   ~ marked_on_device w B j /\ marked_on_device w' B j) /\
  (j = 0 -> 0 < sb_first_available_block sb -> bitmap_full w B).
Proof.
  intros Hs Hsb H.
  destruct (single_bitmap_inv _ _ Hs)
    as (sb' & gd & rest & Hm & H1 & H2 & H3 & H4 & ->).
  pose proof Hm as (Hsb' & _). rewrite Hsb in Hsb'. inversion Hsb'.
  subst sb'. conjuncts.
  - exact (allocate_lowest sb gd rest (block_size w) H1 H2 H3 w j w' Hm H).
  - intros Hj.
    destruct (allocate_single sb gd rest (block_size w) H1 H2 H3 H4 w j w'
                Hm H) as (_ & [[Hz _]|(Hr & Hn & Hm' & _)]);
      [contradiction | auto].
  - intros -> Hf. exact (exhausted_on_single w w' _ sb Hs Hsb Hf H).
Qed.

Lemma allocate_first_fit_witness :
  (forall i, sb_first_available_block volume_superblock <= i < 11 ->
             marked_on_device unallocated 3 i) /\
  (11 <> 0 ->
   sb_first_available_block volume_superblock <= 11
   < sb_blocks_per_group volume_superblock /\
   ~ marked_on_device unallocated 3 11 /\
   marked_on_device first_allocation 3 11) /\
  (11 = 0 -> 0 < sb_first_available_block volume_superblock ->
   bitmap_full unallocated 3).
Proof.
  refine (allocate_first_fit unallocated 3 volume_superblock 11
            first_allocation _ _ _); by_computation.
Defined.

(** X15.  An allocation changes one byte of the device.  On such a volume a call
    of the allocator either leaves the world as it was, or it leaves a
    device of the same length that differs from the one before in the byte
    of the bitmap that holds the bit of the block returned, and there by
    that bit: the superblock and the group descriptors on the device, and
    their counts of free blocks, are as they were. *)
Theorem allocate_changes_one_byte w B j w' :
  single_bitmap w = Some B ->
  ext2_allocate_block w = Ok j w' ->
  w' = w \/
  exists dev dev' byte,
    device w = Some dev /\ device w' = Some dev' /\
    length dev' = length dev /\
    load 1 dev (u32 (B * block_size w) + j / 8) = Some byte /\
    forall a : nat,
      nth a dev' 0
      = if (a =? Z.to_nat (u32 (B * block_size w) + j / 8))%nat
        then u8 (Z.lor byte (Z.shiftl 1 (j mod 8)))
        else nth a dev 0.
Proof.
  intros Hs H.
  destruct (single_bitmap_inv _ _ Hs)
    as (sb & gd & rest & Hm & H1 & H2 & H3 & H4 & ->).
  exact (allocate_bytes sb gd rest (block_size w) H1 H2 H3 H4 w j w' Hm H).
Qed.

Lemma allocate_changes_one_byte_witness :
  first_allocation = unallocated \/
  exists dev dev' byte,
    device unallocated = Some dev /\ device first_allocation = Some dev' /\
    length dev' = length dev /\
    load 1 dev (u32 (3 * block_size unallocated) + 11 / 8) = Some byte /\
    forall a : nat,
      nth a dev' 0
      = if (a =? Z.to_nat (u32 (3 * block_size unallocated) + 11 / 8))%nat
        then u8 (Z.lor byte (Z.shiftl 1 (11 mod 8)))
        else nth a dev 0.
Proof.
  refine (allocate_changes_one_byte unallocated 3 11 first_allocation _ _);
    by_computation.
Defined.

(** *** The scan ends *)

Lemma bind_oof_inv {A B} (c : M A) (k : A -> M B) w :
  runs c -> bind c k w = OutOfFuel ->
  exists a w', c w = Ok a w' /\ k a w' = OutOfFuel.
Proof.
  intros Hr H. unfold bind in H. specialize (Hr w).
  destruct (c w) as [a w'| |]; [eauto | discriminate | contradiction].
Qed.

Lemma bind_oof_pure {A B} (c : M A) (k : A -> M B) w :
  runs c -> pure c -> bind c k w = OutOfFuel ->
  exists a, c w = Ok a w /\ k a w = OutOfFuel.
Proof.
  intros Hr Hp H. apply bind_oof_inv in H as (a & w' & E & H); [|exact Hr].
  pose proof (Hp _ _ _ E). subst w'. eauto.
Qed.

Lemma runs_write_block b buf : runs (ext2_write_block b buf).
Proof. unfold ext2_write_block, the_device. structured. Qed.

Lemma runs_the_superblock : runs the_superblock.
Proof. unfold the_superblock. structural. Qed.

Lemma runs_the_group_descriptors : runs the_group_descriptors.
Proof. unfold the_group_descriptors. structural. Qed.

#[local] Hint Resolve runs_the_superblock runs_the_group_descriptors
  runs_write_block : ext2.

Ltac oof_step H :=
  apply bind_oof_pure in H;
  [ let a := fresh "a" in
    let E := fresh "E" in
    destruct H as (a & E & H); cbv beta in H
  | solve [structured] | solve [structured] ].

Lemma allocate_loop_runs fuel :
  forall j bitmap tmp w sb,
    superblock w = Some sb ->
    0 <= j ->
    u32 (sb_blocks_per_group sb * num_block_groups w) - j <= Z.of_nat fuel ->
    ext2_allocate_block_loop fuel j bitmap tmp w <> OutOfFuel.
Proof.
  induction fuel as [|fuel IH]; intros j bitmap tmp w sb Hsb Hj Hf H;
    cbn [ext2_allocate_block_loop] in H;
    unfold the_superblock in H; unfold bind at 1 in H;
    unfold bind at 1 in H; unfold gets at 1 in H; rewrite Hsb in H;
    cbn [must ret] in H; unfold bind at 1 in H; unfold gets at 1 in H;
    destruct (Z.ltb_spec j (u32 (sb_blocks_per_group sb * num_block_groups w)))
      as [Hlt|Hge]; cbn [negb] in H; try discriminate H.
  - lia.
  - oof_step H. oof_step H. cbv zeta in H. oof_step H. oof_step H.
    oof_step H.
    apply bind_oof_inv in H as ([bm t] & w1 & E4 & H); [|structured].
    assert (HV : same_volume w w1).
    { revert E4.
      match goal with
      | |- ?c w = _ -> _ =>
          intros E4; refine ((_ : keeps_volume c) w (bm, t) w1 E4)
      end.
      match goal with
      | |- keeps_volume (if ?b then _ else _) =>
          destruct b; [|apply keeps_pure; structured]
      end.
      apply keeps_bind.
      - match goal with
        | |- keeps_volume (if ?b then _ else _) =>
            destruct b; [|apply keeps_pure; structured]
        end.
        apply keeps_bind; [apply keeps_pure; structured|].
        intros g. apply keeps_printf.
      - intros u. apply keeps_pure. structured. }
    destruct HV as (V1 & _ & V3 & _).
    oof_step H.
    match type of H with
    | (if ?b then _ else _) _ = _ => destruct b
    end.
    + revert H.
      match goal with
      | |- ?c w1 = OutOfFuel -> False => refine ((_ : runs c) w1)
      end.
      structured.
    + revert H. apply (IH _ _ _ _ sb).
      * rewrite V1. exact Hsb.
      * unfold u32. apply Z.mod_pos_bound. lia.
      * rewrite V3.
        assert (u32 (sb_blocks_per_group sb * num_block_groups w) < 2 ^ 32)
          by (unfold u32; apply Z.mod_pos_bound; lia).
        rewrite (u32_small (j + 1)) by lia. lia.
Qed.

(** X16.  The scan of the allocator ends: a call returns a block, reports
    exhaustion, or stops on an access outside an object; it does not run
    for ever. *)
Theorem allocate_block_terminates w :
  match superblock w with
  | Some sb => 0 <= sb_first_available_block sb
  | None => True
  end ->
  ext2_allocate_block w <> OutOfFuel.
Proof.
  intros Hf H. unfold ext2_allocate_block in H.
  oof_step H. oof_step H.
  unfold the_superblock in H. unfold bind at 1 in H. unfold bind at 1 in H.
  unfold gets at 1 in H.
  destruct (superblock w) as [sb|] eqn:Hsb; [|discriminate H].
  cbn [must ret] in H. unfold bind at 1 in H. unfold gets at 1 in H.
  revert H. apply (allocate_loop_runs _ _ _ _ _ sb Hsb).
  - exact Hf.
  - lia.
Qed.

Lemma allocate_block_terminates_witness :
  ext2_allocate_block unallocated <> OutOfFuel.
Proof. refine (allocate_block_terminates unallocated _). by_computation. Defined.

(** ** Mounting *)

(** C7, as amended.  A volume that is too short leaves the five variables as
    they were.  A buffer with a wrong signature leaves the block size, the
    number of block groups and the group descriptors as they were; the
    device is the rejected buffer from then on and the superblock pointer is
    null. *)
Theorem init_ext2_rejects magic data len w :
  (len < 1024 + sizeof_superblock_t ->
   init_ext2 magic data len w
   = Ok tt (printed "[EXT2] Invalid volume: too small to be true\n" [] w)) /\
  (forall raw,
     1024 + sizeof_superblock_t <= len ->
     sub (skipn 1024 data) 0 1024 = Some raw ->
     sb_magic (as_superblock raw) <> magic ->
     init_ext2 magic data len w
     = Ok tt {| device := Some data;
                num_block_groups := num_block_groups w;
                block_size := block_size w;
                superblock := None;
                group_descriptors := group_descriptors w;
                console :=
                  console w
                  ++ [Printf "[EXT2] Invalid signature: %x\n"
                        [sb_magic (as_superblock raw)];
                      Printf "[EXT2] aborting\n" []];
                junk := junk w |}).
Proof.
  split.
  - intros H. unfold init_ext2. apply Z.ltb_lt in H. rewrite H. reflexivity.
  - intros raw Hlen Hraw Hmagic. unfold init_ext2.
    apply Z.ltb_ge in Hlen. rewrite Hlen.
    unfold bind at 1. unfold modify at 1.
    unfold bind at 1. unfold parse_superblock.
    rewrite <- (Z.eqb_neq) in Hmagic.
    unfold bind at 1.
    pose proof (memcpy_fresh 1024 (skipn 1024 data)
                  (set_device (Some data) w) raw Hraw) as E.
    unfold bind in E at 1.
    destruct (kmalloc 1024 (set_device (Some data) w)) as [r0 w0| |];
      try discriminate E.
    unfold bind at 1. rewrite E. rewrite Hmagic.
    unfold bind, printf, modify, ret, set_superblock, set_console, set_device.
    cbn [negb console device num_block_groups block_size superblock
         group_descriptors junk].
    rewrite <- app_assoc. reflexivity.
Qed.

(** C7 as stated fails: after the mount of a buffer without the signature
    on the mounted [volume], the device is the rejected buffer and the
    superblock pointer is null. *)
Lemma failed_mount_mutates :
  match init_ext2 magic_ef53 blank_image 4096 volume with
  | Ok _ w' =>
      device w' = Some blank_image /\ device volume <> Some blank_image /\
      superblock w' = None /\ superblock volume <> None
  | _ => False
  end.
Proof.
  vm_compute. conjuncts; try reflexivity; discriminate.
Qed.

Lemma init_ext2_rejects_witness :
  init_ext2 magic_ef53 blank_image 100 boot
  = Ok tt (printed "[EXT2] Invalid volume: too small to be true\n" [] boot) /\
  init_ext2 magic_ef53 blank_image 4096 boot
  = Ok tt {| device := Some blank_image;
             num_block_groups := 0;
             block_size := 0;
             superblock := None;
             group_descriptors := None;
             console := [Printf "[EXT2] Invalid signature: %x\n" [0];
                         Printf "[EXT2] aborting\n" []];
             junk := junk boot |}.
Proof.
  split.
  - refine (proj1 (init_ext2_rejects magic_ef53 blank_image 100 boot) _).
    reflexivity.
  - refine (proj2 (init_ext2_rejects magic_ef53 blank_image 4096 boot)
              (repeat 0 1024) _ _ _).
    + vm_compute. discriminate.
    + vm_compute. reflexivity.
    + vm_compute. discriminate.
Defined.

Lemma parse_superblock_device magic data w r w' :
  parse_superblock magic data w = Ok r w' -> device w' = device w.
Proof.
  intros H. unfold parse_superblock in H.
  pure_step H. pure_step H. cbv zeta in H.
  destruct (negb _).
  - apply bind_inv in H as (u & w1 & Hp & H). apply printf_inv in Hp.
    apply ret_inv in H as [_ ->]. subst w1. reflexivity.
  - pure_step H.
    apply bind_inv in H as (u & w1 & Hm & H). apply modify_inv in Hm.
    apply bind_inv in H as (u' & w2 & Hb & H).
    apply ret_inv in H as [_ ->].
    destruct (_ <? 32); [|discriminate Hb].
    apply modify_inv in Hb. subst. reflexivity.
Qed.

(** X22.  The six allocations of a mount.  A mount that succeeds has called
    the allocator six times on the volume it was given, before it returns.
    On a volume with one block group whose bitmap fits in one block and
    whose first available block is not block 0: the blocks that the six
    calls return are different from one another and lie in the group, their
    bits were clear in the bitmap of the volume as it was given and are set
    in the bitmap block of the device after the mount, and no other bit of
    the bitmap has changed; a call reports exhaustion only when the bitmap
    is full; and when at least six blocks of the group were free, the six
    calls have returned six blocks, so that six blocks more are marked on
    the device when the mount returns. *)
Theorem mount_allocates magic data len w w' B sb :
  let given := set_device (Some data) w' in
  let first := sb_first_available_block sb in
  let bpg := sb_blocks_per_group sb in
  1024 + sizeof_superblock_t <= len ->
  init_ext2 magic data len w = Ok tt w' ->
  single_bitmap w' = Some B ->
  superblock w' = Some sb ->
  0 < first ->
  exists w0 js,
    device w0 = Some data /\ length js = 6%nat /\ allocations w0 js w' /\
    NoDup (filter nonzero js) /\
    (forall j, In j js -> j <> 0 ->
               first <= j < bpg /\
               ~ marked_on_device given B j /\ marked_on_device w' B j) /\
    (forall i, marked_on_device w' B i <->
               (In i js /\ i <> 0) \/ marked_on_device given B i) /\
    (In 0 js -> bitmap_full w' B) /\
    (forall free,
       NoDup free -> (6 <= length free)%nat ->
       (forall f, In f free ->
                  first <= f < bpg /\ ~ marked_on_device given B f) ->
       NoDup js /\ ~ In 0 js).
Proof.
  intros given first bpg Hlen H HB Hsb Hf. unfold init_ext2 in H.
  apply Z.ltb_ge in Hlen. rewrite Hlen in H.
  apply bind_inv in H as (u & wa & Hd & H). apply modify_inv in Hd.
  apply bind_inv in H as (sbo & wb & Hp & H).
  apply parse_superblock_device in Hp.
  apply bind_inv in H as (u0 & wc & Hs & H). apply modify_inv in Hs.
  destruct sbo as [sb'|].
  2:{ apply printf_inv in H. subst. discriminate Hsb. }
  pure_step H.
  apply bind_inv in H as (u1 & wd & Hg & H). apply modify_inv in Hg.
  pure_step H.
  apply bind_inv in H as (u2 & we & Hp1 & H). apply printf_inv in Hp1.
  pure_step H.
  apply bind_inv in H as (u3 & w0 & Hp2 & H). apply printf_inv in Hp2.
  apply bind_inv in H as (j1 & w1 & A1 & H).
  apply bind_inv in H as (j2 & w2 & A2 & H).
  apply bind_inv in H as (j3 & w3 & A3 & H).
  apply bind_inv in H as (j4 & w4 & A4 & H).
  apply bind_inv in H as (j5 & w5 & A5 & H).
  apply bind_inv in H as (j6 & w6 & A6 & H).
  apply ret_inv in H as [_ ->].
  assert (Hall : allocations w0 [j1; j2; j3; j4; j5; j6] w6).
  { repeat (eapply allocations_cons;
            [apply allocate_block_spec; eassumption|]).
    apply allocations_nil. }
  assert (Hdev : device w0 = Some data).
  { subst. cbn. rewrite Hp. reflexivity. }
  clear Hd Hs Hg Hp1 Hp2 Hp A1 A2 A3 A4 A5 A6.
  set (js := [j1; j2; j3; j4; j5; j6]) in *.
  pose proof (allocations_same_volume _ _ _ Hall) as HV.
  assert (HB0 : single_bitmap w0 = Some B)
    by (rewrite <- (single_bitmap_same w0 w6 HV); exact HB).
  assert (Hsb0 : superblock w0 = Some sb)
    by (destruct HV as (E' & _); rewrite <- E'; exact Hsb).
  assert (Hbs : block_size w0 = block_size w6)
    by (destruct HV as (_ & _ & _ & E'); symmetry; exact E').
  assert (G : forall i, marked_on_device given B i <->
                        marked_on_device w0 B i).
  { intros i. split; apply marked_same_device;
      unfold given; cbn [device block_size set_device]; congruence. }
  destruct (allocations_on_single _ _ _ Hall B HB0) as (Q1 & Q2 & Q3).
  destruct (allocations_frame _ _ _ Hall B sb HB0 Hsb0 Hf) as (F & R).
  exists w0, js. conjuncts.
  - exact Hdev.
  - reflexivity.
  - exact Hall.
  - exact Q3.
  - intros j Hin Hnz. destruct (Q2 j Hin Hnz) as (Hm & Hn).
    conjuncts; [apply (R j Hin Hnz) | apply (R j Hin Hnz) | | exact Hm].
    intros Hg. apply Hn, G. exact Hg.
  - intros i. split.
    + intros Hi. destruct (F i Hi) as [Hl|Hr]; [left; exact Hl|].
      right. apply G. exact Hr.
    + intros [[Hin Hnz]|Hg]; [apply (Q2 i Hin Hnz)|].
      apply Q1, G. exact Hg.
  - exact (allocations_exhausted _ _ _ Hall B sb HB0 Hsb0 Hf).
  - intros free Hnd Hl6 Hfree.
    assert (Hz : ~ In 0 js).
    { apply (allocations_take_free _ _ _ Hall B sb free HB0 Hsb0 Hf Hnd).
      - exact Hl6.
      - intros f Hin. destruct (Hfree f Hin) as (Hr & Hn).
        split; [exact Hr|]. intros Hm. apply Hn, G. exact Hm. }
    split; [|exact Hz]. rewrite <- (filter_nonzero js Hz). exact Q3.
Qed.

(** C9.  The mount of [small_groups_image], a volume of two groups, succeeds;
    group 0 is full and every block of group 1 is free, so six blocks have
    to be marked in the bitmap of group 1 when the mount returns.  Each of
    the six calls returns block 256 and writes the copy of the bitmap of
    group 0 that it holds to block 4, the block before the bitmap of group
    1: the two bitmap blocks, 3 and 5, are after the mount what they were,
    and no block has been marked. *)
Theorem mount_marks_no_block :
  let given := set_device (Some small_groups_image) small_groups in
  init_ext2 magic_ef53 small_groups_image 6144 boot = Ok tt small_groups /\
  num_block_groups small_groups = 2 /\
  skipn 2 (console small_groups)
  = repeat (Printf "[ext2] alloc %d, tmp was %b, at bitmap %d\n" [256; 0; 4])
      6 /\
  block_of given 3 = Some (repeat 255 32 ++ repeat 0 992) /\
  block_of given 5 = Some (repeat 0 1024) /\
  block_of small_groups 3 = block_of given 3 /\
  block_of small_groups 5 = block_of given 5 /\
  block_of small_groups 4 <> block_of given 4.
Proof.
  cbv zeta. conjuncts; try (vm_compute; reflexivity).
  vm_compute. discriminate.
Qed.

(** The six blocks that are free in the bitmap of [volume_image]. *)
Lemma volume_image_free f :
  In f [11; 12; 13; 14; 15; 16] ->
  ~ marked_on_device (set_device (Some volume_image) volume) 3 f.
Proof.
  intros Hin Hm.
  apply (marked_by_nth (set_device (Some volume_image) volume) 3 f
           volume_image eq_refl) in Hm;
    cbn [In] in Hin;
    destruct Hin as [<-|[<-|[<-|[<-|[<-|[<-|[]]]]]]];
    try (vm_compute in Hm; discriminate Hm);
    by_computation.
Qed.

Lemma mount_allocates_witness :
  let given := set_device (Some volume_image) volume in
  exists w0 js,
    device w0 = Some volume_image /\ length js = 6%nat /\
    allocations w0 js volume /\
    NoDup js /\ ~ In 0 js /\
    (forall j, In j js ->
               11 <= j < 8192 /\
               ~ marked_on_device given 3 j /\ marked_on_device volume 3 j) /\
    (forall i, marked_on_device volume 3 i <->
               (In i js /\ i <> 0) \/ marked_on_device given 3 i).
Proof.
  cbv zeta.
  destruct (mount_allocates magic_ef53 volume_image 11264 boot volume 3
              volume_superblock ltac:(by_computation) ltac:(by_computation)
              ltac:(by_computation) ltac:(by_computation)
              ltac:(by_computation))
    as (w0 & js & Hd & Hl & Ha & _ & Hj & Hf & _ & Hsix).
  destruct (Hsix [11; 12; 13; 14; 15; 16]) as (Hnd & Hnz).
  - repeat constructor; cbn [In]; lia.
  - cbn [length]. lia.
  - intros f Hin. split.
    + cbn [In] in Hin.
      change (sb_first_available_block volume_superblock) with 11.
      change (sb_blocks_per_group volume_superblock) with 8192. lia.
    + exact (volume_image_free f Hin).
  - exists w0, js. conjuncts; auto.
    intros j Hin. apply Hj; [exact Hin|].
    intros ->. contradiction.
Defined.

(** The blocks that the mount of [volume_image] has taken: the six blocks
    that were free. *)
Lemma volume_mount_log :
  skipn 2 (console volume)
  = map (fun jb =>
           Printf "[ext2] alloc %d, tmp was %b, at bitmap %d\n"
             [fst jb; snd jb; 3])
        [(11, 7); (12, 15); (13, 31); (14, 63); (15, 127); (16, 254)] /\
  block_of (mount volume_image) 3 = Some (repeat 255 1024) /\
  ext2_allocate_block volume = Ok 0 volume.
Proof. conjuncts; vm_compute; reflexivity. Qed.

(** *** What a mount reads *)

Lemma as_group_descriptor_prefix (a m : nat) (l : list Z) :
  (a + 32 <= m)%nat ->
  as_group_descriptor (skipn a (firstn m l)) = as_group_descriptor (skipn a l).
Proof.
  intros H. unfold as_group_descriptor.
  f_equal; try (apply field_prefix; lia).
  unfold words. apply map_ext_in. intros i Hi. apply in_seq in Hi.
  apply field_prefix. lia.
Qed.

Lemma parse_superblock_inv magic data w sb w' :
  parse_superblock magic data w = Ok (Some sb) w' ->
  exists raw n,
    sub data 0 1024 = Some raw /\ sb = as_superblock raw /\
    sb_magic sb = magic /\
    divide_up (sb_blocks_count sb) (sb_blocks_per_group sb) w = Ok n w /\
    sb_block_size sb < 32 /\
    w' = set_block_size (u32 (Z.shiftl 1024 (sb_block_size sb)))
           (set_num_block_groups n w).
Proof.
  intros H. unfold parse_superblock in H.
  apply bind_inv in H as (raw0 & w0 & Hk & H).
  apply kmalloc_length in Hk as [Hl ->].
  apply bind_inv in H as (raw & w0 & Hc & H).
  unfold memcpy in Hc. apply bind_inv in Hc as (chunk & w1 & Hs & Hc).
  apply must_inv in Hs as [Hs ->]. apply must_inv in Hc as [Hc ->].
  rewrite blit_all in Hc
    by (rewrite Hl; symmetry; eapply sub_length; eauto).
  inversion Hc. subst raw. cbv zeta in H.
  destruct (negb _) eqn:Hm.
  { apply bind_inv in H as (u & w1 & _ & H). apply ret_inv in H as [H _].
    discriminate H. }
  apply negb_false_iff, Z.eqb_eq in Hm.
  pure_step H.
  apply bind_inv in H as (u & w1 & Hn & H). apply modify_inv in Hn.
  apply bind_inv in H as (u' & w2 & Hb & H).
  apply ret_inv in H as [Hsb ->]. inversion Hsb.
  destruct (_ <? 32) eqn:Hlt; [|discriminate Hb].
  apply modify_inv in Hb. apply Z.ltb_lt in Hlt.
  exists chunk, a. subst. conjuncts; auto.
Qed.

Lemma parse_group_descriptors_inv data w gds w' :
  parse_group_descriptors data w = Ok gds w' ->
  w' = w /\
  length gds = Z.to_nat (u32 (num_block_groups w * 32) / 32) /\
  forall g, (g < length gds)%nat ->
            nth_error gds g
            = Some (as_group_descriptor (skipn (32 * g) data)).
Proof.
  intros H. unfold parse_group_descriptors in H.
  pure_step H. inversion E. subst a. cbv zeta in H.
  unfold sizeof_group_descriptor_t in H.
  set (size := u32 (num_block_groups w * 32)) in *.
  apply bind_inv in H as (raw0 & w0 & Hk & H).
  apply kmalloc_length in Hk as [Hl ->].
  apply bind_inv in H as (raw & w0 & Hc & H).
  unfold memcpy in Hc. apply bind_inv in Hc as (chunk & w1 & Hs & Hc).
  apply must_inv in Hs as [Hs ->]. apply must_inv in Hc as [Hc ->].
  rewrite blit_all in Hc
    by (rewrite Hl; symmetry; eapply sub_length; eauto).
  inversion Hc. subst raw.
  apply ret_inv in H as [-> ->].
  split; [reflexivity|]. rewrite length_map, length_seq.
  split; [reflexivity|]. intros g Hg.
  rewrite nth_error_map, nth_error_seq.
  destruct (Nat.ltb_spec g (Z.to_nat (size / 32))) as [_|]; [|lia].
  cbn [option_map Nat.add]. f_equal.
  unfold sub in Hs. destruct (in_range data 0 size) eqn:Er; [|discriminate].
  apply in_range_spec in Er. inversion Hs. cbn [Z.to_nat skipn].
  apply as_group_descriptor_prefix.
  assert (0 <= size / 32) by (apply Z.div_pos; lia).
  assert (32 * (size / 32) <= size) by (apply Z.mul_div_le; lia).
  lia.
Qed.

(** X17.  The length check of the mount is shorter than its first read: a buffer
    of at least [1024 + sizeof(superblock_t)] bytes but of fewer than 2048
    passes the check, and [parse_superblock] then copies 1024 bytes from
    byte 1024 on, past the end of the buffer. *)
Theorem short_volume_overread magic data len w :
  1024 + sizeof_superblock_t <= len ->
  Z.of_nat (length data) < 2048 ->
  init_ext2 magic data len w = Fault.
Proof.
  intros Hlen Hshort. unfold init_ext2.
  apply Z.ltb_ge in Hlen. rewrite Hlen.
  unfold bind at 1. unfold modify at 1.
  unfold bind at 1. unfold parse_superblock.
  unfold bind at 1. unfold kmalloc at 1. unfold gets at 1.
  unfold bind at 1. unfold memcpy. unfold bind at 1.
  replace (sub (skipn 1024 data) 0 1024) with (@None (list Z)); [reflexivity|].
  symmetry. unfold sub.
  destruct (in_range (skipn 1024 data) 0 1024) eqn:E; [|reflexivity].
  apply in_range_spec in E. rewrite length_skipn in E. lia.
Qed.

Lemma short_volume_overread_witness :
  init_ext2 magic_ef53 (repeat 0 1500) 1500 boot = Fault.
Proof.
  refine (short_volume_overread magic_ef53 (repeat 0 1500) 1500 boot _ _).
  - vm_compute. discriminate.
  - vm_compute. reflexivity.
Defined.

(** X18.  What a mount that succeeds leaves in the file-scope variables: the
    superblock is the one decoded from bytes 1024 to 2047 of the buffer as
    it was given and carries the signature, the block size is [1024 <<
    block_size] in 32 bits, and descriptor [g] of the array is the one
    decoded from byte [2048 + 32 g] of the buffer on. *)
Theorem mount_establishes magic data len w w' :
  1024 + sizeof_superblock_t <= len ->
  init_ext2 magic data len w = Ok tt w' ->
  superblock w' <> None ->
  exists raw gds,
    sub data 1024 1024 = Some raw /\
    sb_magic (as_superblock raw) = magic /\
    superblock w' = Some (as_superblock raw) /\
    block_size w'
    = u32 (Z.shiftl 1024 (sb_block_size (as_superblock raw))) /\
    group_descriptors w' = Some gds /\
    length gds = Z.to_nat (u32 (num_block_groups w' * 32) / 32) /\
    forall g, (g < length gds)%nat ->
              nth_error gds g
              = Some (as_group_descriptor (skipn (2048 + 32 * g) data)).
Proof.
  intros Hlen H Hsb. unfold init_ext2 in H.
  apply Z.ltb_ge in Hlen. rewrite Hlen in H.
  apply bind_inv in H as (u & wa & Hd & H). apply modify_inv in Hd.
  apply bind_inv in H as (sbo & wb & Hp & H).
  apply bind_inv in H as (u0 & wc & Hs & H). apply modify_inv in Hs.
  destruct sbo as [sb|].
  2:{ apply printf_inv in H. subst. exfalso. apply Hsb. reflexivity. }
  apply parse_superblock_inv in Hp
    as (raw & n & Hraw & -> & Hmagic & _ & _ & Hwb).
  apply bind_inv in H as (gds & wd & Hg & H).
  apply parse_group_descriptors_inv in Hg as (-> & Hgl & Hgn).
  apply bind_inv in H as (u1 & we & Hsg & H). apply modify_inv in Hsg.
  pure_step H.
  apply bind_inv in H as (u2 & wf & Hp1 & H). apply printf_inv in Hp1.
  pure_step H.
  apply bind_inv in H as (u3 & w0 & Hp2 & H). apply printf_inv in Hp2.
  apply bind_inv in H as (j1 & w1 & A1 & H).
  apply bind_inv in H as (j2 & w2 & A2 & H).
  apply bind_inv in H as (j3 & w3 & A3 & H).
  apply bind_inv in H as (j4 & w4 & A4 & H).
  apply bind_inv in H as (j5 & w5 & A5 & H).
  apply bind_inv in H as (j6 & w6 & A6 & H).
  apply ret_inv in H as [_ ->].
  assert (HV : same_volume w0 w6).
  { repeat (eapply same_volume_trans; [eapply keeps_allocate; eassumption|]).
    apply same_volume_refl. }
  destruct HV as (V1 & V2 & V3 & V4).
  exists raw, gds. rewrite V1, V2, V3, V4.
  subst w0 wf we wc wb wa.
  cbn [superblock group_descriptors num_block_groups block_size set_console
       set_group_descriptors set_superblock set_block_size
       set_num_block_groups set_device printed] in *.
  conjuncts; auto.
  - apply sub_skipn in Hraw; [exact Hraw | lia].
  - intros g Hg. rewrite (Hgn g Hg), skipn_skipn, Nat.add_comm.
    reflexivity.
Qed.

Lemma mount_establishes_witness :
  exists raw gds,
    sub volume_image 1024 1024 = Some raw /\
    sb_magic (as_superblock raw) = magic_ef53 /\
    superblock volume = Some (as_superblock raw) /\
    block_size volume
    = u32 (Z.shiftl 1024 (sb_block_size (as_superblock raw))) /\
    group_descriptors volume = Some gds /\
    length gds = Z.to_nat (u32 (num_block_groups volume * 32) / 32) /\
    forall g, (g < length gds)%nat ->
              nth_error gds g
              = Some (as_group_descriptor (skipn (2048 + 32 * g) volume_image)).
Proof.
  refine (mount_establishes magic_ef53 volume_image 11264 boot volume _ _ _);
    by_computation.
Defined.

(** X19.  The block size can be 0.  [parse_superblock] accepts any block-size
    exponent below 32 and keeps the low 32 bits of [1024 << exponent], the
    shift of the i386 kernel: up to 21 the block size is
    [1024 * 2^exponent], from 22 on it is 0.  The block size is the divisor
    in the lookup of an inode: a lookup that succeeds on a volume stops at
    the division when the block size is 0 and nothing else has changed, and
    so does every read of that inode. *)
Theorem zero_block_size :
  (forall magic data w sb w',
     parse_superblock magic data w = Ok (Some sb) w' ->
     (sb_block_size sb <= 21 ->
      block_size w' = 1024 * 2 ^ sb_block_size sb) /\
     (22 <= sb_block_size sb -> block_size w' = 0)) /\
  (forall w inode i,
     ext2_get_inode inode w = Ok (Some i) w ->
     ext2_get_inode inode (set_block_size 0 w) = Fault /\
     forall offset buf size,
       ext2_read inode offset buf size (set_block_size 0 w) = Fault).
Proof.
  split.
  - intros magic data w sb w' H.
    apply parse_superblock_inv in H
      as (raw & n & _ & Hsb & _ & _ & Hlt & ->).
    cbn [block_size set_block_size set_num_block_groups].
    assert (H0 : 0 <= sb_block_size sb).
    { subst sb. unfold as_superblock, sb_block_size, field. apply le_nonneg. }
    rewrite Z.shiftl_mul_pow2 by exact H0.
    split; intros Hk.
    + apply u32_small. split; [nia|].
      replace (2 ^ 32) with (1024 * 2 ^ 22) by reflexivity.
      apply Z.mul_lt_mono_pos_l; [lia|].
      apply Z.pow_lt_mono_r; lia.
    + unfold u32.
      replace (sb_block_size sb) with (22 + (sb_block_size sb - 22)) by lia.
      rewrite Z.pow_add_r by lia.
      replace (1024 * (2 ^ 22 * 2 ^ (sb_block_size sb - 22)))
        with (2 ^ (sb_block_size sb - 22) * 2 ^ 32)
        by (change (2 ^ 32) with (1024 * 2 ^ 22); ring).
      apply Z.mod_mul. lia.
  - intros w inode i H.
    assert (E : ext2_get_inode inode (set_block_size 0 w) = Fault).
    { unfold ext2_get_inode in *.
      destruct (inode =? 0);
        [apply ret_inv in H as [H _]; discriminate H|].
      unfold the_superblock, the_group_descriptors in *.
      unfold bind at 1 in H. unfold bind at 1 in H. unfold gets at 1 in H.
      unfold bind at 1. unfold bind at 1. unfold gets at 1.
      cbn [superblock set_block_size].
      destruct (superblock w) as [sb|]; [|discriminate H].
      cbn [must ret] in H. cbn [must ret].
      unfold bind at 1 in H. unfold bind at 1 in H. unfold gets at 1 in H.
      unfold bind at 1. unfold bind at 1. unfold gets at 1.
      cbn [group_descriptors set_block_size].
      destruct (group_descriptors w) as [gds|]; [|discriminate H].
      cbn [must ret] in H. cbn [must ret].
      unfold bind at 1 in H. unfold gets at 1 in H.
      unfold bind at 1. unfold gets at 1. cbn [block_size set_block_size].
      unfold bind at 1 in H. unfold div32 at 1 in H.
      unfold bind at 1. unfold div32 at 1.
      destruct (sb_inodes_per_group sb =? 0); [discriminate H|].
      unfold ret at 1 in H. unfold ret at 1.
      unfold bind at 1 in H. unfold bind at 1.
      destruct (nth_error gds _) as [gd|]; [|discriminate H].
      cbn [must ret].
      unfold bind at 1. unfold div32 at 1. reflexivity. }
    split; [exact E|].
    intros offset buf size. unfold ext2_read, bind. rewrite E. reflexivity.
Qed.

Lemma zero_block_size_witness :
  block_size wide_parsed = 0 /\
  ext2_get_inode 2 volume = Ok (Some root_dir) volume /\
  ext2_get_inode 2 (set_block_size 0 volume) = Fault /\
  ext2_read 2 0 [] 8 (set_block_size 0 volume) = Fault.
Proof.
  split.
  - refine (proj2 (proj1 zero_block_size magic_ef53 (skipn 1024 wide_image)
                     boot wide_superblock wide_parsed _) _); by_computation.
  - split; [exact volume_inode_2|].
    exact (let H := proj2 zero_block_size volume 2 root_dir volume_inode_2 in
           conj (proj1 H) (proj2 H 0 [] 8)).
Defined.
